(** * Markov-s-Machine: the n-gram chain engine and the thematic answer generator

    A shallow embedding of the Go packages [trainer], [tokenizer] and
    [generator], followed by the properties proved about them.

    Conventions of the embedding:
    - a Go [string] is a byte string ([String.string]); [len(s)] is its
      length in bytes;
    - a Go [int] is a 64-bit two's complement integer, carried as a [Z] and
      wrapped by [wrap64] after each addition or subtraction;
    - a Go [float64] is a primitive binary64 [float];
    - a Go map is a [gmap]; a [range] over a map visits the entries in an
      order the language leaves unspecified, so every loop whose result
      depends on that order takes the order as an argument;
    - a call returns a value or panics: the [Returned] and [Panicked]
      outcomes;
    - the functions of Go's standard library that the code calls and that
      are not defined here ([unicode], [regexp], [math.Log2], [sort.Slice],
      the seeded random source) are the fields of the class [GoLib]. *)

From Stdlib Require Import ZArith Ascii Floats QArith Qcanon Lia.
From stdpp Require Import gmap strings list fin_maps sorting.

Local Open Scope string_scope.
Local Open Scope list_scope.
Local Open Scope Z_scope.

(* ===================================================================== *)
(** * Go values and control *)
(* ===================================================================== *)

Module Go.

(** ** 64-bit integers *)

Definition MaxInt : Z := 9223372036854775807.
Definition MinInt : Z := -9223372036854775808.

Definition wrap64 (z : Z) : Z := (z + 2 ^ 63) mod 2 ^ 64 - 2 ^ 63.

Definition int_add (a b : Z) : Z := wrap64 (a + b).
Definition int_sub (a b : Z) : Z := wrap64 (a - b).
(** [x++] *)
Definition incr (a : Z) : Z := int_add a 1.
(** [a / b] on ints, for [b] other than 0 and -1: truncated division. *)
Definition int_quot (a b : Z) : Z := Z.quot a b.

(** ** Outcomes: a call returns or panics *)

(** [Unfinished] is the result of a loop of the embedding that was given too
    few turns; no run of the program ends so, and the termination lemmas
    show that the embedding never produces it. *)
Inductive outcome (A : Type) : Type :=
  | Returned (a : A)
  | Panicked
  | Unfinished.
Arguments Returned {A} a.
Arguments Panicked {A}.
Arguments Unfinished {A}.

Definition obind {A B} (f : A → outcome B) (x : outcome A) : outcome B :=
  match x with
  | Returned a => f a
  | Panicked => Panicked
  | Unfinished => Unfinished
  end.

#[global] Instance outcome_ret : MRet outcome := @Returned.
#[global] Instance outcome_bind : MBind outcome := @obind.

(** A [for] loop over the elements of a list whose body may panic. *)
Fixpoint foldM {A S} (body : S → A → outcome S) (s : S) (l : list A) : outcome S :=
  match l with
  | [] => Returned s
  | x :: l' => s' ← body s x; foldM body s' l'
  end.

(** ** Slices *)

Definition len {A} (l : list A) : Z := Z.of_nat (length l).

(** [l[i]] *)
Definition index {A} (l : list A) (i : Z) : outcome A :=
  if bool_decide (0 ≤ i < len l)
  then match l !! Z.to_nat i with Some x => Returned x | None => Panicked end
  else Panicked.

(** [l[lo:hi]] for a slice whose capacity is its length. *)
Definition slice {A} (l : list A) (lo hi : Z) : outcome (list A) :=
  if bool_decide (0 ≤ lo ∧ lo ≤ hi ∧ hi ≤ len l)
  then Returned (take (Z.to_nat (hi - lo)) (drop (Z.to_nat lo) l))
  else Panicked.

(** A slice with spare capacity: [arr] is the backing array from the
    slice's first element up to its capacity, [n] the slice's length. *)
Record Slice (A : Type) : Type := mkSlice { arr : list A; n : Z }.
Arguments mkSlice {A} arr n.
Arguments arr {A} s.
Arguments n {A} s.

Definition cap {A} (s : Slice A) : Z := len (arr s).

(** [s[i]]: bounds are checked against the length. *)
Definition at_ {A} (s : Slice A) (i : Z) : outcome A :=
  if bool_decide (0 ≤ i < n s)
  then match arr s !! Z.to_nat i with Some x => Returned x | None => Panicked end
  else Panicked.

(** [s[lo:hi]]: bounds are checked against the capacity. The result shares
    the backing array; [reslice] gives its elements, and [lo] says where it
    starts in the array of [s]. *)
Definition reslice {A} (s : Slice A) (lo hi : Z) : outcome (list A) :=
  if bool_decide (0 ≤ lo ∧ lo ≤ hi ∧ hi ≤ cap s)
  then Returned (take (Z.to_nat (hi - lo)) (drop (Z.to_nat lo) (arr s)))
  else Panicked.

(** Writes [xs] into the array from position [pos] on, as far as the array
    reaches. *)
Fixpoint overwrite {A} (l : list A) (pos : nat) (xs : list A) : list A :=
  match xs with
  | [] => l
  | x :: xs' => overwrite (<[pos := x]> l) (S pos) xs'
  end.

(** [append(s[lo:hi], xs...)]: when the capacity left after [hi] holds [xs]
    the elements are written in place, over [s]'s own elements from [hi] on;
    otherwise a fresh array is allocated and [s] is untouched. The pair is
    [s] afterwards and the elements of the appended slice. *)
Definition append_to_reslice {A} (s : Slice A) (lo hi : Z) (xs : list A)
  : outcome (Slice A * list A) :=
  head ← reslice s lo hi;
  if bool_decide (hi + len xs ≤ cap s)
  then Returned (mkSlice (overwrite (arr s) (Z.to_nat hi) xs) (n s), head ++ xs)
  else Returned (s, head ++ xs).

(** ** Maps *)

(** The order in which one [range] statement visits a map's entries. *)
Definition order (A : Type) : Type := list (string * A) → list (string * A).

Definition valid_order {A} (o : order A) : Prop := ∀ l, o l ≡ₚ l.

Definition range {A} (o : order A) (m : gmap string A) : list (string * A) :=
  o (map_to_list m).

(** [m[k]] on a map of ints: the zero value when [k] is absent. *)
Definition get (m : gmap string Z) (k : string) : Z := default 0 (m !! k).

(** [m[k]++] *)
Definition bump (m : gmap string Z) (k : string) : gmap string Z :=
  <[k := incr (get m k)]> m.

(** ** Floats *)

(** [float64(i)] for an int [i]: the nearest binary64. *)
Definition float64 (i : Z) : float :=
  if i <? 0 then
    if i =? MinInt then (-0x1p63)%float
    else (- PrimFloat.of_uint63 (Uint63.of_Z (- i)))%float
  else PrimFloat.of_uint63 (Uint63.of_Z i).

Definition MaxFloat64 : float := 0x1.fffffffffffffp1023%float.

(** ** Strings *)

(** [strings.Join] *)
Definition Join (elems : list string) (sep : string) : string :=
  String.concat sep elems.

(** [strings.HasPrefix] and [strings.TrimPrefix] *)
Definition TrimPrefix (s p : string) : string :=
  if String.prefix p s then String.substring (String.length p) (String.length s - String.length p) s
  else s.

Definition HasSuffix (s p : string) : bool :=
  (String.length p <=? String.length s)%nat &&
  String.eqb (String.substring (String.length s - String.length p) (String.length p) s) p.

Definition TrimSuffix (s p : string) : string :=
  if HasSuffix s p then String.substring 0 (String.length s - String.length p) s else s.

(** [strings.Split(s, sep)] for a one-byte separator. *)
Fixpoint Split_go (sep : Ascii.ascii) (cur : string) (s : string) : list string :=
  match s with
  | EmptyString => [String.rev cur]
  | String c s' =>
      if Ascii.eqb c sep then String.rev cur :: Split_go sep EmptyString s'
      else Split_go sep (String c cur) s'
  end.

Definition Split (s : string) (sep : Ascii.ascii) : list string := Split_go sep EmptyString s.

(** [sort.Strings]: ascending byte-wise order. The order is total and
    antisymmetric, so the sorted slice does not depend on the algorithm. *)
Definition string_le (a b : string) : Prop := String.leb a b = true.
#[global] Instance string_le_dec : RelDecision string_le.
Proof. intros a b. unfold string_le. apply _. Defined.

Definition sort_Strings (l : list string) : list string := merge_sort string_le l.

(** ** The standard library the code calls *)

Definition rune : Type := Z.

(** A comparison given to [sort.Slice] must be a strict weak order. *)
Definition strict_weak_order {A} (less : A → A → bool) : Prop :=
  (∀ a, less a a = false) ∧
  (∀ a b c, less a b = true → less b c = true → less a c = true) ∧
  (∀ a b c, less a b = false → less b c = false → less a c = false).

Class GoLib : Type := {
  (** [[]rune(s)], [string(r)] and [string(runes)]: UTF-8 *)
  runes : string → list rune;
  string_of_rune : rune → string;
  (** package [unicode] *)
  unicode_IsSpace : rune → bool;
  unicode_IsLetter : rune → bool;
  unicode_IsNumber : rune → bool;
  unicode_ToUpper : rune → rune;
  (** package [strings] *)
  strings_ToLower : string → string;
  strings_TrimSpace : string → string;
  strings_ReplaceAll : string → string → string → string;
  (** package [regexp]: a compiled expression is carried as its source *)
  regexp_MatchString : string → string → bool;
  regexp_FindAllString : string → string → list string;
  regexp_ReplaceAllString : string → string → string → string;
  (** [math.Log2] *)
  math_Log2 : float → float;
  (** [rand.Seed(seed)] followed by [rand.Float64()] *)
  rand_seeded_Float64 : Z → float;
  (** [sort.Slice]: the slice sorted by [less] *)
  sort_Slice : ∀ {A}, (A → A → bool) → list A → list A;
  (** the capacity of a [[]string] grown from nil to a given length by
      appending one element at a time *)
  append_cap : Z → Z;
}.

(** What the documentation of [sort.Slice] promises: it leaves a
    permutation of the slice in which no element is less than an earlier
    one. The order of elements that [less] does not separate is
    unspecified. *)
Class GoLibLaws (L : GoLib) : Prop := {
  sort_Slice_perm : ∀ A (less : A → A → bool) l, sort_Slice less l ≡ₚ l;
  sort_Slice_sorted : ∀ A (less : A → A → bool) l,
    strict_weak_order less →
    StronglySorted (λ a b, less b a = false) (sort_Slice less l);
}.

End Go.

(* ===================================================================== *)
(** * Package tokenizer *)
(* ===================================================================== *)

Module Tokenizer.
Import Go.

Record Tokenizer : Type := {
  punctuationRegex : string;
  wordRegex : string;
  keepPunctuation : bool;
}.

Record Config : Type := {
  KeepPunctuation : bool;
  ToLowerCase : bool;
}.

Definition double_quote : string := String (Ascii.ascii_of_nat 34) EmptyString.

Definition punctuationPattern : string :=
  "[.!?,;:'" +:+ double_quote +:+ "()\[\]{}…–—]".
Definition wordPattern : string := "[\p{L}\p{N}-]+".

Definition NewTokenizer (config : Config) : Tokenizer :=
  {| keepPunctuation := KeepPunctuation config;
     punctuationRegex := punctuationPattern;
     wordRegex := wordPattern |}.

(** [addSpecialTokens] *)
Definition addSpecialTokens (tokens : list string) : list string :=
  if len tokens =? 0 then ["<start>"; "<end>"]
  else ["<start>"] ++ tokens ++ ["<end>"].

(** The longest prefix of [l] whose elements satisfy [p], and the rest. *)
Fixpoint span {A} (p : A → bool) (l : list A) : list A * list A :=
  match l with
  | [] => ([], [])
  | x :: l' => if p x then let '(a, b) := span p l' in (x :: a, b) else ([], l)
  end.

Section with_lib.
Context `{!GoLib}.

(** [string(runes)] *)
Definition string_of_runes (rs : list rune) : string :=
  String.concat "" (string_of_rune <$> rs).

(** [isPunctuation] *)
Definition isPunctuation (t : Tokenizer) (r : rune) : bool :=
  regexp_MatchString (punctuationRegex t) (string_of_rune r).

Definition isWordRune (r : rune) : bool :=
  unicode_IsLetter r || unicode_IsNumber r || (r =? 45).

(** The loop of [tokenizeWithPunctuation]: [rs] are the runes from index
    [i] on. Every turn drops at least one rune, so [length rs] turns are
    enough. *)
Fixpoint tokenizeWithPunctuation_loop (fuel : nat) (t : Tokenizer)
    (rs : list rune) (tokens : list string) : list string :=
  match fuel, rs with
  | O, _ | _, [] => tokens
  | S fuel', r :: rest =>
      if unicode_IsSpace r then tokenizeWithPunctuation_loop fuel' t rest tokens
      else if isPunctuation t r then
        tokenizeWithPunctuation_loop fuel' t rest (tokens ++ [string_of_rune r])
      else if isWordRune r then
        let '(w, rest') := span isWordRune rest in
        let word := string_of_runes (r :: w) in
        tokenizeWithPunctuation_loop fuel' t rest'
          (if negb (String.eqb word "start") && negb (String.eqb word "end")
           then tokens ++ [word] else tokens)
      else tokenizeWithPunctuation_loop fuel' t rest tokens
  end.

Definition tokenizeWithPunctuation (t : Tokenizer) (text : string) : list string :=
  let rs := runes text in
  tokenizeWithPunctuation_loop (length rs) t rs [].

(** [tokenizeWordsOnly] *)
Definition tokenizeWordsOnly (t : Tokenizer) (text : string) : list string :=
  let matches := regexp_FindAllString (wordRegex t) text in
  filter (λ m, m ≠ "" ∧ m ≠ "-") matches.

(** [Tokenize] *)
Definition Tokenize (t : Tokenizer) (text : string) : list string :=
  let text := strings_ToLower text in
  let tokens :=
    if keepPunctuation t then tokenizeWithPunctuation t text
    else tokenizeWordsOnly t text in
  addSpecialTokens tokens.

(** [isPunctuationToken]: [token[0]] is the first byte, and [string(b)] of
    a byte is the UTF-8 text of the rune with that number. *)
Definition isPunctuationToken (t : Tokenizer) (token : string) : bool :=
  match token with
  | EmptyString => false
  | String b _ =>
      if String.eqb token "<start>" || String.eqb token "<end>" then false
      else regexp_MatchString (punctuationRegex t)
             (string_of_rune (Z.of_N (Ascii.N_of_ascii b)))
  end.

(** [JoinTokens]; [first] says that the index is 0. *)
Fixpoint JoinTokens_from (first : bool) (t : Tokenizer) (tokens : list string) : string :=
  match tokens with
  | [] => ""
  | token :: rest =>
      (if negb first && negb (isPunctuationToken t token) then " " else "")
      +:+ token +:+ JoinTokens_from false t rest
  end.

Definition JoinTokens (t : Tokenizer) (tokens : list string) : string :=
  JoinTokens_from true t tokens.

(** [TokenizeSentences] *)
Definition TokenizeSentences (t : Tokenizer) (sentences : list string) : list (list string) :=
  foldl (λ tokenizedSentences sentence,
           if String.eqb (strings_TrimSpace sentence) "" then tokenizedSentences
           else
             let tokens := Tokenize t sentence in
             if 0 <? len tokens then tokenizedSentences ++ [tokens]
             else tokenizedSentences)
        [] sentences.

End with_lib.

(** [Vocabulary] *)
Definition Vocabulary (t : Tokenizer) (tokenizedSentences : list (list string))
  : gmap string Z :=
  foldl (λ vocab sentence, foldl bump vocab sentence) ∅ tokenizedSentences.

(** The body of [FilterByFrequency]'s loop. *)
Definition keepFrequent (minFrequency : Z) (filtered : gmap string Z) (e : string * Z)
  : gmap string Z :=
  if minFrequency <=? e.2 then <[e.1 := e.2]> filtered else filtered.

(** [FilterByFrequency]. Every key of [vocab] is written at most once, and
    to its own entry: the visiting order of the range does not matter. *)
Definition FilterByFrequency (t : Tokenizer) (vocab : gmap string Z) (minFrequency : Z)
  : gmap string Z :=
  foldl (keepFrequent minFrequency) ∅ (map_to_list vocab).

End Tokenizer.

(* ===================================================================== *)
(** * Package trainer *)
(* ===================================================================== *)

Module Trainer.
Import Go.

(** [MarkovChain]. The four maps that are written to are allocated, as
    [NewMarkovTrainer] makes them and as [Load] reads them from a file that
    has them: a write to a map of Go that was never allocated panics, and
    that case is not part of this model. An inner map of [Chain] that is
    missing reads as the empty one, as in Go. *)
Record MarkovChain : Type := {
  Order : Z;
  Chain : gmap string (gmap string Z);
  Sums : gmap string Z;
  Index : gmap string (list string);
  Vocab : gmap string Z;
  Topics : gmap string (list string);
}.

Module TrainConfig.
Record t : Type := {
  Order : Z;
  MinFrequency : Z;
  SaveModel : bool;
  ModelPath : string;
}.
End TrainConfig.

(** The errors [Train] returns. *)
Inductive error : Type := errorf (msg : string).

(** [NewMarkovTrainer] *)
Definition NewMarkovTrainer (config : TrainConfig.t) : MarkovChain :=
  {| Order := TrainConfig.Order config;
     Chain := ∅; Sums := ∅; Index := ∅; Vocab := ∅; Topics := ∅ |}.

(** [joinTokens]: [fmt.Sprintf("%v", tokens)] prints the elements between
    square brackets, separated by one space. *)
Definition joinTokens (tokens : list string) : string :=
  "[" +:+ Join tokens " " +:+ "]".

(** [isPunctuation] *)
Definition isPunctuation (token : string) : bool :=
  if Z.of_nat (String.length token) =? 0 then false
  else existsb (λ p, String.eqb p token) [","; "."; "!"; "?"; ";"; ":"].

(** [joinSentence]; [first] says that the index is 0. *)
Fixpoint joinSentence_from (first : bool) (result : string) (tokens : list string) : string :=
  match tokens with
  | [] => result
  | token :: rest =>
      let result := if negb first && negb (isPunctuation token) then result +:+ " " else result in
      joinSentence_from false (result +:+ token) rest
  end.

Definition joinSentence (tokens : list string) : string :=
  joinSentence_from true "" tokens.

(** The inner loop of [buildIndexAndVocab]'s first pass: one sentence. *)
Definition indexToken (originalSentence : string)
    (st : gmap string Z * gmap string (list string)) (token : string)
  : gmap string Z * gmap string (list string) :=
  let '(vocab, index) := st in
  if String.eqb token "<start>" || String.eqb token "<end>" then st
  else (bump vocab token,
        <[token := default [] (index !! token) ++ [originalSentence]]> index).

Definition indexSentence (st : gmap string Z * gmap string (list string))
    (sentence : list string) : gmap string Z * gmap string (list string) :=
  let originalSentence := joinSentence sentence in
  foldl (indexToken originalSentence) st sentence.

(** The second pass, for one word: the sentences not seen before, in order. *)
Fixpoint uniqueSentences (unique : gset string) (sentences : list string) : list string :=
  match sentences with
  | [] => []
  | s :: rest =>
      if decide (s ∈ unique) then uniqueSentences unique rest
      else s :: uniqueSentences ({[s]} ∪ unique) rest
  end.

(** [buildIndexAndVocab]. The second pass replaces the value of every key
    of [Index] independently of the others: the visiting order of the range
    does not matter. *)
Definition buildIndexAndVocab (mc : MarkovChain) (sentences : list (list string)) : MarkovChain :=
  let '(vocab, index) := foldl indexSentence (Vocab mc, Index mc) sentences in
  {| Order := Order mc; Chain := Chain mc; Sums := Sums mc;
     Index := uniqueSentences ∅ <$> index;
     Vocab := vocab; Topics := Topics mc |}.

(** [mc.Chain[prefix][suffix]++], creating the inner map when it is nil. *)
Definition addTransition (chain : gmap string (gmap string Z)) (prefix suffix : string)
  : gmap string (gmap string Z) :=
  <[prefix := bump (default ∅ (chain !! prefix)) suffix]> chain.

(** The body of [processSentence]'s loop at index [i]. *)
Definition processWindow (order : Z) (sentence : list string)
    (chain : gmap string (gmap string Z)) (i : Z) : outcome (gmap string (gmap string Z)) :=
  prefixTokens ← slice sentence i (int_sub (int_add i order) 1);
  suffix ← index sentence (int_sub (int_add i order) 1);
  mret (addTransition chain (joinTokens prefixTokens) suffix).

(** [processSentence]: [i] runs from 0 to [len(sentence)-mc.Order]. *)
Definition processSentence (mc : MarkovChain) (sentence : list string) : outcome MarkovChain :=
  if len sentence <? Order mc then mret mc
  else
    chain ← foldM (processWindow (Order mc) sentence) (Chain mc)
                  (seqZ 0 (int_sub (len sentence) (Order mc) + 1));
    mret {| Order := Order mc; Chain := chain; Sums := Sums mc;
            Index := Index mc; Vocab := Vocab mc; Topics := Topics mc |}.

(** The inner loop of [calculateSums]: ints add commutatively, also when
    they wrap, so the visiting order does not matter. *)
Definition sumCounts (suffixes : gmap string Z) : Z :=
  foldl (λ sum e, int_add sum e.2) 0 (map_to_list suffixes).

(** [calculateSums]: [mc.Sums[prefix] = sum] for every prefix of [Chain];
    the other keys of [Sums] stay. *)
Definition calculateSums (mc : MarkovChain) : MarkovChain :=
  {| Order := Order mc; Chain := Chain mc;
     Sums := (sumCounts <$> Chain mc) ∪ Sums mc;
     Index := Index mc; Vocab := Vocab mc; Topics := Topics mc |}.

(** [Train]: the model afterwards and the error returned, or a panic. *)
Definition Train (mc : MarkovChain) (tokenizedSentences : list (list string))
  : outcome (MarkovChain * option error) :=
  if len tokenizedSentences =? 0 then mret (mc, Some (errorf "no data to train on"))
  else
    let mc := buildIndexAndVocab mc tokenizedSentences in
    mc ← foldM processSentence mc tokenizedSentences;
    let mc := calculateSums mc in
    mret (mc, None).

(** [GetNextTokens] over a number type [F] with a conversion from ints and
    a division: [None] is the nil map. Every successor is given its own
    quotient, whatever the visiting order. *)
Definition GetNextTokens_in {F} (of_int : Z → F) (div : F → F → F)
    (mc : MarkovChain) (prefix : list string) : option (gmap string F) :=
  let prefixKey := joinTokens prefix in
  match Chain mc !! prefixKey with
  | None => None
  | Some suffixes =>
      let total := of_int (get (Sums mc) prefixKey) in
      Some ((λ count, div (of_int count) total) <$> suffixes)
  end.

(** [GetNextTokens], in float64 as the code has it. *)
Definition GetNextTokens : MarkovChain → list string → option (gmap string float) :=
  GetNextTokens_in float64 PrimFloat.div.

(** The same computation in exact rational arithmetic. *)
Definition GetNextTokens_exact : MarkovChain → list string → option (gmap string Qc) :=
  GetNextTokens_in Qc_of_Z Qcdiv.

(** The entries of the map [GetStats] returns, one field for each key. *)
Module Stats.
Record t : Type := {
  order : Z;
  prefixes : Z;
  vocabulary_size : Z;
  index_size : Z;
  total_transitions : Z;
  avg_transitions_per_prefix : float;
}.
End Stats.

(** [GetStats]; the sum of ints does not depend on the visiting order. *)
Definition GetStats (mc : MarkovChain) : Stats.t :=
  let totalTransitions :=
    foldl (λ totalTransitions e, int_add totalTransitions e.2) 0 (map_to_list (Sums mc)) in
  {| Stats.order := Order mc;
     Stats.prefixes := Z.of_nat (size (Chain mc));
     Stats.vocabulary_size := Z.of_nat (size (Vocab mc));
     Stats.index_size := Z.of_nat (size (Index mc));
     Stats.total_transitions := totalTransitions;
     Stats.avg_transitions_per_prefix :=
       (float64 totalTransitions / float64 (Z.of_nat (size (Chain mc))))%float |}.

Record scoredSentence : Type := {
  sentence : string;
  score : Z;
}.

(** The two nested loops that fill [sentenceScores]. *)
Definition scoreKeyword (index : gmap string (list string))
    (sentenceScores : gmap string Z) (keyword : string) : gmap string Z :=
  match index !! keyword with
  | Some sentences => foldl bump sentenceScores sentences
  | None => sentenceScores
  end.

(** The last loop of [Search]: [i] is the index of the head of [scored]. *)
Fixpoint collectResults (i limit : Z) (scored : list scoredSentence) : list string :=
  match scored with
  | [] => []
  | ss :: rest =>
      if limit <=? i then [] else sentence ss :: collectResults (i + 1) limit rest
  end.

Section with_lib.
Context `{!GoLib}.

(** [Search]: [ord] is the order in which the range over [sentenceScores]
    fills [scored]. *)
Definition Search (ord : order Z) (mc : MarkovChain) (keywords : list string) (limit : Z)
  : list string :=
  let sentenceScores := foldl (scoreKeyword (Index mc)) ∅ keywords in
  let scored := (λ e, {| sentence := e.1; score := e.2 |}) <$> range ord sentenceScores in
  let scored := sort_Slice (λ a b, score a >? score b) scored in
  collectResults 0 limit scored.

End with_lib.
End Trainer.

(* ===================================================================== *)
(** * Package generator *)
(* ===================================================================== *)

Module Generator.
Import Go Trainer.

Record AnswerGenerator : Type := {
  chain : MarkovChain;
  tokenizer : Tokenizer.Tokenizer;
  maxLength : Z;
  tokenEntropy : gmap string float;
  minEntropy : float;
  maxEntropy : float;
}.

Record Config : Type := {
  MaxLength : Z;
  UsePunctuation : bool;
  MaxThematicEntropy : float;
}.

(** What one call of [selectThematicToken] takes from outside the program:
    the visiting orders of its three order-sensitive ranges and the clock
    reading that seeds the random source. *)
Record Draw : Type := {
  totalOrder : order float;
  scanOrder : order float;
  maxOrder : order float;
  now : Z;
}.

(** The visiting orders of the ranges of [analyzeEntropy]: over
    [tokenContexts], and over the contexts of each token. *)
Record EntropyOrders : Type := {
  tokensOrder : order (gmap string Z);
  contextsOrder : string → order Z;
}.

(** What one call of [GenerateAnswer] takes from outside the program. *)
Record World : Type := {
  searchOrder : order Z;
  draws : nat → Draw;
}.

Definition clarificationMessage : string := "Пожалуйста, задайте вопрос.".
Definition notFoundMessage : string :=
  "К сожалению, я не нашел информации по вашему вопросу в изученном материале.".

Definition stopWords : list string :=
  [ "что"; "как"; "зачем"; "почему";
    "где"; "когда"; "какой"; "какая";
    "какое"; "какие"; "объясни"; "расскажи";
    "пожалуйста"; "мог"; "бы"; "ли";
    "<start>"; "<end>" ].

(** [isPunctuation] *)
Definition isPunctuation (token : string) : bool :=
  if Z.of_nat (String.length token) =? 0 then false
  else existsb (λ p, String.eqb p token) [","; "."; "!"; "?"; ";"; ":"].

(** [createContextKey] *)
Definition createContextKey (tokens : list string) : string :=
  Join (sort_Strings tokens) "|".

(** [addTokenContext] *)
Definition addTokenContext (token : string) (context : list string)
    (tokenContexts : gmap string (gmap string Z)) : gmap string (gmap string Z) :=
  let contextKey := createContextKey context in
  <[token := bump (default ∅ (tokenContexts !! token)) contextKey]> tokenContexts.

(** [isThematicToken] *)
Definition isThematicToken (g : AnswerGenerator) (token : string) : bool :=
  match tokenEntropy g !! token with
  | None => false
  | Some entropy => (entropy <? 2.0)%float
  end.

(** [getThematicKeywords] *)
Definition getThematicKeywords (g : AnswerGenerator) (keywords : list string) : list string :=
  filter (λ keyword, isThematicToken g keyword = true) keywords.

(** The loops of [findBestSentence] over the tokens and the keywords: the
    number of tokens that equal some keyword. *)
Definition matchScore (tokens keywords : list string) : Z :=
  foldl (λ score token, if existsb (String.eqb token) keywords then incr score else score)
        0 tokens.

(** The loops of [findThematicStartPosition] over a segment. *)
Definition segmentScore (g : AnswerGenerator) (segment keywords : list string) : float :=
  foldl (λ score token,
           if existsb (String.eqb token) keywords then
             match tokenEntropy g !! token with
             | Some entropy => (score + 1.0 / (entropy + 0x1.999999999999ap-4))%float
             | None => (score + 0.5)%float
             end
           else score)
        0%float segment.

(** The body of [findThematicStartPosition]'s loop at index [i]. *)
Definition startPositionStep (g : AnswerGenerator) (tokens keywords : list string)
    (best : Z * float) (i : Z) : outcome (Z * float) :=
  let '(bestPos, bestScore) := best in
  let end_ := Z.min (int_sub (int_add i (Order (chain g))) 1) (len tokens) in
  segment ← slice tokens i end_;
  let prefixKey := joinTokens segment in
  match Chain (chain g) !! prefixKey with
  | None => mret best
  | Some _ =>
      let score := segmentScore g segment keywords in
      if (bestScore <? score)%float then mret (i, score) else mret best
  end.

(** [findThematicStartPosition] *)
Definition findThematicStartPosition (g : AnswerGenerator) (tokens keywords : list string)
  : outcome Z :=
  best ← foldM (startPositionStep g tokens keywords) (0, (-1.0)%float)
               (seqZ 0 (int_add (int_sub (len tokens) (Order (chain g))) 1 + 1));
  mret best.1.

(** The weight [selectThematicToken] gives a candidate. *)
Definition thematicWeight (g : AnswerGenerator) (keywords : list string)
    (token : string) (prob : float) : float :=
  if existsb (String.eqb token) keywords then
    match tokenEntropy g !! token with
    | Some entropy =>
        if (entropy <? 2.0)%float then (prob * (3.0 - entropy))%float
        else (prob * 1.5)%float
    | None => (prob * 1.5)%float
    end
  else prob.

(** The first loop of [selectNextToken]. *)
Fixpoint scanCumulative (r cumulative : float) (l : list (string * float)) : option string :=
  match l with
  | [] => None
  | (token, prob) :: rest =>
      let cumulative := (cumulative + prob)%float in
      if (r <=? cumulative)%float then Some token
      else scanCumulative r cumulative rest
  end.

(** The second loop of [selectNextToken]. *)
Definition maxCandidate (l : list (string * float)) : string :=
  (foldl (λ (best : string * float) e,
            if (best.2 <? e.2)%float then e else best) ("", 0%float) l).1.

Section with_lib.
Context `{!GoLib}.

(** [parsePrefix] *)
Definition parsePrefix (prefix : string) : list string :=
  let cleaned := TrimPrefix prefix "[" in
  let cleaned := TrimSuffix cleaned "]" in
  if String.eqb cleaned "" then []
  else
    let tokens := Split cleaned " "%char in
    filter (λ cleanToken, cleanToken ≠ "") (strings_TrimSpace <$> tokens).

(** The body of [analyzeEntropy]'s first loop, for one entry of the chain. *)
Definition observeEntry (tokenContexts : gmap string (gmap string Z))
    (entry : string * gmap string Z) : gmap string (gmap string Z) :=
  let prefixTokens := parsePrefix entry.1 in
  let tokenContexts :=
    foldl (λ tc token, addTokenContext token prefixTokens tc) tokenContexts prefixTokens in
  foldl (λ tc suffix, addTokenContext suffix.1 prefixTokens tc) tokenContexts
        (map_to_list entry.2).

(** The histogram [analyzeEntropy] builds: [tokenContexts]. Every update is
    an increment of an int, so the visiting orders do not matter. *)
Definition tokenContextsOf (chain : gmap string (gmap string Z))
  : gmap string (gmap string Z) :=
  foldl observeEntry ∅ (map_to_list chain).

(** [calculateEntropy]; [ord] is the order of the second range. *)
Definition calculateEntropy (ord : order Z) (contexts : gmap string Z) : float :=
  let total := foldl (λ total e, int_add total e.2) 0 (map_to_list contexts) in
  if total =? 0 then MaxFloat64
  else
    foldl (λ entropy e,
             let probability := (float64 e.2 / float64 total)%float in
             (entropy - probability * math_Log2 probability)%float)
          0%float (range ord contexts).

(** The body of [analyzeEntropy]'s second loop. *)
Definition recordEntropy (eo : EntropyOrders) (g : AnswerGenerator)
    (e : string * gmap string Z) : AnswerGenerator :=
  let entropy := calculateEntropy (contextsOrder eo e.1) e.2 in
  {| chain := chain g; tokenizer := tokenizer g; maxLength := maxLength g;
     tokenEntropy := <[e.1 := entropy]> (tokenEntropy g);
     minEntropy := if (entropy <? minEntropy g)%float then entropy else minEntropy g;
     maxEntropy := if (maxEntropy g <? entropy)%float then entropy else maxEntropy g |}.

(** [analyzeEntropy] *)
Definition analyzeEntropy (eo : EntropyOrders) (g : AnswerGenerator) : AnswerGenerator :=
  let tokenContexts := tokenContextsOf (Chain (chain g)) in
  foldl (recordEntropy eo) g (range (tokensOrder eo) tokenContexts).

(** [NewAnswerGenerator] *)
Definition NewAnswerGenerator (eo : EntropyOrders) (chain : MarkovChain) (config : Config)
  : AnswerGenerator :=
  let tokenizerConfig :=
    {| Tokenizer.KeepPunctuation := UsePunctuation config;
       Tokenizer.ToLowerCase := true |} in
  analyzeEntropy eo
    {| chain := chain;
       tokenizer := Tokenizer.NewTokenizer tokenizerConfig;
       maxLength := MaxLength config;
       tokenEntropy := ∅;
       minEntropy := MaxFloat64;
       maxEntropy := (- MaxFloat64)%float |}.

(** [extractKeywords] *)
Definition extractKeywords (g : AnswerGenerator) (question : string) : list string :=
  let tokens := Tokenizer.Tokenize (tokenizer g) question in
  filter (λ token,
            negb (existsb (String.eqb token) stopWords)
            && (1 <? Z.of_nat (String.length token))
            && negb (isPunctuation token) = true)
         tokens.

(** [findBestSentence] *)
Definition findBestSentence (g : AnswerGenerator) (sentences keywords : list string) : string :=
  match sentences with
  | [] => ""
  | first :: _ =>
      (foldl (λ (best : Z * string) sentence,
                let tokens := Tokenizer.Tokenize (tokenizer g) sentence in
                let score := matchScore tokens keywords in
                if best.1 <? score then (score, sentence) else best)
             (-1, first) sentences).2
  end.

(** [selectNextToken] *)
Definition selectNextToken (d : Draw) (probabilities : gmap string float) : string :=
  let r := rand_seeded_Float64 (now d) in
  match scanCumulative r 0%float (range (scanOrder d) probabilities) with
  | Some token => token
  | None => maxCandidate (range (maxOrder d) probabilities)
  end.

(** [selectThematicToken] *)
Definition selectThematicToken (g : AnswerGenerator) (d : Draw)
    (probabilities : gmap string float) (keywords : list string) : string :=
  let weightedProbabilities := map_imap (λ token prob, Some (thematicWeight g keywords token prob))
                                        probabilities in
  let totalWeight :=
    foldl (λ total e, (total + thematicWeight g keywords e.1 e.2)%float) 0%float
          (range (totalOrder d) probabilities) in
  let weightedProbabilities :=
    if (0 <? totalWeight)%float
    then (λ w, (w / totalWeight)%float) <$> weightedProbabilities
    else weightedProbabilities in
  selectNextToken d weightedProbabilities.

(** The state of [generateThematicContinuation]'s loop. [tokens] is kept
    in it because the append that builds the context can write into it. *)
Record Continuation : Type := {
  tokens : Slice string;
  result : list string;
  currentPos : Z;
  attempts : Z;
}.

Definition maxAttempts : Z := 10.

(** How a turn of the loop ends. *)
Inductive turn : Type :=
  | Continue (st : Continuation)
  | Break (st : Continuation).

(** [currentPrefix], and [tokens] after it was built. *)
Definition currentPrefixOf (g : AnswerGenerator) (st : Continuation)
  : outcome (Slice string * list string) :=
  let order := Order (chain g) in
  if int_sub order 1 <=? len (result st) then
    currentPrefix ← slice (result st) (int_add (int_sub (len (result st)) order) 1)
                          (len (result st));
    mret (tokens st, currentPrefix)
  else
    let needed := int_sub (int_sub order 1) (len (result st)) in
    let startIdx := Z.max 0 (int_sub (currentPos st) needed) in
    append_to_reslice (tokens st) startIdx (currentPos st) (result st).

(** The branch of the loop body taken when the chain has no successor. *)
Definition stall (tokens : Slice string) (st : Continuation) : outcome turn :=
  if currentPos st <? n tokens then
    token ← at_ tokens (currentPos st);
    mret (Continue {| tokens := tokens; result := result st ++ [token];
                      currentPos := int_add (currentPos st) 1;
                      attempts := int_add (attempts st) 1 |})
  else
    mret (Continue {| tokens := tokens; result := result st;
                      currentPos := currentPos st;
                      attempts := int_add (attempts st) 1 |}).

(** The body of the loop. *)
Definition continuationTurn (g : AnswerGenerator) (keywords : list string) (d : Draw)
    (st : Continuation) : outcome turn :=
  '(tokens, currentPrefix) ← currentPrefixOf g st;
  match GetNextTokens (chain g) currentPrefix with
  | Some nextTokens =>
      if 0 <? Z.of_nat (size nextTokens) then
        let nextToken := selectThematicToken g d nextTokens keywords in
        if String.eqb nextToken "<end>" then
          mret (Break {| tokens := tokens; result := result st;
                         currentPos := currentPos st; attempts := attempts st |})
        else
          mret (Continue {| tokens := tokens; result := result st ++ [nextToken];
                            currentPos := currentPos st; attempts := 0 |})
      else stall tokens st
  | None => stall tokens st
  end.

(** The loop; turn [k] takes the draw [draws k]. *)
Fixpoint continuationLoop (fuel : nat) (g : AnswerGenerator) (keywords : list string)
    (draws : nat → Draw) (k : nat) (st : Continuation) : outcome Continuation :=
  if (len (result st) <? maxLength g) && (currentPos st <? n (tokens st))
     && (attempts st <? maxAttempts)
  then
    match fuel with
    | O => Unfinished
    | S fuel' =>
        t ← continuationTurn g keywords (draws k) st;
        match t with
        | Break st' => mret st'
        | Continue st' => continuationLoop fuel' g keywords draws (S k) st'
        end
    end
  else mret st.

(** The tokens [generateThematicContinuation] joins into its result. Every
    turn of the loop that does not leave it appends one token, so the loop
    takes at most [maxLength - len(result)] turns. *)
Definition continuationTokens (g : AnswerGenerator) (source : Slice string) (startPos : Z)
    (keywords : list string) (draws : nat → Draw) : outcome (list string) :=
  copied ← (if 0 <? startPos then reslice source 0 startPos else mret []);
  st ← continuationLoop (Z.to_nat (maxLength g - len copied)) g keywords draws 0
         {| tokens := source; result := copied; currentPos := startPos; attempts := 0 |};
  if (len (result st) <? int_quot (maxLength g) 2) && (currentPos st <? n (tokens st))
  then
    let remaining := Z.min (int_sub (maxLength g) (len (result st)))
                           (int_sub (n (tokens st)) (currentPos st)) in
    rest ← reslice (tokens st) (currentPos st) (int_add (currentPos st) remaining);
    mret (result st ++ rest)
  else mret (result st).

(** [generateThematicContinuation] *)
Definition generateThematicContinuation (g : AnswerGenerator) (source : Slice string)
    (startPos : Z) (keywords : list string) (draws : nat → Draw) : outcome string :=
  joined ← continuationTokens g source startPos keywords draws;
  mret (Tokenizer.JoinTokens (tokenizer g) joined).

(** [cleanTokens] as [generateFromSentence] builds it: appended to from
    nil, so with the capacity the runtime grew it to, the spare part zeroed. *)
Definition grown (l : list string) : Slice string :=
  mkSlice (l ++ replicate (Z.to_nat (append_cap (len l) - len l)) "") (len l).

(** [generateFromSentence] *)
Definition generateFromSentence (g : AnswerGenerator) (sentence : string)
    (keywords : list string) (draws : nat → Draw) : outcome string :=
  let tokens := Tokenizer.Tokenize (tokenizer g) sentence in
  let cleanTokens := filter (λ token, token ≠ "<start>" ∧ token ≠ "<end>") tokens in
  if len cleanTokens =? 0 then mret sentence
  else
    startPos ← findThematicStartPosition g cleanTokens keywords;
    generateThematicContinuation g (grown cleanTokens) startPos keywords draws.

(** [formatAnswer] *)
Definition formatAnswer (answer : string) : string :=
  let answer := strings_ReplaceAll answer "<start>" "" in
  let answer := strings_ReplaceAll answer "<end>" "" in
  let answer := strings_TrimSpace answer in
  let answer := regexp_ReplaceAllString "\s+" answer " " in
  let answer := regexp_ReplaceAllString "\s*,\s*" answer ", " in
  let answer := regexp_ReplaceAllString "\s*\.\s*" answer ". " in
  let answer := strings_TrimSpace answer in
  let answer :=
    if 0 <? Z.of_nat (String.length answer) then
      match runes answer with
      | r :: rest => Tokenizer.string_of_runes (unicode_ToUpper r :: rest)
      | [] => answer
      end
    else answer in
  if (0 <? Z.of_nat (String.length answer))
     && negb (HasSuffix answer ".") && negb (HasSuffix answer "!")
     && negb (HasSuffix answer "?")
  then answer +:+ "." else answer.

(** [GenerateAnswer] *)
Definition GenerateAnswer (g : AnswerGenerator) (w : World) (question : string)
  : outcome string :=
  let keywords := extractKeywords g question in
  if len keywords =? 0 then mret clarificationMessage
  else
    let thematicKeywords := getThematicKeywords g keywords in
    let searchKeywords := if 0 <? len thematicKeywords then thematicKeywords else keywords in
    let relevantSentences := Search (searchOrder w) (chain g) searchKeywords 5 in
    if len relevantSentences =? 0 then mret notFoundMessage
    else
      let bestSentence := findBestSentence g relevantSentences searchKeywords in
      answer ← generateFromSentence g bestSentence searchKeywords (draws w);
      mret (formatAnswer answer).

End with_lib.
End Generator.

(* ===================================================================== *)
(** * The library on UTF-8 text *)
(* ===================================================================== *)

(** An instance of [GoLib] on which the examples below are run. Strings
    are read and written as UTF-8 the way Go does it: a byte that starts no
    valid encoding is read as U+FFFD, one byte wide. On text made of ASCII
    characters, of the Cyrillic letters U+0400 to U+045F and of any
    punctuation or white space, its functions return what Go's return,
    with these limits: the letters, digits and case pairs of other scripts
    are not known to it; [math_Log2] is [math.Log2] on the powers of two
    only (where Go computes it exactly, from the exponent); [sort_Slice] is
    the insertion sort Go runs on slices of at most 12 elements;
    [append_cap] is the doubling Go's runtime does up to 512 elements; the
    regular expressions understood are the five the program compiles; and
    [rand_seeded_Float64] stands in for Go's generator, which is not
    modelled. *)
Module Utf8Lib.
Import Go.

Definition bytes (s : string) : list Z :=
  (λ c, Z.of_N (N_of_ascii c)) <$> String.list_ascii_of_string s.

Definition of_bytes (bs : list Z) : string :=
  String.string_of_list_ascii ((λ b, ascii_of_N (Z.to_N b)) <$> bs).

Definition RuneError : rune := 65533.

(** A continuation byte, [10xxxxxx]. *)
Definition continuation (b : Z) : bool := bool_decide (128 ≤ b ≤ 191).

(** The second bytes package [utf8] accepts after the first byte [b0]. *)
Definition accepted (b0 b1 : Z) : bool :=
  if b0 =? 224 then bool_decide (160 ≤ b1 ≤ 191)
  else if b0 =? 237 then bool_decide (128 ≤ b1 ≤ 159)
  else if b0 =? 240 then bool_decide (144 ≤ b1 ≤ 191)
  else if b0 =? 244 then bool_decide (128 ≤ b1 ≤ 143)
  else continuation b1.

(** [utf8.DecodeRune]: the rune the bytes start with, and its width. *)
Definition DecodeRune (bs : list Z) : rune * nat :=
  match bs with
  | [] => (RuneError, 0%nat)
  | b0 :: rest =>
      if b0 <? 128 then (b0, 1%nat)
      else if bool_decide (194 ≤ b0 ≤ 223) then
        match rest with
        | b1 :: _ =>
            if accepted b0 b1 then ((b0 - 192) * 64 + (b1 - 128), 2%nat)
            else (RuneError, 1%nat)
        | _ => (RuneError, 1%nat)
        end
      else if bool_decide (224 ≤ b0 ≤ 239) then
        match rest with
        | b1 :: b2 :: _ =>
            if accepted b0 b1 && continuation b2
            then (((b0 - 224) * 64 + (b1 - 128)) * 64 + (b2 - 128), 3%nat)
            else (RuneError, 1%nat)
        | _ => (RuneError, 1%nat)
        end
      else if bool_decide (240 ≤ b0 ≤ 244) then
        match rest with
        | b1 :: b2 :: b3 :: _ =>
            if accepted b0 b1 && continuation b2 && continuation b3
            then ((((b0 - 240) * 64 + (b1 - 128)) * 64 + (b2 - 128)) * 64 + (b3 - 128),
                  4%nat)
            else (RuneError, 1%nat)
        | _ => (RuneError, 1%nat)
        end
      else (RuneError, 1%nat)
  end.

(** A string read rune by rune, as a [range] over it does: every rune
    with the bytes it was read from. *)
Fixpoint decode (fuel : nat) (bs : list Z) : list (rune * string) :=
  match fuel, bs with
  | S fuel', _ :: _ =>
      let '(r, width) := DecodeRune bs in
      (r, of_bytes (take width bs)) :: decode fuel' (drop width bs)
  | _, _ => []
  end.

Definition chars (s : string) : list (rune * string) :=
  decode (String.length s) (bytes s).

(** The text the runes of [cs] were read from. *)
Definition text (cs : list (rune * string)) : string := String.concat "" cs.*2.

(** [[]rune(s)] *)
Definition utf8_runes (s : string) : list rune := (chars s).*1.

(** [utf8.AppendRune]: a rune that is not a Unicode scalar value is
    written as U+FFFD. *)
Definition EncodeRune (r : rune) : list Z :=
  let r := if bool_decide (r < 0 ∨ 1114111 < r ∨ 55296 ≤ r ≤ 57343) then RuneError else r in
  if r <? 128 then [r]
  else if r <? 2048 then [192 + r / 64; 128 + r mod 64]
  else if r <? 65536 then [224 + r / 4096; 128 + (r / 64) mod 64; 128 + r mod 64]
  else [240 + r / 262144; 128 + (r / 4096) mod 64; 128 + (r / 64) mod 64; 128 + r mod 64].

(** [string(r)] *)
Definition rune_string (r : rune) : string := of_bytes (EncodeRune r).

(** [unicode.IsSpace]: the white space of Latin-1 and the runes of the
    property White_Space. *)
Definition IsSpace (r : rune) : bool :=
  bool_decide (r = 32 ∨ 9 ≤ r ≤ 13 ∨ r = 133 ∨ r = 160 ∨ r = 5760 ∨ 8192 ≤ r ≤ 8202
               ∨ r = 8232 ∨ r = 8233 ∨ r = 8239 ∨ r = 8287 ∨ r = 12288).
Definition IsLetter (r : rune) : bool :=
  bool_decide (65 ≤ r ≤ 90 ∨ 97 ≤ r ≤ 122 ∨ 1024 ≤ r ≤ 1119).
Definition IsNumber (r : rune) : bool :=
  bool_decide (48 ≤ r ≤ 57).
Definition ToUpper (r : rune) : rune :=
  if bool_decide (97 ≤ r ≤ 122 ∨ 1072 ≤ r ≤ 1103) then r - 32
  else if bool_decide (1104 ≤ r ≤ 1119) then r - 80
  else r.
Definition ToLower_rune (r : rune) : rune :=
  if bool_decide (65 ≤ r ≤ 90 ∨ 1040 ≤ r ≤ 1071) then r + 32
  else if bool_decide (1024 ≤ r ≤ 1039) then r + 80
  else r.

Definition of_runes (rs : list rune) : string :=
  String.concat "" (rune_string <$> rs).

(** [strings.ToLower]: every rune mapped by [unicode.ToLower] and written
    again. *)
Definition ToLower (s : string) : string := of_runes (ToLower_rune <$> utf8_runes s).

Definition trim_left (cs : list (rune * string)) : list (rune * string) :=
  (Tokenizer.span (λ c, IsSpace c.1) cs).2.

(** [strings.TrimSpace]: the string without the white space it starts and
    ends with; the rest keeps its bytes. *)
Definition TrimSpace (s : string) : string :=
  text (reverse (trim_left (reverse (trim_left (chars s))))).

(** [strings.ReplaceAll] for a non-empty [old]; [skip] bytes of a match are
    still to be dropped. *)
Fixpoint ReplaceAll_go (old new : string) (skip : nat) (s : string) : string :=
  match s with
  | EmptyString => EmptyString
  | String c s' =>
      match skip with
      | S k => ReplaceAll_go old new k s'
      | O =>
          if String.prefix old s
          then new +:+ ReplaceAll_go old new (String.length old - 1) s'
          else String c (ReplaceAll_go old new 0 s')
      end
  end.

Definition ReplaceAll (s old new : string) : string := ReplaceAll_go old new 0 s.

(** The runes of the class of [Tokenizer.punctuationPattern]. *)
Definition punctuationRunes : list rune := utf8_runes ".!?,;:'()[]{}…–—" ++ [34].

Definition isWordRune (r : rune) : bool := IsLetter r || IsNumber r || (r =? 45).

(** The class [\s] of package [regexp]: tab, line feed, form feed,
    carriage return and space. *)
Definition isPerlSpace (r : rune) : bool :=
  bool_decide (r = 9 ∨ r = 10 ∨ r = 12 ∨ r = 13 ∨ r = 32).

(** The maximal runs of word runes. *)
Fixpoint words (fuel : nat) (cs : list (rune * string)) : list string :=
  match fuel, cs with
  | O, _ | _, [] => []
  | S fuel', c :: rest =>
      if isWordRune c.1 then
        let '(w, rest') := Tokenizer.span (λ x, isWordRune x.1) rest in
        text (c :: w) :: words fuel' rest'
      else words fuel' rest
  end.

(** Every match of [\s*c\s*] replaced by [repl]; without [c], every match
    of [\s+]. *)
Fixpoint respace (fuel : nat) (c : option rune) (repl : string) (cs : list (rune * string))
  : string :=
  match fuel, cs with
  | O, _ | _, [] => ""
  | S fuel', first :: rest =>
      let '(ws, after) := Tokenizer.span (λ x, isPerlSpace x.1) cs in
      match c, after with
      | Some c, x :: after' =>
          if x.1 =? c
          then repl +:+ respace fuel' (Some c) repl
                          (Tokenizer.span (λ x, isPerlSpace x.1) after').2
          else text ws +:+ x.2 +:+ respace fuel' (Some c) repl after'
      | Some c, [] => text ws
      | None, _ =>
          if isPerlSpace first.1 then repl +:+ respace fuel' None repl after
          else first.2 +:+ respace fuel' None repl rest
      end
  end.

Definition MatchString (pattern s : string) : bool :=
  String.eqb pattern Tokenizer.punctuationPattern
  && existsb (λ r, bool_decide (r ∈ punctuationRunes)) (utf8_runes s).

Definition FindAllString (pattern s : string) : list string :=
  if String.eqb pattern Tokenizer.wordPattern
  then words (String.length s) (chars s) else [].

Definition ReplaceAllString (pattern s repl : string) : string :=
  let cs := chars s in
  if String.eqb pattern "\s+" then respace (length cs) None repl cs
  else if String.eqb pattern "\s*,\s*" then respace (length cs) (Some 44) repl cs
  else if String.eqb pattern "\s*\.\s*" then respace (length cs) (Some 46) repl cs
  else s.

(** [math.Log2] takes the binary logarithm of a power of two from its
    exponent. *)
Definition Log2 (x : float) : float :=
  let '(frac, e) := PrimFloat.frshiftexp x in
  if (frac =? 0.5)%float then float64 (Uint63.to_Z e - FloatOps.shift - 1)
  else PrimFloat.nan.

Definition seeded_Float64 (seed : Z) : float :=
  (float64 (seed mod 1024) / 1024)%float.

(** The insertion sort of package [sort]: every element moves left past
    the elements it is less than. [before] is the sorted part, last
    element first. *)
Fixpoint insert_left {A} (less : A → A → bool) (x : A) (before : list A) : list A :=
  match before with
  | [] => [x]
  | y :: before' => if less x y then y :: insert_left less x before' else x :: before
  end.

Definition insertionSort {A} (less : A → A → bool) (l : list A) : list A :=
  reverse (foldl (λ before x, insert_left less x before) [] l).

Fixpoint doubling (fuel : nat) (c k : Z) : Z :=
  match fuel with
  | O => Z.max c k
  | S fuel' => if k <=? c then c else doubling fuel' (2 * c) k
  end.

Definition grown_cap (k : Z) : Z := if k <=? 0 then 0 else doubling (Z.to_nat k) 1 k.

#[export] Instance lib : GoLib := {|
  runes := utf8_runes;
  string_of_rune := rune_string;
  unicode_IsSpace := IsSpace;
  unicode_IsLetter := IsLetter;
  unicode_IsNumber := IsNumber;
  unicode_ToUpper := ToUpper;
  strings_ToLower := ToLower;
  strings_TrimSpace := TrimSpace;
  strings_ReplaceAll := ReplaceAll;
  regexp_MatchString := MatchString;
  regexp_FindAllString := FindAllString;
  regexp_ReplaceAllString := ReplaceAllString;
  math_Log2 := Log2;
  rand_seeded_Float64 := seeded_Float64;
  sort_Slice := @insertionSort;
  append_cap := grown_cap;
|}.

End Utf8Lib.

(* ===================================================================== *)
(** * Notions of the specification *)
(* ===================================================================== *)

Module Spec.
Import Go.

(** The sum of a list of integers, in unbounded arithmetic. *)
Definition Zsum (l : list Z) : Z := foldr Z.add 0 l.

(** [sum(m.values())] with every value weighed by [f]. *)
Definition weightedSum {A} (f : A → Z) (m : gmap string A) : Z :=
  Zsum (f <$> (map_to_list m).*2).

(** [sum(Chain[p].values())] *)
Definition exactSum (m : gmap string Z) : Z := weightedSum id m.

(** The number of transitions a chain has counted. *)
Definition chainTotal (chain : gmap string (gmap string Z)) : Z := weightedSum exactSum chain.

(** The number of queried keywords whose index entry contains the sentence. *)
Definition keywordHits (index : gmap string (list string)) (keywords : list string)
    (s : string) : Z :=
  len (filter (λ k, s ∈ default [] (index !! k)) keywords).

(** Every recorded count is at least 1. *)
Definition positive_counts (chain : gmap string (gmap string Z)) : Prop :=
  ∀ p suffixes s v, chain !! p = Some suffixes → suffixes !! s = Some v → 1 ≤ v.

(** The chain has counted [k] transitions, none of them lost to wrap-around. *)
Definition counted (chain : gmap string (gmap string Z)) (k : Z) : Prop :=
  positive_counts chain ∧ chainTotal chain = k.

(** How [sentenceScores] holds a score: absent when it is 0. *)
Definition held (score : Z) : option Z := if score =? 0 then None else Some score.

(** 1 when the sentence is in the list, else 0. *)
Definition occurs (s : string) (l : list string) : Z := if decide (s ∈ l) then 1 else 0.

(** The sum of the weights of a distribution, in exact arithmetic. *)
Definition Qcsum (m : gmap string Qc) : Qc := foldr Qcplus 0%Qc (map_to_list m).*2.

(** The chain has recorded the successor [s] after the prefix key [p]. *)
Definition recorded (chain : gmap string (gmap string Z)) (p s : string) : Prop :=
  ∃ suffixes, chain !! p = Some suffixes ∧ is_Some (suffixes !! s).

(** The n-gram of [sentence] that starts at index [i]: its first
    [order - 1] tokens, and the token that follows them. *)
Definition windowPrefix (order : Z) (sentence : list string) (i : Z) : list string :=
  take (Z.to_nat (order - 1)) (drop (Z.to_nat i) sentence).

Definition windowSuffix (order : Z) (sentence : list string) (i : Z) : option string :=
  sentence !! Z.to_nat (i + order - 1).

(** [p] and [s] are the prefix key and the successor of an n-gram of a
    sentence of the corpus. *)
Definition isWindow (order : Z) (corpus : list (list string)) (p s : string) : Prop :=
  ∃ sentence i, sentence ∈ corpus ∧ 0 ≤ i ≤ len sentence - order ∧
    p = Trainer.joinTokens (windowPrefix order sentence i) ∧
    windowSuffix order sentence i = Some s.

(** The number of n-grams of a sentence. *)
Definition windowCount (order : Z) (sentence : list string) : Z :=
  if len sentence <? order then 0 else len sentence - order + 1.

(** The boundary markers, which are not indexed. *)
Definition marker (token : string) : Prop := token = "<start>" ∨ token = "<end>".

(** A token without a space in it. *)
Definition spaceless (token : string) : Prop :=
  " "%char ∉ String.list_ascii_of_string token.

(** A vocabulary without the counts of the boundary markers. *)
Definition withoutMarkers (vocab : gmap string Z) : gmap string Z :=
  delete "<start>" (delete "<end>" vocab).

(** Two indexes that list the same sentences under every token, once
    the duplicates are removed. *)
Definition sameUnique (index index' : gmap string (list string)) : Prop :=
  Trainer.uniqueSentences ∅ <$> index = Trainer.uniqueSentences ∅ <$> index'.

End Spec.

Module TokenizerSpec.
Import Go Tokenizer.

Section with_lib.
Context `{!GoLib}.

(** The text of a punctuation rune of [rs]. *)
Definition punctuationTokenOf (t : Tokenizer) (rs : list rune) (token : string) : Prop :=
  ∃ r, r ∈ rs ∧ isPunctuation t r = true ∧ token = string_of_rune r.

(** The text of a run of word runes of [rs] that no word rune follows,
    other than the words "start" and "end". *)
Definition wordTokenOf (rs : list rune) (token : string) : Prop :=
  ∃ before w after,
    rs = before ++ w ++ after ∧ w ≠ [] ∧ Forall (λ r, isWordRune r = true) w ∧
    (∀ r, head after = Some r → isWordRune r = false) ∧
    token = string_of_runes w ∧ token ≠ "start" ∧ token ≠ "end".

End with_lib.
End TokenizerSpec.

Module GeneratorSpec.
Import Go Spec Trainer Generator.

Section with_lib.
Context `{!GoLib}.

(** The observations one entry of the chain gives rise to in the code: one
    for every token of the prefix and one for every recorded successor,
    each with the context key of the prefix. *)
Definition observationsOf (entry : string * gmap string Z) : list (string * string) :=
  let prefixTokens := parsePrefix entry.1 in
  (λ token, (token, createContextKey prefixTokens))
    <$> (prefixTokens ++ (map_to_list entry.2).*1).

Definition observations (chain : gmap string (gmap string Z)) : list (string * string) :=
  map_to_list chain ≫= observationsOf.

(** The observations as the specification weighs them: for every entry
    [Chain[prefix][successor]], the tokens of the prefix and the successor,
    each with the context key of the prefix and the count of the entry. *)
Definition weightedObservationsOf (entry : string * gmap string Z)
  : list (string * string * Z) :=
  let prefixTokens := parsePrefix entry.1 in
  map_to_list entry.2 ≫= λ successor,
    (λ token, (token, createContextKey prefixTokens, successor.2))
      <$> (prefixTokens ++ [successor.1]).

Definition weightedObservations (chain : gmap string (gmap string Z))
  : list (string * string * Z) :=
  map_to_list chain ≫= weightedObservationsOf.

(** The histogram of a token at a context key, by the specification. *)
Definition weightedContexts_spec (chain : gmap string (gmap string Z))
    (token contextKey : string) : Z :=
  Zsum ((λ o, o.2) <$> filter (λ o, o.1 = (token, contextKey)) (weightedObservations chain)).



End with_lib.

(** The number of times an observation was made. *)
Definition flatCount (obs : list (string * string)) (o : string * string) : Z :=
  len (filter (λ o', o' = o) obs).

(** [tokenContexts[token][contextKey]] *)
Definition histogram (tokenContexts : gmap string (gmap string Z))
    (token contextKey : string) : Z :=
  get (default ∅ (tokenContexts !! token)) contextKey.

(** The weight accumulated after the candidate at index [i] was visited. *)
Definition cumulativeWeight (visited : list (string * float)) (i : nat) : float :=
  foldl (λ cumulative e, (cumulative + e.2)%float) 0%float (take (S i) visited).

(** The number of tokens that equal some keyword. *)
Definition matchingTokens (tokens keywords : list string) : Z :=
  len (filter (λ token, token ∈ keywords) tokens).

(** The number of distinct keywords that occur among the tokens. *)
Definition distinctKeywordCount (tokens keywords : list string) : Z :=
  len (filter (λ keyword, keyword ∈ tokens) (remove_dups keywords)).


(** One observation recorded, as [addTokenContext] does. *)
Definition observe (tokenContexts : gmap string (gmap string Z)) (o : string * string)
  : gmap string (gmap string Z) :=
  <[o.1 := bump (default ∅ (tokenContexts !! o.1)) o.2]> tokenContexts.

(** What every turn of the continuation loop keeps, for a source of
    length [n0] and capacity [cap0]. *)
Definition steady (n0 cap0 : Z) (st : Continuation) : Prop :=
  n (tokens st) = n0 ∧ cap (tokens st) = cap0 ∧
  0 ≤ currentPos st ≤ n0 ∧ 0 ≤ attempts st ≤ maxAttempts ∧
  len (result st) ≤ MaxInt.

(** The condition of the continuation loop. *)
Definition guard (g : AnswerGenerator) (st : Continuation) : bool :=
  (len (result st) <? maxLength g) && (currentPos st <? n (tokens st))
  && (attempts st <? maxAttempts).

(** The state a turn of the continuation loop leaves. *)
Definition after (t : turn) : Continuation :=
  match t with Continue st | Break st => st end.

(** The tokens a continuation can hold: the tokens of the source, the
    successors recorded in the chain, and the empty string. *)
Definition known (g : AnswerGenerator) (source : Slice string) (token : string) : Prop :=
  token ∈ take (Z.to_nat (n source)) (arr source) ∨ token = ""
  ∨ ∃ p, recorded (Chain (chain g)) p token.

(** A start position: 0, or the start of a segment whose key is a prefix
    key of the chain. *)
Definition anchored (g : AnswerGenerator) (tokens : list string) (pos : Z) : Prop :=
  0 ≤ pos ≤ len tokens ∧
  (pos ≠ 0 →
   pos ≤ len tokens - Order (chain g) + 1 ∧
   is_Some (Chain (chain g)
              !! joinTokens (windowPrefix (Order (chain g)) tokens pos))).

(** An answer that is empty or ends in a full stop, an exclamation mark
    or a question mark. *)
Definition terminated (answer : string) : Prop :=
  answer = "" ∨ HasSuffix answer "." = true ∨ HasSuffix answer "!" = true
  ∨ HasSuffix answer "?" = true.

End GeneratorSpec.

(* ===================================================================== *)
(** * Examples *)
(* ===================================================================== *)

Module Examples.
Import Go Trainer Generator Spec GeneratorSpec Utf8Lib.

Definition order3 : TrainConfig.t :=
  {| TrainConfig.Order := 3; TrainConfig.MinFrequency := 0;
     TrainConfig.SaveModel := false; TrainConfig.ModelPath := "" |}.

Definition order2 : TrainConfig.t :=
  {| TrainConfig.Order := 2; TrainConfig.MinFrequency := 0;
     TrainConfig.SaveModel := false; TrainConfig.ModelPath := "" |}.

(** The model [Train] leaves, or the untrained one when it does not return. *)
Definition trained (config : TrainConfig.t) (corpus : list (list string)) : MarkovChain :=
  match Train (NewMarkovTrainer config) corpus with
  | Returned (mc, _) => mc
  | _ => NewMarkovTrainer config
  end.

(** Three sentences about a cat and a dog, tokenized with punctuation. *)
Definition catCorpus : list (list string) :=
  [ ["<start>"; "the"; "cat"; "sat"; "."; "<end>"];
    ["<start>"; "the"; "cat"; "ran"; "."; "<end>"];
    ["<start>"; "a"; "dog"; "ran"; "."; "<end>"] ].

Definition catModel : MarkovChain := trained order3 catCorpus.

(** A corpus in which [a] is followed by [x] three times and [b] once. *)
Definition skewedCorpus : list (list string) :=
  [ ["a"; "x"]; ["a"; "x"]; ["a"; "x"]; ["b"; "x"] ].

Definition skewedModel : MarkovChain := trained order2 skewedCorpus.

Definition canonical : EntropyOrders :=
  {| tokensOrder := id; contextsOrder := λ _, id |}.

(** A draw that visits the candidates in the order [ord] at clock 0. *)
Definition drawIn (ord : order float) : Draw :=
  {| totalOrder := ord; scanOrder := ord; maxOrder := ord; now := 0 |}.

Definition calm : World :=
  {| searchOrder := id; draws := λ _, drawIn id |}.

Definition evenOdds : gmap string float :=
  {[ "a" := 0.5%float; "b" := 0.5%float ]}.

Definition catGenerator : AnswerGenerator :=
  NewAnswerGenerator canonical catModel
    {| MaxLength := 50; UsePunctuation := true; MaxThematicEntropy := 2.0%float |}.

(** A generator asked for a threshold of half a bit. *)
Definition strictGenerator : AnswerGenerator :=
  NewAnswerGenerator canonical skewedModel
    {| MaxLength := 50; UsePunctuation := true; MaxThematicEntropy := 0.5%float |}.

(** A model of one sentence, and a generator over it asked for answers of
    at most two tokens. *)
Definition alphabetCorpus : list (list string) :=
  [ ["<start>"; "aa"; "bb"; "cc"; "dd"; "ee"; "<end>"] ].

Definition shortGenerator : AnswerGenerator :=
  NewAnswerGenerator canonical (trained order2 alphabetCorpus)
    {| MaxLength := 2; UsePunctuation := true; MaxThematicEntropy := 2.0%float |}.

Definition satSentence : string := "<start> the cat sat. <end>".
Definition ranSentence : string := "<start> the cat ran. <end>".

(** A generator over an untrained chain, and a sentence of twelve tokens. *)
Definition blankGenerator : AnswerGenerator :=
  NewAnswerGenerator canonical (NewMarkovTrainer order2)
    {| MaxLength := 50; UsePunctuation := true; MaxThematicEntropy := 2.0%float |}.

Definition twelve : list string :=
  ["t1"; "t2"; "t3"; "t4"; "t5"; "t6"; "t7"; "t8"; "t9"; "t10"; "t11"; "t12"].

Definition repetitive : string := "<start> cat cat cat <end>".
Definition varied : string := "<start> cat dog <end>".

(** The first two sentences of the cat corpus, and the model trained on
    them. *)
Definition catsOnly : list (list string) := take 2 catCorpus.
Definition dogOnly : list (list string) := drop 2 catCorpus.
Definition catsModel : MarkovChain := trained order3 catsOnly.

(** The tokens of the sentence about the cat that sat. *)
Definition satTokens : list string := ["the"; "cat"; "sat"; "."].

Definition alphabetTokens : list string := ["aa"; "bb"; "cc"; "dd"; "ee"].

(** The tokenizer of the training command, and a text of two sentences
    and a blank one. *)
Definition trainingTokenizer : Tokenizer.Tokenizer :=
  Tokenizer.NewTokenizer
    {| Tokenizer.KeepPunctuation := true; Tokenizer.ToLowerCase := true |}.

Definition catText : list string := ["The cat sat."; "   "; "A dog ran."].


End Examples.

(* ===================================================================== *)
(** * Properties *)
(* ===================================================================== *)

(* ===================================================================== *)
(** * Facts about Go values *)
(* ===================================================================== *)

Module GoFacts.
Import Go.

Lemma wrap64_id z : MinInt ≤ z ≤ MaxInt → wrap64 z = z.
Proof.
  unfold MinInt, MaxInt, wrap64. intros Hz.
  rewrite Z.mod_small; lia.
Qed.

Lemma wrap64_add_l a b : wrap64 (wrap64 a + b) = wrap64 (a + b).
Proof.
  unfold wrap64.
  replace ((a + 2 ^ 63) mod 2 ^ 64 - 2 ^ 63 + b + 2 ^ 63)
    with ((a + 2 ^ 63) mod 2 ^ 64 + b) by lia.
  rewrite Zplus_mod_idemp_l. do 2 f_equal. lia.
Qed.

Lemma int_add_id a b : MinInt ≤ a + b ≤ MaxInt → int_add a b = a + b.
Proof. apply wrap64_id. Qed.

Lemma int_sub_id a b : MinInt ≤ a - b ≤ MaxInt → int_sub a b = a - b.
Proof. apply wrap64_id. Qed.

Lemma incr_id a : MinInt ≤ a < MaxInt → incr a = a + 1.
Proof. intros. apply wrap64_id. lia. Qed.

Lemma len_nonneg {A} (l : list A) : 0 ≤ len l.
Proof. unfold len. lia. Qed.

Lemma len_app {A} (l k : list A) : len (l ++ k) = len l + len k.
Proof. unfold len. rewrite length_app. lia. Qed.

Lemma len_nil_iff {A} (l : list A) : (len l =? 0) = true ↔ l = [].
Proof. unfold len. destruct l; simpl; split; intros; try done; lia. Qed.

(** A loop whose body never panics on a state satisfying the invariant
    returns, in a state satisfying the invariant. *)
Lemma foldM_invariant {A S} (P : S → Prop) (body : S → A → outcome S) l s :
  P s →
  (∀ s x, P s → x ∈ l → ∃ s', body s x = Returned s' ∧ P s') →
  ∃ s', foldM body s l = Returned s' ∧ P s'.
Proof.
  revert s. induction l as [|x l IH]; intros s Hs Hbody; simpl.
  - eauto.
  - destruct (Hbody s x Hs) as (s1 & -> & Hs1); [left|]. simpl.
    apply IH; [done|]. intros s2 y Hs2 Hy. apply Hbody; [done|by right].
Qed.

Lemma index_returned {A} (l : list A) i :
  0 ≤ i < len l → ∃ x, index l i = Returned x ∧ l !! Z.to_nat i = Some x.
Proof.
  intros Hi. unfold index. rewrite bool_decide_eq_true_2 by done.
  destruct (l !! Z.to_nat i) as [x|] eqn:Hx; [eauto|].
  apply lookup_ge_None in Hx. unfold len in Hi. lia.
Qed.

Lemma slice_returned {A} (l : list A) lo hi :
  0 ≤ lo → lo ≤ hi → hi ≤ len l →
  slice l lo hi = Returned (take (Z.to_nat (hi - lo)) (drop (Z.to_nat lo) l)).
Proof. intros. unfold slice. by rewrite bool_decide_eq_true_2. Qed.

(** The sum of a list of integers, without wrap-around. *)
Lemma foldl_int_add_wrap (l : list Z) (a : Z) :
  foldl int_add (wrap64 a) l = wrap64 (a + foldr Z.add 0 l).
Proof.
  revert a. induction l as [|x l IH]; intros a; simpl.
  - f_equal. lia.
  - unfold int_add at 2. rewrite wrap64_add_l, IH. f_equal. lia.
Qed.

End GoFacts.

Module SumFacts.
Import Go GoFacts Spec.

#[export] Instance Zsum_perm : Proper ((≡ₚ) ==> (=)) Zsum.
Proof.
  intros l k Hlk. unfold Zsum.
  induction Hlk; simpl; lia.
Qed.

Lemma weightedSum_empty {A} (f : A → Z) : weightedSum f ∅ = 0.
Proof. unfold weightedSum. by rewrite map_to_list_empty. Qed.

Lemma weightedSum_insert_fresh {A} (f : A → Z) (m : gmap string A) k v :
  m !! k = None → weightedSum f (<[k := v]> m) = f v + weightedSum f m.
Proof.
  intros Hk. unfold weightedSum.
  by rewrite (map_to_list_insert m k v Hk).
Qed.

Lemma weightedSum_lookup {A} (f : A → Z) (m : gmap string A) k v :
  m !! k = Some v → weightedSum f m = f v + weightedSum f (delete k m).
Proof.
  intros Hk. rewrite <- (insert_delete_id m k v Hk) at 1.
  apply weightedSum_insert_fresh, lookup_delete_eq.
Qed.

Lemma weightedSum_insert {A} (f : A → Z) (m : gmap string A) k v :
  weightedSum f (<[k := v]> m)
  = f v - default 0 (f <$> m !! k) + weightedSum f m.
Proof.
  destruct (m !! k) as [v0|] eqn:Hk; simpl.
  - rewrite (weightedSum_lookup f m k v0 Hk).
    rewrite <- insert_delete_eq.
    rewrite weightedSum_insert_fresh by apply lookup_delete_eq. lia.
  - rewrite weightedSum_insert_fresh by done. lia.
Qed.

Lemma weightedSum_nonneg {A} (f : A → Z) (m : gmap string A) :
  (∀ k v, m !! k = Some v → 0 ≤ f v) → 0 ≤ weightedSum f m.
Proof.
  induction m as [|k v m Hk IH] using map_ind; intros Hpos.
  - by rewrite weightedSum_empty.
  - rewrite weightedSum_insert_fresh by done.
    assert (0 ≤ f v) by (apply (Hpos k); by rewrite lookup_insert_eq).
    assert (0 ≤ weightedSum f m); [|lia].
    apply IH. intros j w Hj. apply (Hpos j).
    rewrite lookup_insert_ne; [done|]. intros ->. congruence.
Qed.

Lemma weightedSum_lookup_le {A} (f : A → Z) (m : gmap string A) k v :
  (∀ k v, m !! k = Some v → 0 ≤ f v) → m !! k = Some v → f v ≤ weightedSum f m.
Proof.
  intros Hpos Hk. rewrite (weightedSum_lookup f m k v Hk).
  assert (0 ≤ weightedSum f (delete k m)); [|lia].
  apply weightedSum_nonneg. intros j w Hj.
  apply lookup_delete_Some in Hj as [_ Hj]. eauto.
Qed.

End SumFacts.

(* ===================================================================== *)
(** * Properties of package trainer *)
(* ===================================================================== *)

Module TrainerFacts.
Import Go GoFacts Trainer.

(** ** [processSentence] does not panic when the order is positive *)

Lemma processWindow_returned order sentence chain i :
  1 ≤ order → len sentence ≤ MaxInt → 0 ≤ i ≤ len sentence - order →
  ∃ prefixTokens suffix,
    processWindow order sentence chain i
      = Returned (addTransition chain (joinTokens prefixTokens) suffix).
Proof.
  intros Ho Hlen Hi. unfold processWindow.
  assert (Hmax : MaxInt = 9223372036854775807) by reflexivity.
  assert (Hmin : MinInt = -9223372036854775808) by reflexivity.
  rewrite (int_add_id i order) by lia.
  rewrite (int_sub_id (i + order) 1) by lia.
  rewrite slice_returned by lia. simpl.
  destruct (index_returned sentence (i + order - 1)) as (x & -> & _); [lia|].
  simpl. eauto.
Qed.

Lemma processSentence_returned mc sentence :
  1 ≤ Order mc → len sentence ≤ MaxInt →
  ∃ chain, processSentence mc sentence
    = Returned {| Order := Order mc; Chain := chain; Sums := Sums mc;
                  Index := Index mc; Vocab := Vocab mc; Topics := Topics mc |}.
Proof.
  intros Ho Hlen. unfold processSentence.
  destruct (len sentence <? Order mc) eqn:Hlt.
  - exists (Chain mc). by destruct mc.
  - apply Z.ltb_ge in Hlt.
    assert (Hmax : MaxInt = 9223372036854775807) by reflexivity.
    assert (Hmin : MinInt = -9223372036854775808) by reflexivity.
    rewrite (int_sub_id (len sentence) (Order mc)) by lia.
    destruct (foldM_invariant (λ _, True) (processWindow (Order mc) sentence)
                (seqZ 0 (len sentence - Order mc + 1)) (Chain mc) I)
      as (chain & -> & _).
    + intros c i _ Hi. apply elem_of_seqZ in Hi.
      destruct (processWindow_returned (Order mc) sentence c i) as (p & x & ->);
        [lia..|eauto].
    + simpl. eauto.
Qed.

Lemma processSentence_Order mc sentence mc' :
  processSentence mc sentence = Returned mc' → Order mc' = Order mc.
Proof.
  unfold processSentence. destruct (len sentence <? Order mc); [by intros [= <-]|].
  destruct (foldM _ _ _); simpl; [|done..]. by intros [= <-].
Qed.

Lemma foldM_processSentence_returned sentences mc :
  1 ≤ Order mc → Forall (λ s, len s ≤ MaxInt) sentences →
  ∃ mc', foldM processSentence mc sentences = Returned mc'.
Proof.
  intros Ho Hall.
  destruct (foldM_invariant (λ m, Order m = Order mc) processSentence sentences mc eq_refl)
    as (mc' & -> & _); [|eauto].
  intros m s Hm Hs. rewrite Forall_forall in Hall.
  destruct (processSentence_returned m s) as (c & Hc); [lia|by apply Hall|].
  rewrite Hc. eexists. split; [done|]. simpl. done.
Qed.

(** C9. [Train] returns an error exactly when it is given no sentence, and
    then leaves the model as it was; given at least one sentence it
    succeeds. The order of the chain is positive, as the data model has it,
    and every sentence has a length that fits in an int. *)
Theorem Train_error_iff_empty (mc : MarkovChain) (tokenizedSentences : list (list string)) :
  1 ≤ Order mc →
  Forall (λ s, len s ≤ MaxInt) tokenizedSentences →
  (tokenizedSentences = [] ↔
     ∃ mc' e, Train mc tokenizedSentences = Returned (mc', Some e)) ∧
  (∀ mc' e, Train mc tokenizedSentences = Returned (mc', Some e) →
     mc' = mc ∧ Chain mc' = Chain mc ∧ Sums mc' = Sums mc ∧
     Index mc' = Index mc ∧ Vocab mc' = Vocab mc) ∧
  (tokenizedSentences ≠ [] →
     ∃ mc', Train mc tokenizedSentences = Returned (mc', None)).
Proof.
  intros Ho Hall. unfold Train.
  destruct (len tokenizedSentences =? 0) eqn:Hlen.
  - apply len_nil_iff in Hlen. subst. split; [|split].
    + split; [|done]. intros _. by eexists _, _.
    + by intros mc' e [= <- <-].
    + done.
  - assert (tokenizedSentences ≠ []) as Hne.
    { intros ->. by compute in Hlen. }
    destruct (foldM_processSentence_returned tokenizedSentences
                (buildIndexAndVocab mc tokenizedSentences)) as (mc1 & Hmc1).
    { unfold buildIndexAndVocab. by destruct (foldl _ _ _). }
    { done. }
    rewrite Hmc1. simpl. split; [|split].
    + split; [done|]. by intros (? & ? & [=]).
    + by intros ? ? [=].
    + intros _. eauto.
Qed.

End TrainerFacts.

Module ChainFacts.
Import Go GoFacts Spec SumFacts Trainer TrainerFacts.

Lemma counted_empty : counted ∅ 0.
Proof.
  split; [|apply weightedSum_empty].
  intros p m s v Hp. by rewrite lookup_empty in Hp.
Qed.

Lemma exactSum_nonneg chain p suffixes :
  positive_counts chain → chain !! p = Some suffixes → 0 ≤ exactSum suffixes.
Proof.
  intros Hpos Hp. apply weightedSum_nonneg. intros s v Hs.
  specialize (Hpos p suffixes s v Hp Hs). unfold id. lia.
Qed.

Lemma exactSum_le_total chain p suffixes :
  positive_counts chain → chain !! p = Some suffixes →
  exactSum suffixes ≤ chainTotal chain.
Proof.
  intros Hpos Hp. apply (weightedSum_lookup_le exactSum chain p); [|done].
  intros q m Hq. by apply (exactSum_nonneg chain q).
Qed.

Lemma get_le_total chain p suffixes s :
  positive_counts chain → chain !! p = Some suffixes →
  0 ≤ get suffixes s ≤ chainTotal chain.
Proof.
  intros Hpos Hp. unfold get.
  pose proof (exactSum_le_total chain p suffixes Hpos Hp) as Hle.
  pose proof (exactSum_nonneg chain p suffixes Hpos Hp) as H0.
  destruct (suffixes !! s) as [v|] eqn:Hs; simpl; [|lia].
  pose proof (Hpos p suffixes s v Hp Hs) as Hv.
  assert (id v ≤ exactSum suffixes) as Hid; [|unfold id in Hid; lia].
  apply (weightedSum_lookup_le id suffixes s); [|done].
  intros t u Ht. unfold id. assert (1 ≤ u); [|lia]. eauto.
Qed.

Lemma addTransition_counted chain k prefix suffix :
  counted chain k → k < MaxInt →
  counted (addTransition chain prefix suffix) (k + 1).
Proof.
  intros [Hpos Htot] Hk. unfold addTransition, bump.
  assert (Hmin : MinInt = -9223372036854775808) by reflexivity.
  set (inner := default ∅ (chain !! prefix)).
  assert (Hget : 0 ≤ get inner suffix ≤ k).
  { subst inner. destruct (chain !! prefix) as [m|] eqn:Hp; simpl.
    - rewrite <- Htot. by apply (get_le_total chain prefix).
    - unfold get. rewrite lookup_empty. simpl. split; [done|].
      rewrite <- Htot. apply weightedSum_nonneg.
      intros q m Hq. by apply (exactSum_nonneg chain q). }
  rewrite incr_id by lia.
  assert (Hinner : ∀ s v, inner !! s = Some v → 1 ≤ v).
  { subst inner. intros s v. destruct (chain !! prefix) as [m|] eqn:Hp; simpl.
    - intros Hs. exact (Hpos prefix m s v Hp Hs).
    - by rewrite lookup_empty. }
  split.
  - intros p m s v Hp Hs.
    destruct (decide (p = prefix)) as [->|Hne].
    + rewrite lookup_insert_eq in Hp. injection Hp as <-.
      destruct (decide (s = suffix)) as [->|Hne'].
      * rewrite lookup_insert_eq in Hs. injection Hs as <-. lia.
      * rewrite lookup_insert_ne in Hs by done. eauto.
    + rewrite lookup_insert_ne in Hp by done. eauto.
  - unfold chainTotal. rewrite weightedSum_insert.
    unfold exactSum at 1. rewrite weightedSum_insert.
    fold (exactSum inner). fold (chainTotal chain). rewrite Htot.
    assert (default 0 (exactSum <$> chain !! prefix) = exactSum inner) as ->.
    { subst inner. destruct (chain !! prefix); simpl; [done|].
      symmetry. apply weightedSum_empty. }
    unfold get, id. destruct (inner !! suffix); simpl; lia.
Qed.

Lemma windows_counted order sentence (l : list Z) chain k :
  1 ≤ order → len sentence ≤ MaxInt →
  Forall (λ i, 0 ≤ i ≤ len sentence - order) l →
  counted chain k → k + len l ≤ MaxInt →
  ∃ chain', foldM (processWindow order sentence) chain l = Returned chain'
            ∧ counted chain' (k + len l).
Proof.
  intros Ho Hlen Hl. revert chain k.
  induction Hl as [|i l Hi Hl IH]; intros chain k Hc Hk; simpl.
  - exists chain. split; [done|]. unfold len. simpl. by rewrite Z.add_0_r.
  - destruct (processWindow_returned order sentence chain i) as (p & x & ->);
      [done..|]. simpl.
    unfold len in Hk. simpl length in Hk.
    destruct (IH (addTransition chain (joinTokens p) x) (k + 1)) as (c' & -> & Hc').
    + apply addTransition_counted; [done|lia].
    + unfold len. lia.
    + exists c'. split; [done|].
      unfold len in *. simpl length.
      replace (k + Z.of_nat (S (length l))) with (k + 1 + Z.of_nat (length l)) by lia.
      done.
Qed.

Lemma processSentence_counted mc sentence k :
  1 ≤ Order mc → counted (Chain mc) k → 0 ≤ k → k + len sentence ≤ MaxInt →
  ∃ mc' k', processSentence mc sentence = Returned mc'
    ∧ counted (Chain mc') k' ∧ k ≤ k' ≤ k + len sentence
    ∧ Order mc' = Order mc ∧ Sums mc' = Sums mc.
Proof.
  intros Ho Hc Hk0 Hk. unfold processSentence.
  pose proof (len_nonneg sentence) as Hlen0.
  destruct (len sentence <? Order mc) eqn:Hlt.
  - exists mc, k. split; [done|]. split; [done|]. split; [lia|done].
  - apply Z.ltb_ge in Hlt.
    assert (Hmin : MinInt = -9223372036854775808) by reflexivity.
    rewrite (int_sub_id (len sentence) (Order mc)) by lia.
    set (l := seqZ 0 (len sentence - Order mc + 1)).
    assert (Hll : len l = len sentence - Order mc + 1).
    { subst l. unfold len at 1. rewrite length_seqZ. lia. }
    destruct (windows_counted (Order mc) sentence l (Chain mc) k) as (c' & -> & Hc');
      [done|lia| |done|lia|].
    { subst l. apply Forall_forall. intros i Hi. apply elem_of_seqZ in Hi. lia. }
    simpl. eexists _, (k + len l). split; [done|]. simpl.
    split; [done|]. split; [lia|done].
Qed.

Lemma sentences_counted sentences mc k :
  1 ≤ Order mc → counted (Chain mc) k → 0 ≤ k →
  k + len (concat sentences) ≤ MaxInt →
  ∃ mc' k', foldM processSentence mc sentences = Returned mc'
    ∧ counted (Chain mc') k' ∧ 0 ≤ k' ≤ MaxInt ∧ Sums mc' = Sums mc.
Proof.
  revert mc k. induction sentences as [|s sentences IH]; intros mc k Ho Hc Hk0 Hk; simpl.
  - exists mc, k. simpl in Hk. unfold len in Hk. simpl in Hk.
    split; [done|]. split; [done|]. split; [lia|done].
  - simpl in Hk. rewrite len_app in Hk.
    pose proof (len_nonneg (concat sentences)) as Hrest.
    destruct (processSentence_counted mc s k) as (mc1 & k1 & -> & Hc1 & Hk1 & Ho1 & Hs1);
      [done..|lia|]. simpl.
    destruct (IH mc1 k1) as (mc' & k' & -> & Hc' & Hk' & Hs'); [lia|done|lia|lia|].
    exists mc', k'. split; [done|]. split; [done|]. split; [lia|congruence].
Qed.

Lemma sumCounts_wrap (suffixes : gmap string Z) :
  sumCounts suffixes = wrap64 (exactSum suffixes).
Proof.
  unfold sumCounts, exactSum, weightedSum, Zsum.
  rewrite list_fmap_id.
  transitivity (foldl int_add (wrap64 0) (map_to_list suffixes).*2).
  - by rewrite foldl_fmap.
  - rewrite foldl_int_add_wrap. f_equal.
Qed.

Lemma buildIndexAndVocab_Chain mc sentences :
  Chain (buildIndexAndVocab mc sentences) = Chain mc
  ∧ Sums (buildIndexAndVocab mc sentences) = Sums mc
  ∧ Order (buildIndexAndVocab mc sentences) = Order mc.
Proof. unfold buildIndexAndVocab. by destruct (foldl _ _ _). Qed.

(** C1. Training a fresh model on a non-empty collection of sentences
    succeeds and leaves [Sums] with the keys of [Chain], every prefix
    mapped to the sum of its successor counts. The order of the chain is
    positive, as the data model has it, and the corpus has at most [MaxInt]
    tokens in all, so that no count wraps around. *)
Theorem Train_sums_invariant (config : TrainConfig.t) (tokenizedSentences : list (list string)) :
  tokenizedSentences ≠ [] →
  1 ≤ TrainConfig.Order config →
  len (concat tokenizedSentences) ≤ MaxInt →
  ∃ mc, Train (NewMarkovTrainer config) tokenizedSentences = Returned (mc, None)
    ∧ dom (Sums mc) = dom (Chain mc)
    ∧ ∀ p suffixes, Chain mc !! p = Some suffixes →
        Sums mc !! p = Some (exactSum suffixes).
Proof.
  intros Hne Ho Hsize. unfold Train.
  destruct (len tokenizedSentences =? 0) eqn:Hlen.
  { apply len_nil_iff in Hlen. done. }
  set (mc0 := buildIndexAndVocab (NewMarkovTrainer config) tokenizedSentences).
  destruct (buildIndexAndVocab_Chain (NewMarkovTrainer config) tokenizedSentences)
    as (Hchain0 & Hsums0 & Horder0). fold mc0 in Hchain0, Hsums0, Horder0.
  simpl in Hchain0, Hsums0, Horder0.
  destruct (sentences_counted tokenizedSentences mc0 0)
    as (mc1 & k & -> & [Hpos Htot] & Hk & Hsums1); [lia| |lia|lia|].
  { rewrite Hchain0. apply counted_empty. }
  simpl. eexists. split; [done|]. simpl.
  rewrite Hsums1, Hsums0, (right_id_L ∅ (∪)). split.
  - by rewrite dom_fmap_L.
  - intros p suffixes Hp. rewrite lookup_fmap, Hp. simpl. f_equal.
    rewrite sumCounts_wrap. apply wrap64_id.
    pose proof (exactSum_nonneg _ _ _ Hpos Hp).
    pose proof (exactSum_le_total _ _ _ Hpos Hp).
    assert (Hmin : MinInt = -9223372036854775808) by reflexivity. lia.
Qed.

End ChainFacts.

Module DistributionFacts.
Import Go GoFacts Spec SumFacts Trainer.

Lemma Qcsum_quotients (l : list Z) (t : Qc) :
  foldr Qcplus 0%Qc ((λ count, Qc_of_Z count / t)%Qc <$> l) = (Qc_of_Z (Zsum l) / t)%Qc.
Proof.
  induction l as [|x l IH].
  - cbn [fmap list_fmap foldr Zsum]. rewrite Z2Qc_inj_0. unfold Qcdiv. by rewrite Qcmult_0_l.
  - rewrite fmap_cons. cbn [foldr]. rewrite IH.
    change (Zsum (x :: l)) with (x + Zsum l).
    rewrite Z2Qc_inj_add. unfold Qcdiv. by rewrite Qcmult_plus_distr_l.
Qed.

Lemma foldr_Qcplus_perm : Proper ((≡ₚ) ==> (=)) (foldr Qcplus 0%Qc).
Proof.
  intros l k Hlk. induction Hlk as [|x l k _ IH|x y l|l k m _ IH1 _ IH2]; simpl.
  - done.
  - by rewrite IH.
  - by rewrite !Qcplus_assoc, (Qcplus_comm y x).
  - congruence.
Qed.

Lemma Qcsum_fmap_quotients (suffixes : gmap string Z) (t : Qc) :
  Qcsum ((λ count, Qc_of_Z count / t)%Qc <$> suffixes)
  = (Qc_of_Z (exactSum suffixes) / t)%Qc.
Proof.
  unfold Qcsum, exactSum, weightedSum.
  rewrite list_fmap_id, <- Qcsum_quotients.
  apply foldr_Qcplus_perm.
  rewrite map_to_list_fmap, <- !list_fmap_compose. done.
Qed.

Lemma exactSum_positive (suffixes : gmap string Z) :
  suffixes ≠ ∅ → (∀ s v, suffixes !! s = Some v → 1 ≤ v) → 1 ≤ exactSum suffixes.
Proof.
  intros Hne Hpos. destruct (map_choose suffixes Hne) as (s & v & Hs).
  pose proof (Hpos s v Hs) as Hv.
  assert (id v ≤ exactSum suffixes) as Hid; [|unfold id in Hid; lia].
  apply (weightedSum_lookup_le id suffixes s); [|done].
  intros t u Ht. unfold id. assert (1 ≤ u); [|lia]. eauto.
Qed.

(** C10. [GetNextTokens] returns nil exactly when the prefix key is not in
    [Chain]. Otherwise the map it returns has the recorded successors as
    keys and gives each the quotient of its count by [Sums[key]]; and when
    [Sums[key]] is the sum of the counts, the counts being positive and at
    least one successor recorded, as the data model has it, these quotients
    taken in exact rational arithmetic add up to 1. *)
Theorem GetNextTokens_distribution (mc : MarkovChain) (prefix : list string) :
  let key := joinTokens prefix in
  (GetNextTokens mc prefix = None ↔ Chain mc !! key = None) ∧
  (∀ suffixes, Chain mc !! key = Some suffixes →
     ∃ probabilities,
       GetNextTokens mc prefix = Some probabilities ∧
       dom probabilities = dom suffixes ∧
       ∀ s count, suffixes !! s = Some count →
         probabilities !! s
         = Some (float64 count / float64 (get (Sums mc) key))%float) ∧
  (∀ suffixes, Chain mc !! key = Some suffixes →
     suffixes ≠ ∅ →
     (∀ s count, suffixes !! s = Some count → 1 ≤ count) →
     Sums mc !! key = Some (exactSum suffixes) →
     ∃ weights,
       GetNextTokens_exact mc prefix = Some weights ∧
       dom weights = dom suffixes ∧
       (∀ s count, suffixes !! s = Some count →
          weights !! s = Some (Qc_of_Z count / Qc_of_Z (exactSum suffixes))%Qc) ∧
       Qcsum weights = 1%Qc).
Proof.
  intros key. unfold GetNextTokens, GetNextTokens_exact, GetNextTokens_in. fold key.
  split; [|split].
  - destruct (Chain mc !! key); split; done.
  - intros suffixes ->. eexists. split; [done|]. split.
    + by rewrite dom_fmap_L.
    + intros s count Hs. by rewrite lookup_fmap, Hs.
  - intros suffixes -> Hne Hpos Hsum. eexists. split; [done|].
    unfold get. rewrite Hsum. simpl. split; [|split].
    + by rewrite dom_fmap_L.
    + intros s count Hs. by rewrite lookup_fmap, Hs.
    + rewrite Qcsum_fmap_quotients. unfold Qcdiv. apply Qcmult_inv_r.
      rewrite <- Z2Qc_inj_0. intros Heq%Z2Qc_inj.
      pose proof (exactSum_positive suffixes Hne Hpos). lia.
Qed.

End DistributionFacts.

Module SearchFacts.
Import Go GoFacts Spec Trainer.

Lemma bump_held (m : gmap string Z) (h : string → Z) (s : string) :
  (∀ t, m !! t = held (h t)) → 0 ≤ h s < MaxInt →
  ∀ t, bump m s !! t = held (h t + if decide (t = s) then 1 else 0).
Proof.
  intros Hm Hs t. unfold bump.
  assert (Hmin : MinInt = -9223372036854775808) by reflexivity.
  assert (get m s = h s) as ->.
  { unfold get. rewrite Hm. unfold held. destruct (h s =? 0) eqn:E; simpl; lia. }
  rewrite incr_id by lia.
  destruct (decide (t = s)) as [->|Hne].
  - rewrite lookup_insert_eq. unfold held.
    destruct (h s + 1 =? 0) eqn:E; [lia|done].
  - rewrite lookup_insert_ne by done. by rewrite Z.add_0_r.
Qed.

Lemma occurs_range s l : 0 ≤ occurs s l ≤ 1.
Proof. unfold occurs. case_decide; lia. Qed.

Lemma occurs_cons t s l :
  s ∉ l → occurs t (s :: l) = (if decide (t = s) then 1 else 0) + occurs t l.
Proof.
  intros Hs. unfold occurs.
  destruct (decide (t = s)) as [->|Hne].
  - rewrite decide_True by left. rewrite decide_False by done. lia.
  - destruct (decide (t ∈ l)) as [Hin|Hin].
    + rewrite decide_True by (by right). lia.
    + rewrite decide_False; [lia|]. by intros [?|?]%elem_of_cons.
Qed.

Lemma foldl_bump_held (sentences : list string) (m : gmap string Z) (h : string → Z) :
  NoDup sentences →
  (∀ t, m !! t = held (h t)) →
  (∀ t, 0 ≤ h t ∧ h t + occurs t sentences ≤ MaxInt) →
  ∀ t, foldl bump m sentences !! t = held (h t + occurs t sentences).
Proof.
  intros Hnd. revert m h.
  induction Hnd as [|s sentences Hs Hnd IH]; intros m h Hm Hh t; simpl.
  - unfold occurs. rewrite decide_False by apply not_elem_of_nil.
    by rewrite Z.add_0_r.
  - rewrite (IH (bump m s) (λ t, h t + if decide (t = s) then 1 else 0)).
    + f_equal. rewrite (occurs_cons t s sentences Hs). lia.
    + apply bump_held; [done|]. specialize (Hh s).
      rewrite (occurs_cons s s sentences Hs), decide_True in Hh by done.
      pose proof (occurs_range s sentences). lia.
    + intros u. specialize (Hh u). rewrite (occurs_cons u s sentences Hs) in Hh.
      pose proof (occurs_range u sentences). case_decide; lia.
Qed.

Lemma keywordHits_nil index s : keywordHits index [] s = 0.
Proof. done. Qed.

Lemma keywordHits_cons index k keywords s :
  keywordHits index (k :: keywords) s
  = occurs s (default [] (index !! k)) + keywordHits index keywords s.
Proof.
  unfold keywordHits, occurs. rewrite filter_cons.
  case_decide; [|lia]. unfold len. simpl. lia.
Qed.

Lemma keywordHits_range index keywords s :
  0 ≤ keywordHits index keywords s ≤ len keywords.
Proof.
  unfold keywordHits, len. pose proof (length_filter (λ k, s ∈ default [] (index !! k)) keywords).
  lia.
Qed.

Lemma scoreKeyword_held index (keywords : list string) (m : gmap string Z) (h : string → Z) :
  (∀ k l, index !! k = Some l → NoDup l) →
  (∀ t, m !! t = held (h t)) →
  (∀ t, 0 ≤ h t ∧ h t + len keywords ≤ MaxInt) →
  ∀ t, foldl (scoreKeyword index) m keywords !! t
       = held (h t + keywordHits index keywords t).
Proof.
  intros Hnd. revert m h.
  induction keywords as [|k keywords IH]; intros m h Hm Hh t; simpl.
  - by rewrite keywordHits_nil, Z.add_0_r.
  - assert (Hlen : len (k :: keywords) = 1 + len keywords).
    { unfold len. simpl length. lia. }
    rewrite (IH _ (λ t, h t + occurs t (default [] (index !! k)))).
    + f_equal. rewrite keywordHits_cons. lia.
    + unfold scoreKeyword. destruct (index !! k) as [l|] eqn:Hk; simpl.
      * apply foldl_bump_held; [by apply (Hnd k)|done|].
        intros u. specialize (Hh u). pose proof (occurs_range u l).
        pose proof (len_nonneg keywords). lia.
      * intros u. rewrite Hm. f_equal. unfold occurs.
        rewrite decide_False by apply not_elem_of_nil. lia.
    + intros u. specialize (Hh u). pose proof (occurs_range u (default [] (index !! k))).
      lia.
Qed.

(** The scores [Search] sorts by are the numbers of keyword hits. *)
Lemma sentenceScores_hits index (keywords : list string) :
  (∀ k l, index !! k = Some l → NoDup l) → len keywords ≤ MaxInt →
  ∀ t, foldl (scoreKeyword index) ∅ keywords !! t = held (keywordHits index keywords t).
Proof.
  intros Hnd Hlen t.
  rewrite (scoreKeyword_held index keywords ∅ (λ _, 0)); [done..| |].
  - intros u. by rewrite lookup_empty.
  - intros u. lia.
Qed.

Lemma collectResults_take (scored : list scoredSentence) i limit :
  collectResults i limit scored = take (Z.to_nat (limit - i)) (sentence <$> scored).
Proof.
  revert i. induction scored as [|ss scored IH]; intros i; simpl.
  - by rewrite take_nil.
  - destruct (limit <=? i) eqn:E.
    + apply Z.leb_le in E. by replace (Z.to_nat (limit - i)) with 0%nat by lia.
    + apply Z.leb_gt in E. rewrite IH.
      replace (Z.to_nat (limit - i)) with (S (Z.to_nat (limit - (i + 1)))) by lia.
      done.
Qed.

Lemma score_order_strict_weak :
  strict_weak_order (λ a b : scoredSentence, score a >? score b).
Proof.
  split; [|split].
  - intros a. rewrite Z.gtb_ltb. apply Z.ltb_irrefl.
  - intros a b c. rewrite !Z.gtb_ltb, !Z.ltb_lt. lia.
  - intros a b c. rewrite !Z.gtb_ltb, !Z.ltb_ge. lia.
Qed.

Lemma StronglySorted_lookup {A} (R : relation A) (l : list A) (i j : nat) x y :
  StronglySorted R l → l !! i = Some x → l !! j = Some y → (i < j)%nat → R x y.
Proof.
  intros Hl. revert i j. induction Hl as [|z l Hl IH Hz]; intros i j Hi Hj Hij.
  - done.
  - destruct j as [|j]; [lia|]. simpl in Hj. destruct i as [|i]; simpl in Hi.
    + injection Hi as <-. rewrite Forall_forall in Hz.
      apply Hz. by apply list_elem_of_lookup_2 in Hj.
    + apply (IH i j); [done..|lia].
Qed.

Lemma StronglySorted_take {A} (R : relation A) (l : list A) (k : nat) :
  StronglySorted R l → StronglySorted R (take k l).
Proof.
  intros Hl. rewrite <- (take_drop k l) in Hl.
  by apply StronglySorted_app_1_l in Hl.
Qed.

Section with_lib.
Context `{!GoLib} {laws : GoLibLaws _}.

(** C4, as amended. For distinct keywords and a positive limit, over an
    index whose entries hold no sentence twice, [Search] returns at most
    [limit] sentences, all different; each has at least one keyword hit, and
    no sentence has more hits than a sentence returned before it. This holds
    for every visiting order of the range over the scores; among sentences
    with equal hits the order is not determined. *)
Theorem Search_ranked (ord : order Z) (mc : MarkovChain) (keywords : list string) (limit : Z) :
  valid_order ord →
  NoDup keywords → len keywords ≤ MaxInt →
  (∀ k l, Index mc !! k = Some l → NoDup l) →
  0 < limit →
  let results := Search ord mc keywords limit in
  len results ≤ limit ∧
  NoDup results ∧
  (∀ s, s ∈ results → 1 ≤ keywordHits (Index mc) keywords s) ∧
  (∀ i j si sj, results !! i = Some si → results !! j = Some sj → (i < j)%nat →
     keywordHits (Index mc) keywords sj ≤ keywordHits (Index mc) keywords si).
Proof.
  intros Hord _ Hlen Hnd Hlimit. unfold Search.
  set (sentenceScores := foldl (scoreKeyword (Index mc)) ∅ keywords).
  set (entries := range ord sentenceScores).
  set (scored := (λ e, {| sentence := e.1; score := e.2 |}) <$> entries).
  set (sorted := sort_Slice (λ a b, score a >? score b) scored).
  rewrite collectResults_take, Z.sub_0_r. simpl.
  assert (Hentries : entries ≡ₚ map_to_list sentenceScores) by apply Hord.
  assert (Hsorted : sorted ≡ₚ scored) by apply sort_Slice_perm.
  assert (Hscore : ∀ ss, ss ∈ sorted →
            score ss = keywordHits (Index mc) keywords (sentence ss) ∧ score ss ≠ 0).
  { intros ss Hss. rewrite Hsorted in Hss. subst scored.
    apply list_elem_of_fmap in Hss as ([s v] & -> & Hsv). simpl.
    rewrite Hentries in Hsv. apply elem_of_map_to_list in Hsv.
    subst sentenceScores. rewrite sentenceScores_hits in Hsv by done.
    unfold held in Hsv. destruct (_ =? 0) eqn:E; [done|].
    injection Hsv as <-. split; [done|]. by apply Z.eqb_neq in E. }
  assert (Hnodup : NoDup (sentence <$> sorted)).
  { rewrite Hsorted. subst scored. rewrite <- list_fmap_compose.
    rewrite Hentries. apply NoDup_fst_map_to_list. }
  assert (Hss : StronglySorted (λ a b, (score b >? score a) = false) sorted).
  { apply sort_Slice_sorted, score_order_strict_weak. }
  split; [|split; [|split]].
  - unfold len. rewrite length_take. lia.
  - eapply sublist_NoDup; [done|apply sublist_take].
  - intros s Hs. apply elem_of_take in Hs as (i & Hs & _).
    apply list_lookup_fmap_Some in Hs as (ss & -> & Hss').
    apply list_elem_of_lookup_2 in Hss'. destruct (Hscore ss Hss') as [Heq Hne].
    pose proof (keywordHits_range (Index mc) keywords (sentence ss)). lia.
  - intros i j si sj Hi Hj Hij.
    apply lookup_take_Some in Hi as [Hi _]. apply lookup_take_Some in Hj as [Hj _].
    apply list_lookup_fmap_Some in Hi as (a & -> & Ha).
    apply list_lookup_fmap_Some in Hj as (b & -> & Hb).
    pose proof (StronglySorted_lookup _ _ _ _ _ _ Hss Ha Hb Hij) as Hab. simpl in Hab.
    rewrite Z.gtb_ltb, Z.ltb_ge in Hab.
    destruct (Hscore a) as [<- _]; [by eapply list_elem_of_lookup_2|].
    destruct (Hscore b) as [<- _]; [by eapply list_elem_of_lookup_2|]. done.
Qed.

End with_lib.
End SearchFacts.

Module EntropyFacts.
Import Go GoFacts Spec GeneratorSpec Trainer Generator.

Lemma histogram_observe tc o token ck :
  MinInt ≤ histogram tc o.1 o.2 < MaxInt →
  histogram (observe tc o) token ck
  = histogram tc token ck + (if decide ((token, ck) = o) then 1 else 0).
Proof.
  destruct o as [t k]. simpl. intros Hb. unfold histogram, observe. simpl.
  destruct (decide (token = t)) as [->|Hne].
  - rewrite lookup_insert_eq. simpl. unfold bump, get at 1.
    destruct (decide (ck = k)) as [->|Hne'].
    + rewrite lookup_insert_eq. simpl. rewrite decide_True by done.
      rewrite incr_id; [done|]. apply Hb.
    + rewrite lookup_insert_ne by done. rewrite decide_False by congruence.
      unfold get. lia.
  - rewrite lookup_insert_ne by done. rewrite decide_False by congruence. lia.
Qed.

Lemma flatCount_cons o' obs o :
  flatCount (o' :: obs) o = (if decide (o = o') then 1 else 0) + flatCount obs o.
Proof.
  unfold flatCount. rewrite filter_cons.
  destruct (decide (o' = o)) as [->|Hne].
  - rewrite decide_True by done. unfold len. simpl length. lia.
  - rewrite decide_False by congruence. lia.
Qed.

Lemma flatCount_range obs o : 0 ≤ flatCount obs o ≤ len obs.
Proof.
  unfold flatCount, len. pose proof (length_filter (λ o', o' = o) obs). lia.
Qed.

Lemma histogram_foldl_observe obs tc token ck :
  (∀ t k, 0 ≤ histogram tc t k ∧ histogram tc t k + len obs ≤ MaxInt) →
  histogram (foldl observe tc obs) token ck
  = histogram tc token ck + flatCount obs (token, ck).
Proof.
  revert tc. induction obs as [|o obs IH]; intros tc Hb; simpl.
  - unfold flatCount, len. simpl. lia.
  - assert (Hlen : len (o :: obs) = 1 + len obs) by (unfold len; simpl length; lia).
    assert (Hmin : MinInt = -9223372036854775808) by reflexivity.
    pose proof (len_nonneg obs) as Hobs.
    assert (Ho : MinInt ≤ histogram tc o.1 o.2 < MaxInt).
    { specialize (Hb o.1 o.2). lia. }
    rewrite IH.
    + rewrite histogram_observe, flatCount_cons by done. lia.
    + intros t k. rewrite histogram_observe by done. specialize (Hb t k).
      case_decide; lia.
Qed.

Section with_lib.
Context `{!GoLib}.

Lemma addTokenContext_observe token context tc :
  addTokenContext token context tc = observe tc (token, createContextKey context).
Proof. done. Qed.

Lemma observeEntry_foldl tc entry :
  observeEntry tc entry = foldl observe tc (observationsOf entry).
Proof.
  unfold observeEntry, observationsOf.
  rewrite fmap_app, foldl_app, !foldl_fmap. done.
Qed.

Lemma tokenContextsOf_foldl chain :
  tokenContextsOf chain = foldl observe ∅ (observations chain).
Proof.
  unfold tokenContextsOf, observations.
  generalize (∅ : gmap string (gmap string Z)).
  induction (map_to_list chain) as [|e l IH]; intros tc; simpl; [done|].
  rewrite foldl_app, <- observeEntry_foldl. apply IH.
Qed.

(** The histogram of a token at a context key is the number of
    observations of that pair, each counted once, when the chain gives rise
    to at most [MaxInt] observations. *)
Lemma tokenContexts_flat_counts (chain : gmap string (gmap string Z))
    (token contextKey : string) :
  len (observations chain) ≤ MaxInt →
  histogram (tokenContextsOf chain) token contextKey
  = flatCount (observations chain) (token, contextKey).
Proof.
  intros Hlen. rewrite tokenContextsOf_foldl, histogram_foldl_observe.
  - unfold histogram, get. by rewrite lookup_empty.
  - intros t k. unfold histogram, get. rewrite lookup_empty. simpl.
    rewrite lookup_empty. simpl. lia.
Qed.

End with_lib.
End EntropyFacts.

Module ThematicFacts.
Import Go GoFacts Spec GeneratorSpec Trainer Generator.

Lemma foldl_insert_lookup {A B} (f : string * A → B) (l : list (string * A))
    (m : gmap string B) (k : string) :
  NoDup l.*1 →
  foldl (λ m e, <[e.1 := f e]> m) m l !! k
  = match (list_to_map l : gmap string A) !! k with
    | Some a => Some (f (k, a))
    | None => m !! k
    end.
Proof.
  revert m. induction l as [|[k' a] l IH]; intros m Hnd; simpl.
  - by rewrite lookup_empty.
  - apply NoDup_cons in Hnd as [Hk' Hnd]. rewrite IH by done.
    destruct (decide (k = k')) as [->|Hne].
    + rewrite (not_elem_of_list_to_map_1 l k' Hk'). by rewrite !lookup_insert_eq.
    + by rewrite !lookup_insert_ne.
Qed.

Section with_lib.
Context `{!GoLib}.

Lemma recordEntropy_fields eo g l :
  let g' := foldl (recordEntropy eo) g l in
  chain g' = chain g ∧ tokenizer g' = tokenizer g ∧ maxLength g' = maxLength g ∧
  tokenEntropy g'
  = foldl (λ m e, <[e.1 := calculateEntropy (contextsOrder eo e.1) e.2]> m)
          (tokenEntropy g) l.
Proof.
  revert g. induction l as [|e l IH]; intros g; simpl; [done|].
  destruct (IH (recordEntropy eo g e)) as (-> & -> & -> & ->). done.
Qed.

(** The entropy [analyzeEntropy] records for a token is computed from the
    token's histogram. *)
Lemma analyzeEntropy_tokenEntropy eo g token :
  valid_order (tokensOrder eo) →
  tokenEntropy (analyzeEntropy eo g) !! token
  = match tokenContextsOf (Chain (chain g)) !! token with
    | Some contexts => Some (calculateEntropy (contextsOrder eo token) contexts)
    | None => tokenEntropy g !! token
    end.
Proof.
  intros Hord. unfold analyzeEntropy.
  destruct (recordEntropy_fields eo g
              (range (tokensOrder eo) (tokenContextsOf (Chain (chain g)))))
    as (_ & _ & _ & ->).
  set (tc := tokenContextsOf (Chain (chain g))).
  assert (Hperm : range (tokensOrder eo) tc ≡ₚ map_to_list tc) by apply Hord.
  assert (Hnd : NoDup (range (tokensOrder eo) tc).*1).
  { rewrite Hperm. apply NoDup_fst_map_to_list. }
  rewrite (foldl_insert_lookup
             (λ e, calculateEntropy (contextsOrder eo e.1) e.2)) by done.
  rewrite (list_to_map_proper _ _ Hnd Hperm), list_to_map_to_list. done.
Qed.

(** C2, as amended. The histogram of a token at a context key is the
    number of observations of that pair, each counted once: one observation
    for every occurrence of the token in a prefix of the chain and one for
    every prefix it is a recorded successor of, whatever the transition
    count. The entropy recorded for the token is computed from this
    histogram. The chain gives rise to at most [MaxInt] observations. *)
Theorem entropy_from_flat_counts (eo : EntropyOrders) (mc : MarkovChain) (config : Config)
    (token : string) :
  valid_order (tokensOrder eo) →
  len (observations (Chain mc)) ≤ MaxInt →
  let tokenContexts := tokenContextsOf (Chain mc) in
  (∀ contextKey,
     histogram tokenContexts token contextKey
     = flatCount (observations (Chain mc)) (token, contextKey)) ∧
  tokenEntropy (NewAnswerGenerator eo mc config) !! token
  = calculateEntropy (contextsOrder eo token) <$> (tokenContexts !! token).
Proof.
  intros Hord Hlen tokenContexts. split.
  - intros contextKey. by apply EntropyFacts.tokenContexts_flat_counts.
  - unfold NewAnswerGenerator. rewrite analyzeEntropy_tokenEntropy by done. simpl.
    fold tokenContexts. by destruct (tokenContexts !! token).
Qed.

(** [NewAnswerGenerator] does not read [MaxThematicEntropy]: two
    configurations that differ in it alone give the same generator. *)
Theorem NewAnswerGenerator_ignores_threshold eo mc maxLength usePunctuation t1 t2 :
  NewAnswerGenerator eo mc
    {| MaxLength := maxLength; UsePunctuation := usePunctuation; MaxThematicEntropy := t1 |}
  = NewAnswerGenerator eo mc
    {| MaxLength := maxLength; UsePunctuation := usePunctuation; MaxThematicEntropy := t2 |}.
Proof. reflexivity. Qed.

(** A token is thematic exactly when it has a recorded entropy below
    2.0, whatever threshold the configuration of the generator asks for. *)
Theorem isThematicToken_threshold eo mc config token :
  let g := NewAnswerGenerator eo mc config in
  isThematicToken g token = true
  ↔ ∃ entropy, tokenEntropy g !! token = Some entropy ∧ (entropy <? 2.0)%float = true.
Proof.
  intros g. unfold isThematicToken.
  destruct (tokenEntropy g !! token) as [e|]; split.
  - eauto.
  - by intros (? & [= <-] & ?).
  - done.
  - by intros (? & [=] & _).
Qed.

End with_lib.
End ThematicFacts.

Module SamplerFacts.
Import Go GoFacts Spec GeneratorSpec Trainer Generator Examples.

Lemma scanCumulative_reaches r c (l : list (string * float)) i token prob :
  l !! i = Some (token, prob) →
  (r <=? foldl (λ cumulative e, cumulative + e.2) c (take (S i) l))%float = true →
  (∀ j, (j < i)%nat →
     (r <=? foldl (λ cumulative e, cumulative + e.2) c (take (S j) l))%float = false) →
  scanCumulative r c l = Some token.
Proof.
  revert c i. induction l as [|[t p] l IH]; intros c i Hi Hr Hbefore; [done|].
  destruct i as [|i]; simpl in *.
  - injection Hi as -> ->. by rewrite Hr.
  - pose proof (Hbefore 0%nat ltac:(lia)) as H0. simpl in H0.
    rewrite H0. apply (IH _ i); [done..|].
    intros j Hj. apply (Hbefore (S j)). lia.
Qed.

Lemma scanCumulative_none r c (l : list (string * float)) :
  (∀ j, (j < length l)%nat →
     (r <=? foldl (λ cumulative e, cumulative + e.2) c (take (S j) l))%float = false) →
  scanCumulative r c l = None.
Proof.
  revert c. induction l as [|[t p] l IH]; intros c Hall; [done|]. simpl.
  pose proof (Hall 0%nat ltac:(simpl; lia)) as H0. simpl in H0.
  rewrite H0. apply IH. intros j Hj. apply (Hall (S j)). simpl. lia.
Qed.

Section with_lib.
Context `{!GoLib}.

(** C3, as amended. [selectNextToken] draws [r] from a source it seeds
    with the clock at every call, visits the candidates in the order its
    range over the map yields, whatever that order is, accumulating weight,
    and returns the first candidate at which the accumulated weight is at
    least [r]; when no candidate is, it returns the candidate its second
    range finds heaviest. *)
Theorem selectNextToken_first_reaching (d : Draw) (probabilities : gmap string float) :
  valid_order (scanOrder d) →
  let r := rand_seeded_Float64 (now d) in
  let visited := range (scanOrder d) probabilities in
  visited ≡ₚ map_to_list probabilities ∧
  (∀ i token prob,
     visited !! i = Some (token, prob) →
     (r <=? cumulativeWeight visited i)%float = true →
     (∀ j, (j < i)%nat → (r <=? cumulativeWeight visited j)%float = false) →
     selectNextToken d probabilities = token) ∧
  ((∀ j, (j < length visited)%nat → (r <=? cumulativeWeight visited j)%float = false) →
   selectNextToken d probabilities = maxCandidate (range (maxOrder d) probabilities)).
Proof.
  intros Hord r visited. split; [apply Hord|]. unfold selectNextToken. fold r visited.
  split.
  - intros i token prob Hi Hr Hbefore.
    by rewrite (scanCumulative_reaches r _ visited i token prob Hi Hr Hbefore).
  - intros Hnone. by rewrite (scanCumulative_none r _ visited Hnone).
Qed.

(** With even odds on two candidates, the two visiting orders of the
    map return different tokens at the same clock, whatever number is
    drawn. *)
Theorem selectNextToken_evenOdds (clock : Z) :
  let forwards :=
    {| totalOrder := id; scanOrder := id; maxOrder := id; now := clock |} in
  let backwards :=
    {| totalOrder := reverse; scanOrder := reverse; maxOrder := reverse; now := clock |} in
  (selectNextToken forwards evenOdds = "a" ∧ selectNextToken backwards evenOdds = "b") ∨
  (selectNextToken forwards evenOdds = "b" ∧ selectNextToken backwards evenOdds = "a").
Proof.
  intros forwards backwards. unfold selectNextToken, range. simpl.
  assert (map_to_list evenOdds = [("a", 0.5%float); ("b", 0.5%float)]) as ->
    by (vm_compute; reflexivity).
  set (r := rand_seeded_Float64 clock).
  change (reverse [("a", 0.5%float); ("b", 0.5%float)])
    with [("b", 0.5%float); ("a", 0.5%float)].
  unfold id. simpl.
  change (0 + 0.5)%float with 0.5%float.
  change (0.5 + 0.5)%float with 1%float.
  destruct (r <=? 0.5)%float; [by left|].
  destruct (r <=? 1)%float; [by right|].
  left. split; vm_compute; reflexivity.
Qed.

End with_lib.
End SamplerFacts.

Module SelectionFacts.
Import Go GoFacts Spec GeneratorSpec Trainer Generator.

Lemma existsb_eqb_elem_of (token : string) (keywords : list string) :
  existsb (String.eqb token) keywords = true ↔ token ∈ keywords.
Proof.
  rewrite existsb_exists, list_elem_of_In. split.
  - intros (k & Hk & ->%String.eqb_eq). done.
  - intros Hin. exists token. split; [done|]. apply String.eqb_refl.
Qed.

Lemma matchingTokens_cons token tokens keywords :
  matchingTokens (token :: tokens) keywords
  = (if existsb (String.eqb token) keywords then 1 else 0) + matchingTokens tokens keywords.
Proof.
  unfold matchingTokens. rewrite filter_cons.
  destruct (existsb (String.eqb token) keywords) eqn:E.
  - apply existsb_eqb_elem_of in E. rewrite decide_True by done.
    unfold len. simpl length. lia.
  - rewrite decide_False; [lia|]. intros Hin%existsb_eqb_elem_of. congruence.
Qed.

Lemma matchingTokens_range tokens keywords :
  0 ≤ matchingTokens tokens keywords ≤ len tokens.
Proof.
  unfold matchingTokens, len.
  pose proof (length_filter (λ token, token ∈ keywords) tokens). lia.
Qed.

Lemma matchScore_from tokens keywords a :
  0 ≤ a → a + len tokens ≤ MaxInt →
  foldl (λ score token,
           if existsb (String.eqb token) keywords then incr score else score) a tokens
  = a + matchingTokens tokens keywords.
Proof.
  revert a. induction tokens as [|token tokens IH]; intros a Ha Hb; simpl.
  - unfold matchingTokens, len. simpl. lia.
  - assert (Hlen : len (token :: tokens) = 1 + len tokens) by (unfold len; simpl length; lia).
    assert (Hmin : MinInt = -9223372036854775808) by reflexivity.
    pose proof (len_nonneg tokens).
    rewrite matchingTokens_cons.
    destruct (existsb (String.eqb token) keywords).
    + rewrite incr_id by lia. rewrite IH by lia. lia.
    + rewrite IH by lia. lia.
Qed.

(** The score of [findBestSentence] is the number of matching tokens. *)
Lemma matchScore_matchingTokens tokens keywords :
  len tokens ≤ MaxInt → matchScore tokens keywords = matchingTokens tokens keywords.
Proof. intros Hlen. unfold matchScore. rewrite matchScore_from; lia. Qed.

(** A loop that keeps the first element of strictly greatest score. *)
Lemma first_maximum_fold {A} (sc : A → Z) (l : list A) (b0 : Z) (x0 : A) :
  let best := foldl (λ (best : Z * A) x, if best.1 <? sc x then (sc x, x) else best)
                    (b0, x0) l in
  (best = (b0, x0) ∧ ∀ x, x ∈ l → sc x ≤ b0) ∨
  (∃ i, l !! i = Some best.2 ∧ best.1 = sc best.2 ∧ b0 < best.1 ∧
        ∀ j x, l !! j = Some x → sc x ≤ best.1 ∧ ((j < i)%nat → sc x < best.1)).
Proof.
  induction l as [|y l IH] using rev_ind; simpl.
  - left. split; [done|]. by intros x Hx%elem_of_nil.
  - rewrite foldl_app. simpl.
    set (best := foldl _ (b0, x0) l) in *. simpl in IH.
    destruct (best.1 <? sc y) eqn:E.
    + apply Z.ltb_lt in E. right. exists (length l). simpl.
      split; [by rewrite lookup_app_r, Nat.sub_diag by lia|].
      split; [done|].
      destruct IH as [[Hbest Hall]|(i & Hi & Hb & Hlt & Hall)].
      * rewrite Hbest in E. simpl in E. split; [lia|].
        intros j x Hj. apply lookup_app_Some in Hj as [Hj|[Hge Hj]].
        -- apply list_elem_of_lookup_2 in Hj. specialize (Hall x Hj). lia.
        -- apply list_lookup_singleton_Some in Hj as [_ <-]. lia.
      * split; [lia|]. intros j x Hj. apply lookup_app_Some in Hj as [Hj|[Hge Hj]].
        -- destruct (Hall j x Hj). lia.
        -- apply list_lookup_singleton_Some in Hj as [_ <-]. lia.
    + apply Z.ltb_ge in E.
      destruct IH as [[Hbest Hall]|(i & Hi & Hb & Hlt & Hall)].
      * left. split; [done|]. intros x [Hx|Hx%list_elem_of_singleton]%elem_of_app.
        -- by apply Hall.
        -- subst x. rewrite Hbest in E. done.
      * right. exists i. split; [by apply lookup_app_l_Some|]. split; [done|].
        split; [done|]. intros j x Hj.
        apply lookup_app_Some in Hj as [Hj|[Hge Hj]]; [by apply Hall|].
        apply list_lookup_singleton_Some in Hj as [Hj <-].
        apply lookup_lt_Some in Hi. split; [done|lia].
Qed.

Section with_lib.
Context `{!GoLib}.

(** C5, as amended. Among a non-empty list of candidate sentences,
    [findBestSentence] returns the first sentence that has the greatest
    number of tokens, after tokenization, that equal some search keyword. A
    keyword that occurs several times in a sentence counts every time. No
    sentence has more than [MaxInt] tokens. *)
Theorem findBestSentence_first_maximum (g : AnswerGenerator) (sentences keywords : list string) :
  sentences ≠ [] →
  Forall (λ s, len (Tokenizer.Tokenize (tokenizer g) s) ≤ MaxInt) sentences →
  let hits := λ s, matchingTokens (Tokenizer.Tokenize (tokenizer g) s) keywords in
  let best := findBestSentence g sentences keywords in
  ∃ i, sentences !! i = Some best ∧
       ∀ j s, sentences !! j = Some s →
         hits s ≤ hits best ∧ ((j < i)%nat → hits s < hits best).
Proof.
  intros Hne Hlen hits best. subst best. unfold findBestSentence.
  destruct sentences as [|first rest]; [done|].
  set (l := first :: rest) in *.
  set (sc := λ s, matchScore (Tokenizer.Tokenize (tokenizer g) s) keywords).
  assert (Hsc : ∀ s, s ∈ l → sc s = hits s).
  { intros s Hs. rewrite Forall_forall in Hlen. subst sc hits. simpl.
    apply matchScore_matchingTokens. by apply Hlen. }
  destruct (first_maximum_fold sc l (-1) first) as [[_ Hall]|(i & Hi & Hb & _ & Hall)].
  - exfalso. specialize (Hall first ltac:(left)). rewrite Hsc in Hall by left.
    pose proof (matchingTokens_range (Tokenizer.Tokenize (tokenizer g) first) keywords).
    subst hits. simpl in Hall. lia.
  - simpl in Hi, Hb, Hall. fold sc.
    exists i. split; [done|]. intros j s Hj.
    destruct (Hall j s Hj) as [Hle Hlt].
    rewrite Hb in Hle, Hlt.
    rewrite !Hsc in Hle, Hlt by (by eapply list_elem_of_lookup_2).
    done.
Qed.

End with_lib.
End SelectionFacts.

Module AnswerFacts.
Import Go GoFacts Spec GeneratorSpec Trainer Generator.


Section with_lib.
Context `{!GoLib} {laws : GoLibLaws _}.






End with_lib.
End AnswerFacts.

Module ContinuationFacts.
Import Go GoFacts Spec GeneratorSpec Trainer Generator.

Lemma overwrite_length {A} (xs l : list A) pos : length (overwrite l pos xs) = length l.
Proof.
  revert l pos. induction xs as [|x xs IH]; intros l pos; simpl; [done|].
  by rewrite IH, length_insert.
Qed.

Lemma reslice_returned {A} (s : Slice A) lo hi :
  0 ≤ lo → lo ≤ hi → hi ≤ cap s →
  reslice s lo hi = Returned (take (Z.to_nat (hi - lo)) (drop (Z.to_nat lo) (arr s))).
Proof. intros. unfold reslice. by rewrite bool_decide_eq_true_2. Qed.

Lemma len_take_drop {A} (l : list A) lo hi :
  0 ≤ lo → lo ≤ hi → hi ≤ len l →
  len (take (Z.to_nat (hi - lo)) (drop (Z.to_nat lo) l)) = hi - lo.
Proof.
  intros. unfold len in *. rewrite length_take, length_drop. lia.
Qed.

Lemma at_returned {A} (s : Slice A) i :
  0 ≤ i < n s → n s ≤ cap s → ∃ x, at_ s i = Returned x.
Proof.
  intros Hi Hn. unfold at_. rewrite bool_decide_eq_true_2 by done.
  destruct (arr s !! Z.to_nat i) as [x|] eqn:Hx; [eauto|].
  apply lookup_ge_None in Hx. unfold cap, len in Hn. lia.
Qed.

Section with_lib.
Context `{!GoLib}.

Section loop.
Variables (g : AnswerGenerator) (keywords : list string) (draws : nat → Draw).
Variables (n0 cap0 : Z).
Hypothesis Horder : 1 ≤ Order (chain g) ≤ MaxInt.
Hypothesis Hmax : maxLength g ≤ MaxInt.
Hypothesis Hsrc : 0 ≤ n0 ∧ n0 ≤ cap0 ∧ n0 ≤ MaxInt.

Local Abbreviation steady := (GeneratorSpec.steady n0 cap0).
Local Abbreviation guard := (GeneratorSpec.guard g).

Lemma currentPrefixOf_returned st :
  steady st →
  ∃ tokens' currentPrefix,
    currentPrefixOf g st = Returned (tokens', currentPrefix)
    ∧ n tokens' = n0 ∧ cap tokens' = cap0.
Proof.
  intros (Hn & Hcap & Hpos & Hatt & Hres). unfold currentPrefixOf.
  assert (Hmin : MinInt = -9223372036854775808) by reflexivity.
  assert (HmaxInt : MaxInt = 9223372036854775807) by reflexivity.
  pose proof (len_nonneg (result st)) as Hres0.
  rewrite (int_sub_id (Order (chain g)) 1) by lia.
  destruct (Order (chain g) - 1 <=? len (result st)) eqn:E.
  - apply Z.leb_le in E.
    rewrite (int_sub_id (len (result st)) (Order (chain g))) by lia.
    rewrite int_add_id by lia.
    rewrite slice_returned by lia. simpl. eauto.
  - apply Z.leb_gt in E.
    rewrite (int_sub_id (Order (chain g) - 1) (len (result st))) by lia.
    rewrite int_sub_id by lia.
    unfold append_to_reslice.
    rewrite reslice_returned by lia. simpl.
    case_bool_decide; eexists _, _; (split; [done|]); [|done].
    split; [done|]. unfold cap, len in *. simpl. by rewrite overwrite_length.
Qed.

Lemma stall_returned tokens' st :
  steady st → n tokens' = n0 → cap tokens' = cap0 → currentPos st < n0 →
  attempts st < maxAttempts → len (result st) < MaxInt →
  ∃ st', stall tokens' st = Returned (Continue st')
    ∧ steady st' ∧ len (result st') = len (result st) + 1.
Proof.
  intros (Hn & Hcap & Hpos & Hatt & Hres) Hn' Hcap' Hlt Hatt' Hres'. unfold stall.
  assert (Hmin : MinInt = -9223372036854775808) by reflexivity.
  assert (HmaxInt : MaxInt = 9223372036854775807) by reflexivity.
  assert (Hten : maxAttempts = 10) by reflexivity.
  rewrite Hn'. rewrite (proj2 (Z.ltb_lt _ _) Hlt).
  destruct (at_returned tokens' (currentPos st)) as [token ->]; [lia..|]. simpl.
  eexists. split; [done|]. unfold steady. simpl.
  rewrite !int_add_id by lia.
  assert (Hone : len (result st ++ [token]) = len (result st) + 1).
  { rewrite len_app. unfold len at 2. simpl. lia. }
  rewrite Hone. repeat split; try done; lia.
Qed.

Lemma continuationTurn_returned d st :
  steady st → guard st = true →
  ∃ t, continuationTurn g keywords d st = Returned t ∧
       match t with
       | Continue st' => steady st' ∧ len (result st') = len (result st) + 1
       | Break st' => steady st' ∧ result st' = result st
       end.
Proof.
  intros Hst Hguard. unfold guard in Hguard.
  apply andb_true_iff in Hguard as [[Hlen Hpos]%andb_true_iff Hatt].
  apply Z.ltb_lt in Hlen, Hpos, Hatt.
  pose proof Hst as (Hn & Hcap & Hpos' & Hatt' & Hres).
  unfold continuationTurn.
  destruct (currentPrefixOf_returned st Hst) as (tokens' & currentPrefix & -> & Hn' & Hcap').
  simpl.
  assert (Hstall : ∃ t, stall tokens' st = Returned t ∧
            match t with
            | Continue st' => steady st' ∧ len (result st') = len (result st) + 1
            | Break st' => steady st' ∧ result st' = result st
            end).
  { destruct (stall_returned tokens' st) as (st' & -> & Hst' & Hlen');
      [done|done|done|lia|lia|lia|].
    exists (Continue st'). by split. }
  destruct (GetNextTokens (chain g) currentPrefix) as [nextTokens|]; [|done].
  destruct (0 <? Z.of_nat (size nextTokens)); [|done].
  destruct (String.eqb _ "<end>").
  - eexists. split; [done|]. simpl. split; [|done]. by unfold steady.
  - eexists. split; [done|]. simpl.
    assert (Hone : len (result st ++ [selectThematicToken g d nextTokens keywords])
                   = len (result st) + 1).
    { rewrite len_app. unfold len at 2. simpl. lia. }
    split; [|done]. unfold steady. simpl. rewrite Hone.
    assert (Hten : maxAttempts = 10) by reflexivity.
    repeat split; try done; lia.
Qed.

(** The loop returns when it is given at least as many turns as there are
    tokens still allowed, and leaves at most [maxLength] tokens, or the
    tokens it started with. *)
Lemma continuationLoop_returned fuel k st :
  steady st → maxLength g - len (result st) ≤ Z.of_nat fuel →
  ∃ st', continuationLoop fuel g keywords draws k st = Returned st'
    ∧ steady st'
    ∧ len (result st) ≤ len (result st')
    ∧ len (result st') ≤ Z.max (maxLength g) (len (result st)).
Proof.
  revert k st. induction fuel as [|fuel IH]; intros k st Hst Hfuel; simpl.
  - destruct (_ && _ && _) eqn:Hguard.
    + apply andb_true_iff in Hguard as [[Hlen _]%andb_true_iff _].
      apply Z.ltb_lt in Hlen. lia.
    + exists st. repeat split; try done; try apply Hst; lia.
  - destruct (_ && _ && _) eqn:Hguard.
    + destruct (continuationTurn_returned (draws k) st Hst Hguard) as (t & -> & Ht).
      simpl. destruct t as [st'|st'].
      * destruct Ht as [Hst' Hlen].
        destruct (IH (S k) st' Hst') as (st'' & -> & Hst'' & Hge & Hle); [lia|].
        exists st''. repeat split; try done; try apply Hst''.
        -- lia.
        -- apply andb_true_iff in Hguard as [[Hlt _]%andb_true_iff _].
           apply Z.ltb_lt in Hlt. lia.
      * destruct Ht as [Hst' Hres]. exists st'. rewrite Hres.
        repeat split; try done; try apply Hst'; lia.
    + exists st. repeat split; try done; try apply Hst; lia.
Qed.

(** More turns than needed change nothing. *)
Lemma continuationLoop_more_fuel fuel fuel' k st st' :
  continuationLoop fuel g keywords draws k st = Returned st' → (fuel ≤ fuel')%nat →
  continuationLoop fuel' g keywords draws k st = Returned st'.
Proof.
  revert fuel' k st. induction fuel as [|fuel IH]; intros fuel' k st; simpl.
  - destruct (_ && _ && _) eqn:Hguard; [done|].
    intros [= <-] _. destruct fuel'; simpl; by rewrite Hguard.
  - destruct (_ && _ && _) eqn:Hguard.
    + intros Hrun Hle. destruct fuel' as [|fuel']; [lia|]. simpl. rewrite Hguard.
      destruct (continuationTurn g keywords (draws k) st) as [[st1|st1]| |]; simpl in *;
        try done.
      apply IH; [done|lia].
    + intros [= <-] _. destruct fuel'; simpl; by rewrite Hguard.
Qed.

End loop.

Lemma quot_2_positive a : 0 < Z.quot a 2 → 0 < a ∧ Z.quot a 2 ≤ a.
Proof.
  destruct (Z.le_gt_cases 0 a) as [Ha|Ha].
  - rewrite Z.quot_div_nonneg by lia. intros Hq.
    pose proof (Z.div_mod a 2 ltac:(lia)). pose proof (Z.mod_pos_bound a 2 ltac:(lia)). lia.
  - intros Hq. exfalso.
    replace a with (- (- a)) in Hq by lia. rewrite Z.quot_opp_l in Hq by lia.
    pose proof (Z.quot_pos (- a) 2 ltac:(lia) ltac:(lia)). lia.
Qed.

(** The continuation returns, without a panic and without running out of
    turns, and its tokens are at most [maxLength], or at most the [startPos]
    tokens copied before the loop when these are more. *)
Lemma continuationTokens_returned (g : AnswerGenerator) (source : Slice string)
    (startPos : Z) (keywords : list string) (draws : nat → Draw) :
  1 ≤ Order (chain g) ≤ MaxInt → maxLength g ≤ MaxInt →
  0 ≤ n source ≤ cap source → n source ≤ MaxInt →
  0 ≤ startPos ≤ n source →
  ∃ produced,
    continuationTokens g source startPos keywords draws = Returned produced
    ∧ len produced ≤ Z.max (maxLength g) startPos.
Proof.
  intros Horder Hmax Hn Hcap Hstart. unfold continuationTokens.
  assert (Hmin : MinInt = -9223372036854775808) by reflexivity.
  assert (HmaxInt : MaxInt = 9223372036854775807) by reflexivity.
  assert (∃ copied, (if 0 <? startPos then reslice source 0 startPos else mret [])
                    = Returned copied ∧ len copied = startPos) as (copied & -> & Hcopied).
  { destruct (0 <? startPos) eqn:E.
    - rewrite reslice_returned by lia. eexists. split; [done|].
      rewrite len_take_drop; [lia|lia|lia|]. unfold cap in *. lia.
    - apply Z.ltb_ge in E. exists []. split; [done|]. unfold len. simpl. lia. }
  simpl.
  destruct (continuationLoop_returned g keywords draws (n source) (cap source)
              Horder Hmax ltac:(lia) (Z.to_nat (maxLength g - len copied)) 0%nat
              {| tokens := source; result := copied; currentPos := startPos; attempts := 0 |})
    as (st & -> & Hst & Hge & Hle).
  { unfold steady. simpl. assert (maxAttempts = 10) by reflexivity.
    repeat split; try done; lia. }
  { simpl. lia. }
  simpl in *. destruct Hst as (Hn' & Hcap' & Hpos & Hatt & Hres).
  destruct (_ && _) eqn:Htail.
  - apply andb_true_iff in Htail as [Hhalf Hleft].
    apply Z.ltb_lt in Hhalf, Hleft. unfold int_quot in Hhalf.
    pose proof (len_nonneg (result st)) as Hres0.
    destruct (quot_2_positive (maxLength g)) as [Hpos' Hq]; [lia|].
    rewrite (int_sub_id (maxLength g)) by lia.
    rewrite (int_sub_id (n (tokens st))) by lia.
    rewrite int_add_id by lia.
    rewrite reslice_returned by lia. simpl. eexists. split; [done|].
    rewrite len_app, len_take_drop; [lia|lia|lia|]. unfold cap in *. lia.
  - eexists. split; [done|]. lia.
Qed.

(** X1. [generateThematicContinuation] terminates and does not panic, for
    every source, start position within the source, keyword set and
    sampling, the order of the chain being positive; the tokens it joins
    are at most [maxLength], or at most the [startPos] tokens copied before
    the loop when these are more. *)
Theorem continuation_terminates_within_bound (g : AnswerGenerator) (source : Slice string)
    (startPos : Z) (keywords : list string) (draws : nat → Draw) :
  1 ≤ Order (chain g) ≤ MaxInt → maxLength g ≤ MaxInt →
  0 ≤ n source ≤ cap source → n source ≤ MaxInt →
  0 ≤ startPos ≤ n source →
  ∃ produced,
    continuationTokens g source startPos keywords draws = Returned produced
    ∧ generateThematicContinuation g source startPos keywords draws
      = Returned (Tokenizer.JoinTokens (tokenizer g) produced)
    ∧ len produced ≤ Z.max (maxLength g) startPos.
Proof.
  intros Horder Hmax Hn Hcap Hstart.
  destruct (continuationTokens_returned g source startPos keywords draws)
    as (produced & Hrun & Hlen); [done..|].
  exists produced. split; [done|]. split; [|done].
  unfold generateThematicContinuation. by rewrite Hrun.
Qed.

End with_lib.
End ContinuationFacts.

Module TotalityFacts.
Import Go GoFacts Spec GeneratorSpec Trainer Generator.

Lemma foldl_bump_dom (sentences : list string) (m : gmap string Z) (s : string) :
  s ∈ dom (foldl bump m sentences) → s ∈ dom m ∨ s ∈ sentences.
Proof.
  revert m. induction sentences as [|t sentences IH]; intros m; simpl; [auto|].
  intros [Hs|Hs]%IH; [|right; by right].
  unfold bump in Hs. rewrite dom_insert in Hs.
  apply elem_of_union in Hs as [->%elem_of_singleton|Hs]; [right; left|by left].
Qed.

Lemma scoreKeyword_dom index (keywords : list string) (m : gmap string Z) (s : string) :
  s ∈ dom (foldl (scoreKeyword index) m keywords) →
  s ∈ dom m ∨ ∃ k l, index !! k = Some l ∧ s ∈ l.
Proof.
  revert m. induction keywords as [|k keywords IH]; intros m; simpl; [auto|].
  intros [Hs|Hs]%IH; [|by right].
  unfold scoreKeyword in Hs. destruct (index !! k) as [l|] eqn:Hk; [|by left].
  apply foldl_bump_dom in Hs as [Hs|Hs]; [by left|right; eauto].
Qed.

Section with_lib.
Context `{!GoLib} {laws : GoLibLaws _}.

(** Every sentence [Search] returns is a sentence of the index. *)
Lemma Search_indexed ord mc keywords limit s :
  valid_order ord → s ∈ Search ord mc keywords limit →
  ∃ k l, Index mc !! k = Some l ∧ s ∈ l.
Proof.
  intros Hord Hs. unfold Search in Hs.
  rewrite SearchFacts.collectResults_take in Hs.
  apply elem_of_take in Hs as (i & Hs & _).
  apply list_elem_of_lookup_2 in Hs.
  rewrite (sort_Slice_perm _ _ _) in Hs.
  rewrite <- list_fmap_compose in Hs.
  apply list_elem_of_fmap in Hs as ([t v] & -> & Hin). simpl.
  unfold range in Hin. rewrite (Hord _) in Hin.
  apply elem_of_map_to_list in Hin.
  destruct (scoreKeyword_dom (Index mc) keywords ∅ t) as [Hdom|Hidx]; [|by rewrite dom_empty in Hdom|done].
  apply elem_of_dom. eauto.
Qed.

Lemma findBestSentence_elem_of g sentences keywords :
  sentences ≠ [] → findBestSentence g sentences keywords ∈ sentences.
Proof.
  intros Hne. unfold findBestSentence. destruct sentences as [|first rest]; [done|].
  set (l := first :: rest).
  assert (∀ (l' : list string) acc, acc.2 ∈ l → (∀ x, x ∈ l' → x ∈ l) →
            (foldl (λ (best : Z * string) sentence,
                      if best.1 <? matchScore (Tokenizer.Tokenize (tokenizer g) sentence) keywords
                      then (matchScore (Tokenizer.Tokenize (tokenizer g) sentence) keywords,
                            sentence)
                      else best) acc l').2 ∈ l) as Hfold.
  { induction l' as [|x l' IH]; intros acc Hacc Hsub; simpl; [done|].
    apply IH; [|intros y Hy; apply Hsub; by right].
    destruct (_ <? _); [apply Hsub; left|done]. }
  apply Hfold; [left|done].
Qed.

Lemma startPositionStep_returned g tokens keywords best i :
  1 ≤ Order (chain g) → len tokens < MaxInt →
  0 ≤ i ≤ len tokens - Order (chain g) + 1 →
  0 ≤ best.1 ≤ len tokens →
  ∃ best', startPositionStep g tokens keywords best i = Returned best'
           ∧ 0 ≤ best'.1 ≤ len tokens.
Proof.
  intros Ho Hlen Hi Hbest. destruct best as [bestPos bestScore]. simpl in Hbest.
  unfold startPositionStep.
  assert (Hmin : MinInt = -9223372036854775808) by reflexivity.
  assert (HmaxInt : MaxInt = 9223372036854775807) by reflexivity.
  rewrite (int_add_id i) by lia. rewrite int_sub_id by lia.
  rewrite Z.min_l by lia. rewrite slice_returned by lia. simpl.
  destruct (Chain (chain g) !! _); [|by eexists].
  destruct (_ <? _)%float; eexists; (split; [done|]); simpl; lia.
Qed.

(** [findThematicStartPosition] returns a position of the token sequence. *)
Lemma findThematicStartPosition_returned g tokens keywords :
  1 ≤ Order (chain g) ≤ MaxInt → len tokens < MaxInt →
  ∃ startPos, findThematicStartPosition g tokens keywords = Returned startPos
              ∧ 0 ≤ startPos ≤ len tokens.
Proof.
  intros Ho Hlen. unfold findThematicStartPosition.
  assert (Hmin : MinInt = -9223372036854775808) by reflexivity.
  assert (HmaxInt : MaxInt = 9223372036854775807) by reflexivity.
  pose proof (len_nonneg tokens) as Hlen0.
  rewrite (int_sub_id (len tokens)) by lia. rewrite int_add_id by lia.
  destruct (foldM_invariant (λ best : Z * float, 0 ≤ best.1 ≤ len tokens)
              (startPositionStep g tokens keywords)
              (seqZ 0 (len tokens - Order (chain g) + 1 + 1)) (0, (-1.0)%float))
    as (best & -> & Hbest).
  - simpl. lia.
  - intros best i Hbest Hi%elem_of_seqZ.
    apply startPositionStep_returned; [lia|done|lia|done].
  - simpl. eauto.
Qed.

Lemma grown_shape (l : list string) : n (grown l) = len l ∧ len l ≤ cap (grown l).
Proof.
  unfold grown, cap. simpl. split; [done|]. rewrite len_app. pose proof (len_nonneg
    (replicate (Z.to_nat (append_cap (len l) - len l)) "")). lia.
Qed.

(** [generateFromSentence] returns. *)
Lemma generateFromSentence_returned g sentence keywords draws :
  1 ≤ Order (chain g) ≤ MaxInt → maxLength g ≤ MaxInt →
  len (Tokenizer.Tokenize (tokenizer g) sentence) < MaxInt →
  ∃ answer, generateFromSentence g sentence keywords draws = Returned answer.
Proof.
  intros Ho Hmax Hlen. unfold generateFromSentence.
  set (cleanTokens := filter _ (Tokenizer.Tokenize (tokenizer g) sentence)).
  assert (Hclean : len cleanTokens < MaxInt).
  { subst cleanTokens. unfold len in *.
    pose proof (length_filter (λ token, token ≠ "<start>" ∧ token ≠ "<end>")
                  (Tokenizer.Tokenize (tokenizer g) sentence)). lia. }
  destruct (len cleanTokens =? 0); [by eexists|].
  destruct (findThematicStartPosition_returned g cleanTokens keywords)
    as (startPos & -> & Hstart); [done|done|]. simpl.
  unfold generateThematicContinuation.
  destruct (grown_shape cleanTokens) as [Hn Hcap].
  pose proof (len_nonneg cleanTokens).
  destruct (ContinuationFacts.continuationTokens_returned g (grown cleanTokens) startPos
              keywords draws) as (produced & -> & _); [done|done|lia|lia|lia|].
  simpl. by eexists.
Qed.

(** [GenerateAnswer] returns for every question: it does not panic when
    the order is positive and every sentence of the index has fewer than
    [MaxInt] tokens. *)
Lemma GenerateAnswer_returned g w question :
  valid_order (searchOrder w) →
  1 ≤ Order (chain g) ≤ MaxInt → maxLength g ≤ MaxInt →
  (∀ k l s, Index (chain g) !! k = Some l → s ∈ l →
     len (Tokenizer.Tokenize (tokenizer g) s) < MaxInt) →
  ∃ answer, GenerateAnswer g w question = Returned answer.
Proof.
  intros Hord Ho Hmax Hidx. unfold GenerateAnswer.
  destruct (len (extractKeywords g question) =? 0); [by eexists|].
  set (searchKeywords := if 0 <? len _ then _ else _).
  set (relevantSentences := Search _ _ _ _).
  destruct (len relevantSentences =? 0) eqn:E; [by eexists|].
  assert (relevantSentences ≠ []) as Hne by (intros Heq; by rewrite Heq in E).
  pose proof (findBestSentence_elem_of g relevantSentences searchKeywords Hne) as Hbest.
  apply Search_indexed in Hbest as (k & l & Hk & Hin); [|done].
  destruct (generateFromSentence_returned g
              (findBestSentence g relevantSentences searchKeywords) searchKeywords (draws w))
    as (answer & ->); [done|done|by eapply Hidx|].
  simpl. by eexists.
Qed.


End with_lib.
End TotalityFacts.

(* ===================================================================== *)
(** * The ranges whose visiting order does not matter *)
(* ===================================================================== *)

Module RangeFacts.
Import Go GoFacts Spec GeneratorSpec SumFacts Trainer Generator EntropyFacts.

(** X4. The sum [calculateSums] computes for a prefix is the same in
    every visiting order of its successors. *)
Theorem sumCounts_any_order (suffixes : gmap string Z) (visited : list (string * Z)) :
  visited ≡ₚ map_to_list suffixes →
  foldl (λ sum e, int_add sum e.2) 0 visited = sumCounts suffixes.
Proof.
  intros Hperm. unfold sumCounts.
  assert (∀ l : list (string * Z),
            foldl (λ sum e, int_add sum e.2) 0 l = wrap64 (Zsum l.*2)) as Hsum.
  { intros l. transitivity (foldl int_add (wrap64 0) l.*2).
    - by rewrite foldl_fmap.
    - rewrite foldl_int_add_wrap. f_equal. }
  rewrite !Hsum. by rewrite Hperm.
Qed.

Lemma bump_comm (m : gmap string Z) k1 k2 : bump (bump m k1) k2 = bump (bump m k2) k1.
Proof.
  destruct (decide (k1 = k2)) as [->|Hne]; [done|].
  unfold bump, get. rewrite !lookup_insert_ne by done.
  by apply insert_insert_ne.
Qed.

Lemma observe_comm tc o1 o2 : observe (observe tc o1) o2 = observe (observe tc o2) o1.
Proof.
  destruct o1 as [t1 k1], o2 as [t2 k2]. unfold observe. simpl.
  destruct (decide (t1 = t2)) as [->|Hne].
  - rewrite !lookup_insert_eq, !insert_insert_eq. simpl. by rewrite bump_comm.
  - rewrite !lookup_insert_ne by done. by apply insert_insert_ne.
Qed.

Lemma foldl_observe_perm obs obs' tc :
  obs ≡ₚ obs' → foldl observe tc obs = foldl observe tc obs'.
Proof.
  intros Hperm. revert tc.
  induction Hperm as [|o obs obs' _ IH|o1 o2 obs|obs1 obs2 obs3 _ IH1 _ IH2];
    intros tc; simpl.
  - done.
  - apply IH.
  - by rewrite observe_comm.
  - by rewrite IH1.
Qed.

Section with_lib.
Context `{!GoLib}.

(** X3. The histogram of [analyzeEntropy] is the same in whatever order
    the observations are made, and so in every visiting order of the chain
    and of the successors of its prefixes. *)
Theorem tokenContextsOf_any_order chain obs :
  obs ≡ₚ observations chain → foldl observe ∅ obs = tokenContextsOf chain.
Proof.
  intros Hperm. rewrite tokenContextsOf_foldl. by apply foldl_observe_perm.
Qed.

End with_lib.
End RangeFacts.

Module IndexFacts.
Import Go GoFacts Trainer.

Lemma uniqueSentences_fresh unique sentences s :
  s ∈ uniqueSentences unique sentences → (s ∉ unique) ∧ (s ∈ sentences).
Proof.
  revert unique. induction sentences as [|t sentences IH]; intros unique; simpl.
  - intros Hs. by apply elem_of_nil in Hs.
  - destruct (decide (t ∈ unique)) as [Hin|Hin].
    + intros Hs. destruct (IH _ Hs) as [Hs' Hin']. split; [done|by right].
    + intros Hs. apply elem_of_cons in Hs as [Heq|Hs].
      * subst s. split; [done|left].
      * destruct (IH _ Hs) as [Hs' Hin']. split; [|by right].
        intros Hu. apply Hs', elem_of_union. by right.
Qed.

(** The second pass of [buildIndexAndVocab] leaves no sentence twice. *)
Lemma uniqueSentences_NoDup unique sentences : NoDup (uniqueSentences unique sentences).
Proof.
  revert unique. induction sentences as [|t sentences IH]; intros unique; simpl.
  - constructor.
  - destruct (decide (t ∈ unique)); [apply IH|].
    constructor; [|apply IH].
    intros Ht. apply uniqueSentences_fresh in Ht as [Hfresh _].
    apply Hfresh, elem_of_union. left. by apply elem_of_singleton.
Qed.

Lemma processSentence_Index mc sentence mc' :
  processSentence mc sentence = Returned mc' → Index mc' = Index mc.
Proof.
  unfold processSentence. destruct (len sentence <? Order mc); [by intros [= <-]|].
  destruct (foldM _ _ _); simpl; [|done..]. by intros [= <-].
Qed.

Lemma foldM_processSentence_Index sentences mc mc' :
  foldM processSentence mc sentences = Returned mc' → Index mc' = Index mc.
Proof.
  revert mc. induction sentences as [|s sentences IH]; intros mc; simpl.
  - by intros [= <-].
  - destruct (processSentence mc s) as [mc1| |] eqn:E; simpl; [|done..].
    intros Hrest. apply IH in Hrest. rewrite Hrest. by eapply processSentence_Index.
Qed.

(** X2. After a successful [Train], no entry of the index holds a
    sentence twice. *)
Theorem Train_Index_NoDup mc tokenizedSentences mc' :
  Train mc tokenizedSentences = Returned (mc', None) →
  ∀ k l, Index mc' !! k = Some l → NoDup l.
Proof.
  unfold Train. destruct (len tokenizedSentences =? 0); [done|].
  destruct (foldM _ _ _) as [mc1| |] eqn:E; simpl; [|done..].
  intros [= <-] k l. simpl.
  rewrite (foldM_processSentence_Index _ _ _ E).
  unfold buildIndexAndVocab. destruct (foldl _ _ _) as [vocab index]. simpl.
  rewrite lookup_fmap. destruct (index !! k); simpl; [|done].
  intros [= <-]. apply uniqueSentences_NoDup.
Qed.

End IndexFacts.

(* ===================================================================== *)
(** * Training: the chain, the index and the vocabulary *)
(* ===================================================================== *)

Module WindowFacts.
Import Go GoFacts Spec SumFacts Trainer TrainerFacts ChainFacts.

Lemma processWindow_window order sentence chain i :
  1 ≤ order → len sentence ≤ MaxInt → 0 ≤ i ≤ len sentence - order →
  ∃ s, windowSuffix order sentence i = Some s ∧
       processWindow order sentence chain i
       = Returned (addTransition chain (joinTokens (windowPrefix order sentence i)) s).
Proof.
  intros Ho Hlen Hi. unfold processWindow, windowSuffix, windowPrefix.
  assert (Hmax : MaxInt = 9223372036854775807) by reflexivity.
  assert (Hmin : MinInt = -9223372036854775808) by reflexivity.
  rewrite (int_add_id i order) by lia.
  rewrite (int_sub_id (i + order) 1) by lia.
  rewrite slice_returned by lia. simpl.
  destruct (index_returned sentence (i + order - 1)) as (x & -> & Hx); [lia|].
  simpl. exists x. split; [done|].
  by replace (i + order - 1 - i) with (order - 1) by lia.
Qed.

Lemma recorded_addTransition chain p' s' p s :
  recorded (addTransition chain p' s') p s ↔ recorded chain p s ∨ (p = p' ∧ s = s').
Proof.
  unfold recorded, addTransition, bump.
  destruct (decide (p = p')) as [->|Hp].
  - rewrite lookup_insert_eq. destruct (decide (s = s')) as [->|Hs].
    + split; [intros _; by right|]. intros _. eexists. split; [done|].
      by rewrite lookup_insert_eq.
    + split.
      * intros (suffixes & [= <-] & Hsome). rewrite lookup_insert_ne in Hsome by done.
        left. destruct (chain !! p') as [m|]; simpl in *; [by exists m|].
        rewrite lookup_empty in Hsome. by destruct Hsome.
      * intros [(suffixes & Hp & Hsome)|[_ ?]]; [|done].
        eexists. split; [done|]. rewrite lookup_insert_ne by done. by rewrite Hp.
  - rewrite lookup_insert_ne by done. split; [by left|]. by intros [?|[? _]].
Qed.

Lemma windows_recorded order sentence (l : list Z) chain :
  1 ≤ order → len sentence ≤ MaxInt →
  Forall (λ i, 0 ≤ i ≤ len sentence - order) l →
  ∃ chain', foldM (processWindow order sentence) chain l = Returned chain' ∧
    ∀ p s, recorded chain' p s ↔
      recorded chain p s ∨
      ∃ i, i ∈ l ∧ p = joinTokens (windowPrefix order sentence i)
           ∧ windowSuffix order sentence i = Some s.
Proof.
  intros Ho Hlen Hl. revert chain.
  induction Hl as [|i l Hi Hl IH]; intros chain; simpl.
  - exists chain. split; [done|]. intros p s. split; [by left|].
    intros [?|(i & Hi & _)]; [done|]. by apply elem_of_nil in Hi.
  - destruct (processWindow_window order sentence chain i) as (x & Hx & ->); [done..|].
    simpl. destruct (IH (addTransition chain (joinTokens (windowPrefix order sentence i)) x))
      as (chain' & -> & Hrec).
    exists chain'. split; [done|]. intros p s. rewrite Hrec, recorded_addTransition.
    split.
    + intros [[?|[-> ->]]|(j & Hj & ? & ?)]; [by left| |].
      * right. exists i. split; [left|done].
      * right. exists j. split; [by right|done].
    + intros [?|(j & Hj & Hp & Hs)]; [by left; left|].
      apply elem_of_cons in Hj as [->|Hj].
      * left. right. split; [done|]. congruence.
      * right. by exists j.
Qed.

Lemma processSentence_recorded mc sentence :
  1 ≤ Order mc → len sentence ≤ MaxInt →
  ∃ mc', processSentence mc sentence = Returned mc' ∧ Order mc' = Order mc ∧
    ∀ p s, recorded (Chain mc') p s ↔
      recorded (Chain mc) p s ∨ isWindow (Order mc) [sentence] p s.
Proof.
  intros Ho Hlen. unfold processSentence.
  assert (Hmin : MinInt = -9223372036854775808) by reflexivity.
  pose proof (len_nonneg sentence) as Hlen0.
  destruct (len sentence <? Order mc) eqn:Hlt.
  - apply Z.ltb_lt in Hlt. exists mc. split; [done|]. split; [done|].
    intros p s. split; [by left|]. intros [?|(x & i & Hx & Hi & _)]; [done|].
    apply list_elem_of_singleton in Hx. subst x. lia.
  - apply Z.ltb_ge in Hlt.
    rewrite (int_sub_id (len sentence) (Order mc)) by lia.
    destruct (windows_recorded (Order mc) sentence
                (seqZ 0 (len sentence - Order mc + 1)) (Chain mc))
      as (chain' & -> & Hrec); [done|done| |].
    { apply Forall_forall. intros i Hi%elem_of_seqZ. lia. }
    simpl. eexists. split; [done|]. simpl. split; [done|].
    intros p s. rewrite Hrec. split.
    + intros [?|(i & Hi%elem_of_seqZ & Hp & Hs)]; [by left|].
      right. exists sentence, i. split; [by apply list_elem_of_singleton|].
      split; [lia|done].
    + intros [?|(x & i & Hx & Hi & Hp & Hs)]; [by left|].
      apply list_elem_of_singleton in Hx. subst x.
      right. exists i. split; [|done]. apply elem_of_seqZ. lia.
Qed.

Lemma isWindow_cons order sentence corpus p s :
  isWindow order (sentence :: corpus) p s
  ↔ isWindow order [sentence] p s ∨ isWindow order corpus p s.
Proof.
  unfold isWindow. split.
  - intros (x & i & Hx & Hrest). apply elem_of_cons in Hx as [->|Hx].
    + left. exists sentence, i. split; [by apply list_elem_of_singleton|done].
    + right. by exists x, i.
  - intros [(x & i & Hx & Hrest)|(x & i & Hx & Hrest)].
    + apply list_elem_of_singleton in Hx. subst x. exists sentence, i. split; [left|done].
    + exists x, i. split; [by right|done].
Qed.

Lemma sentences_recorded corpus mc :
  1 ≤ Order mc → Forall (λ s, len s ≤ MaxInt) corpus →
  ∃ mc', foldM processSentence mc corpus = Returned mc' ∧ Order mc' = Order mc ∧
    ∀ p s, recorded (Chain mc') p s ↔
      recorded (Chain mc) p s ∨ isWindow (Order mc) corpus p s.
Proof.
  intros Ho Hall. revert mc Ho.
  induction Hall as [|sentence corpus Hlen Hall IH]; intros mc Ho; simpl.
  - exists mc. split; [done|]. split; [done|]. intros p s. split; [by left|].
    intros [?|(x & i & Hx & _)]; [done|]. by apply elem_of_nil in Hx.
  - destruct (processSentence_recorded mc sentence) as (mc1 & -> & Ho1 & Hrec1); [done..|].
    simpl. destruct (IH mc1) as (mc' & -> & Ho' & Hrec'); [lia|].
    exists mc'. split; [done|]. split; [congruence|].
    intros p s. rewrite Hrec', Hrec1, Ho1, (isWindow_cons _ sentence corpus). tauto.
Qed.

(** X5. Training records exactly the n-grams of the corpus: a successor is
    recorded after a prefix key when it was before, or when the two are an
    n-gram of a sentence of the corpus; and every n-gram of the corpus can
    be looked up with [GetNextTokens]. *)
Theorem Train_records_windows (mc : MarkovChain) (corpus : list (list string)) :
  1 ≤ Order mc → Forall (λ s, len s ≤ MaxInt) corpus → corpus ≠ [] →
  ∃ mc', Train mc corpus = Returned (mc', None) ∧
    (∀ p s, recorded (Chain mc') p s ↔
       recorded (Chain mc) p s ∨ isWindow (Order mc) corpus p s) ∧
    (∀ sentence i s, sentence ∈ corpus → 0 ≤ i ≤ len sentence - Order mc →
       windowSuffix (Order mc) sentence i = Some s →
       ∃ probabilities,
         GetNextTokens mc' (windowPrefix (Order mc) sentence i) = Some probabilities
         ∧ s ∈ dom probabilities).
Proof.
  intros Ho Hall Hne. unfold Train.
  destruct (len corpus =? 0) eqn:Hlen; [by apply len_nil_iff in Hlen|].
  destruct (buildIndexAndVocab_Chain mc corpus) as (Hchain0 & _ & Horder0).
  destruct (sentences_recorded corpus (buildIndexAndVocab mc corpus))
    as (mc1 & -> & Ho1 & Hrec); [lia|done|].
  simpl. eexists. split; [done|]. simpl.
  rewrite Hchain0, Horder0 in Hrec. split; [done|].
  intros sentence i s Hin Hi Hs.
  destruct (proj2 (Hrec (joinTokens (windowPrefix (Order mc) sentence i)) s))
    as (suffixes & Hp & Hsome).
  { right. by exists sentence, i. }
  unfold GetNextTokens, GetNextTokens_in. simpl. rewrite Hp.
  eexists. split; [done|]. rewrite dom_fmap. by apply elem_of_dom.
Qed.

End WindowFacts.

Module VocabFacts.
Import Go GoFacts Spec Trainer IndexFacts.

Lemma marker_eqb token :
  String.eqb token "<start>" || String.eqb token "<end>" = true ↔ marker token.
Proof.
  unfold marker. rewrite orb_true_iff, !String.eqb_eq. done.
Qed.

Lemma uniqueSentences_complete unique sentences s :
  s ∈ sentences → s ∉ unique → s ∈ uniqueSentences unique sentences.
Proof.
  revert unique. induction sentences as [|t sentences IH]; intros unique Hs Hfresh; simpl.
  - by apply elem_of_nil in Hs.
  - apply elem_of_cons in Hs as [->|Hs].
    + rewrite decide_False by done. left.
    + destruct (decide (t ∈ unique)); [by apply IH|].
      destruct (decide (s = t)) as [->|Hne]; [left|]. right. apply IH; [done|].
      intros [Hst%elem_of_singleton|?]%elem_of_union; done.
Qed.

Lemma uniqueSentences_elem_of sentences s :
  s ∈ uniqueSentences ∅ sentences ↔ s ∈ sentences.
Proof.
  split.
  - intros Hs. by apply uniqueSentences_fresh in Hs as [_ ?].
  - intros Hs. apply uniqueSentences_complete; [done|]. apply not_elem_of_empty.
Qed.

Lemma indexToken_listed originalSentence vocab index tok token s :
  s ∈ default [] ((indexToken originalSentence (vocab, index) tok).2 !! token)
  ↔ s ∈ default [] (index !! token)
    ∨ (tok = token ∧ ¬ marker tok ∧ s = originalSentence).
Proof.
  unfold indexToken.
  destruct (String.eqb tok "<start>" || String.eqb tok "<end>") eqn:E.
  - apply marker_eqb in E. simpl. split; [by left|]. by intros [?|(_ & ? & _)].
  - assert (¬ marker tok) as Hnm.
    { intros Hm%marker_eqb. congruence. }
    simpl. destruct (decide (tok = token)) as [->|Hne].
    + rewrite lookup_insert_eq. simpl. rewrite elem_of_app, list_elem_of_singleton.
      split; [intros [?|?]; [by left|by right]|]. intros [?|(_ & _ & ?)]; [by left|by right].
    + rewrite lookup_insert_ne by done. split; [by left|]. by intros [?|(? & _)].
Qed.

Lemma indexToken_dom originalSentence vocab index tok :
  dom index = dom vocab →
  dom (indexToken originalSentence (vocab, index) tok).2
  = dom (indexToken originalSentence (vocab, index) tok).1.
Proof.
  intros Hdom. unfold indexToken.
  destruct (String.eqb tok "<start>" || String.eqb tok "<end>"); simpl; [done|].
  unfold bump. by rewrite !dom_insert_L, Hdom.
Qed.

Lemma foldl_indexToken originalSentence (sentence : list string) st token s :
  s ∈ default [] ((foldl (indexToken originalSentence) st sentence).2 !! token)
  ↔ s ∈ default [] (st.2 !! token)
    ∨ (token ∈ sentence ∧ ¬ marker token ∧ s = originalSentence).
Proof.
  revert st. induction sentence as [|tok sentence IH]; intros [vocab index]; cbn [foldl].
  - split; [by left|]. intros [?|(Hin & _)]; [done|]. by apply elem_of_nil in Hin.
  - rewrite IH, indexToken_listed, elem_of_cons. split.
    + intros [[?|(-> & ? & ?)]|(? & ? & ?)]; [by left|right|right]; split; auto.
    + intros [?|([->|?] & ? & ?)]; [by left; left|left; by right|by right].
Qed.

Lemma foldl_indexToken_dom originalSentence (sentence : list string) st :
  dom st.2 = dom st.1 →
  dom (foldl (indexToken originalSentence) st sentence).2
  = dom (foldl (indexToken originalSentence) st sentence).1.
Proof.
  revert st. induction sentence as [|tok sentence IH]; intros [vocab index] Hdom;
    cbn [foldl]; [done|].
  apply IH. destruct (indexToken _ _ _) as [v i] eqn:E. simpl.
  change i with (v, i).2. change v with (v, i).1 at 2. rewrite <- E.
  by apply indexToken_dom.
Qed.

Lemma foldl_indexSentence (corpus : list (list string)) st token s :
  s ∈ default [] ((foldl indexSentence st corpus).2 !! token)
  ↔ s ∈ default [] (st.2 !! token)
    ∨ (¬ marker token ∧
       ∃ sentence, sentence ∈ corpus ∧ token ∈ sentence ∧ s = joinSentence sentence).
Proof.
  revert st. induction corpus as [|sentence corpus IH]; intros st; cbn [foldl].
  - split; [by left|]. intros [?|(_ & x & Hx & _)]; [done|]. by apply elem_of_nil in Hx.
  - rewrite IH. unfold indexSentence. rewrite foldl_indexToken. split.
    + intros [[?|(? & ? & ?)]|(? & x & ? & ? & ?)]; [by left| |].
      * right. split; [done|]. exists sentence. split; [left|done].
      * right. split; [done|]. exists x. split; [by right|done].
    + intros [?|(? & x & [->|?]%elem_of_cons & ? & ?)]; [by left; left| |].
      * left. by right.
      * right. split; [done|]. by exists x.
Qed.

Lemma foldl_indexSentence_dom (corpus : list (list string)) st :
  dom st.2 = dom st.1 →
  dom (foldl indexSentence st corpus).2 = dom (foldl indexSentence st corpus).1.
Proof.
  revert st. induction corpus as [|sentence corpus IH]; intros st Hdom; cbn [foldl]; [done|].
  apply IH. by apply foldl_indexToken_dom.
Qed.

Lemma processSentence_Vocab mc sentence mc' :
  processSentence mc sentence = Returned mc' → Vocab mc' = Vocab mc.
Proof.
  unfold processSentence. destruct (len sentence <? Order mc); [by intros [= <-]|].
  destruct (foldM _ _ _); simpl; [|done..]. by intros [= <-].
Qed.

Lemma foldM_processSentence_Vocab sentences mc mc' :
  foldM processSentence mc sentences = Returned mc' → Vocab mc' = Vocab mc.
Proof.
  revert mc. induction sentences as [|s sentences IH]; intros mc; simpl.
  - by intros [= <-].
  - destruct (processSentence mc s) as [mc1| |] eqn:E; simpl; [|done..].
    intros Hrest. apply IH in Hrest. rewrite Hrest. by eapply processSentence_Vocab.
Qed.

(** What [Train] leaves in the fields [Index] and [Vocab]. *)
Lemma Train_Index_Vocab mc corpus mc' :
  Train mc corpus = Returned (mc', None) →
  Index mc' = uniqueSentences ∅ <$> (foldl indexSentence (Vocab mc, Index mc) corpus).2
  ∧ Vocab mc' = (foldl indexSentence (Vocab mc, Index mc) corpus).1.
Proof.
  unfold Train. destruct (len corpus =? 0); [done|].
  destruct (foldM _ _ _) as [mc1| |] eqn:E; simpl; [|done..].
  intros [= <-]. simpl.
  rewrite (foldM_processSentence_Index _ _ _ E), (foldM_processSentence_Vocab _ _ _ E).
  unfold buildIndexAndVocab. by destruct (foldl _ _ _).
Qed.

(** X6. After training, the index lists under a token the sentences it listed
    before and the sentences of the corpus that hold the token, and no
    other; the boundary markers are not indexed; and the index and the
    vocabulary have the same tokens when they had before. *)
Theorem Train_index_exact (mc : MarkovChain) (corpus : list (list string))
    (mc' : MarkovChain) :
  Train mc corpus = Returned (mc', None) →
  (∀ token s,
     s ∈ default [] (Index mc' !! token)
     ↔ s ∈ default [] (Index mc !! token)
       ∨ (¬ marker token ∧
          ∃ sentence, sentence ∈ corpus ∧ token ∈ sentence ∧ s = joinSentence sentence)) ∧
  (dom (Index mc) = dom (Vocab mc) → dom (Index mc') = dom (Vocab mc')).
Proof.
  intros Hrun. destruct (Train_Index_Vocab mc corpus mc' Hrun) as [-> ->]. split.
  - intros token s. rewrite <- (foldl_indexSentence corpus (Vocab mc, Index mc)).
    rewrite lookup_fmap.
    destruct ((foldl indexSentence (Vocab mc, Index mc) corpus).2 !! token); simpl; [|done].
    apply uniqueSentences_elem_of.
  - intros Hdom. rewrite dom_fmap_L. by apply foldl_indexSentence_dom.
Qed.

Lemma withoutMarkers_bump_marker m token : marker token → withoutMarkers (bump m token) = withoutMarkers m.
Proof.
  unfold withoutMarkers, bump. intros [->| ->].
  - rewrite (delete_insert_ne _ "<end>" "<start>") by done. by rewrite delete_insert_eq.
  - by rewrite delete_insert_eq.
Qed.

Lemma withoutMarkers_bump m token : ¬ marker token → withoutMarkers (bump m token) = bump (withoutMarkers m) token.
Proof.
  unfold withoutMarkers, bump, marker. intros Hnm.
  assert (token ≠ "<start>" ∧ token ≠ "<end>") as [H1 H2] by tauto.
  rewrite !delete_insert_ne by done. unfold get.
  by rewrite !lookup_delete_ne.
Qed.

Lemma foldl_indexToken_withoutMarkers originalSentence (sentence : list string) vocab index m :
  vocab = withoutMarkers m →
  (foldl (indexToken originalSentence) (vocab, index) sentence).1
  = withoutMarkers (foldl bump m sentence).
Proof.
  revert vocab index m. induction sentence as [|tok sentence IH]; intros vocab index m ->;
    cbn [foldl]; [done|].
  unfold indexToken at 2.
  destruct (String.eqb tok "<start>" || String.eqb tok "<end>") eqn:E.
  - apply marker_eqb in E. apply IH. by rewrite withoutMarkers_bump_marker.
  - apply IH. rewrite withoutMarkers_bump; [done|]. intros Hm%marker_eqb. congruence.
Qed.

Lemma foldl_indexSentence_withoutMarkers (corpus : list (list string)) vocab index m :
  vocab = withoutMarkers m →
  (foldl indexSentence (vocab, index) corpus).1
  = withoutMarkers (foldl (λ vocab sentence, foldl bump vocab sentence) m corpus).
Proof.
  revert vocab index m. induction corpus as [|sentence corpus IH]; intros vocab index m ->;
    cbn [foldl]; [done|].
  unfold indexSentence at 2.
  destruct (foldl (indexToken (joinSentence sentence)) (withoutMarkers m, index) sentence)
    as [v i] eqn:E.
  apply IH. change v with (v, i).1. rewrite <- E. by apply foldl_indexToken_withoutMarkers.
Qed.

(** X7. The vocabulary of a model trained from scratch is the vocabulary the
    tokenizer counts for the corpus, without the two boundary markers. *)
Theorem Train_Vocab_Vocabulary (t : Tokenizer.Tokenizer) (config : TrainConfig.t)
    (corpus : list (list string)) (mc' : MarkovChain) :
  Train (NewMarkovTrainer config) corpus = Returned (mc', None) →
  Vocab mc' = delete "<start>" (delete "<end>" (Tokenizer.Vocabulary t corpus)).
Proof.
  intros Hrun. destruct (Train_Index_Vocab _ corpus mc' Hrun) as [_ ->]. simpl.
  apply foldl_indexSentence_withoutMarkers. unfold withoutMarkers. by rewrite !delete_empty.
Qed.

End VocabFacts.

Module IncrementalFacts.
Import Go GoFacts Spec Trainer TrainerFacts ChainFacts IndexFacts VocabFacts.

(** ** Removing duplicates *)

Lemma uniqueSentences_app unique (x y : list string) :
  uniqueSentences unique (x ++ y)
  = uniqueSentences unique x ++ uniqueSentences (list_to_set x ∪ unique) y.
Proof.
  revert unique. induction x as [|s x IH]; intros unique; simpl.
  - by rewrite (left_id_L ∅ (∪)).
  - destruct (decide (s ∈ unique)) as [Hin|Hin]; rewrite IH; simpl.
    + do 2 f_equal. apply set_eq. intros t.
      rewrite !elem_of_union, elem_of_singleton. split; [tauto|].
      intros [[->|?]|?]; tauto.
    + do 3 f_equal. apply set_eq. intros t.
      rewrite !elem_of_union, elem_of_singleton. tauto.
Qed.

Lemma uniqueSentences_id unique (l : list string) :
  NoDup l → (∀ s, s ∈ l → s ∉ unique) → uniqueSentences unique l = l.
Proof.
  intros Hnd. revert unique. induction Hnd as [|s l Hs Hnd IH]; intros unique Hfresh; simpl.
  - done.
  - rewrite decide_False by (apply Hfresh; left). f_equal. apply IH.
    intros t Ht [Heq%elem_of_singleton|Hu]%elem_of_union; [by subst|].
    by apply (Hfresh t); [right|].
Qed.

Lemma uniqueSentences_idemp (l : list string) :
  uniqueSentences ∅ (uniqueSentences ∅ l) = uniqueSentences ∅ l.
Proof.
  apply uniqueSentences_id; [apply uniqueSentences_NoDup|].
  intros s _. apply not_elem_of_empty.
Qed.

(** Removing the duplicates of a list extended at its end depends on the
    list only through what is left of it without its duplicates. *)
Lemma uniqueSentences_extend (l l' x : list string) :
  uniqueSentences ∅ l = uniqueSentences ∅ l' →
  uniqueSentences ∅ (l ++ x) = uniqueSentences ∅ (l' ++ x).
Proof.
  intros Heq. rewrite !uniqueSentences_app, Heq. f_equal. f_equal. f_equal.
  apply set_eq. intros s. rewrite !elem_of_list_to_set.
  rewrite <- (uniqueSentences_elem_of l), <- (uniqueSentences_elem_of l'). by rewrite Heq.
Qed.

(** ** The index and the vocabulary *)

Lemma indexToken_sameUnique originalSentence vocab index index' tok :
  sameUnique index index' →
  (indexToken originalSentence (vocab, index) tok).1
  = (indexToken originalSentence (vocab, index') tok).1
  ∧ sameUnique (indexToken originalSentence (vocab, index) tok).2
               (indexToken originalSentence (vocab, index') tok).2.
Proof.
  intros Hsame. unfold indexToken.
  destruct (String.eqb tok "<start>" || String.eqb tok "<end>"); simpl; [done|].
  split; [done|]. unfold sameUnique in *. rewrite !fmap_insert, Hsame. f_equal.
  apply uniqueSentences_extend.
  pose proof (f_equal (λ m : gmap string (list string), m !! tok) Hsame) as Htok.
  simpl in Htok. rewrite !lookup_fmap in Htok.
  destruct (index !! tok), (index' !! tok); simpl in *; try done. by injection Htok.
Qed.

Lemma foldl_indexToken_sameUnique originalSentence (sentence : list string)
    vocab index index' :
  sameUnique index index' →
  (foldl (indexToken originalSentence) (vocab, index) sentence).1
  = (foldl (indexToken originalSentence) (vocab, index') sentence).1
  ∧ sameUnique (foldl (indexToken originalSentence) (vocab, index) sentence).2
               (foldl (indexToken originalSentence) (vocab, index') sentence).2.
Proof.
  revert vocab index index'.
  induction sentence as [|tok sentence IH]; intros vocab index index' Hsame;
    cbn [foldl]; [done|].
  destruct (indexToken_sameUnique originalSentence vocab index index' tok Hsame)
    as [Hv Hi].
  destruct (indexToken originalSentence (vocab, index) tok) as [v1 i1].
  destruct (indexToken originalSentence (vocab, index') tok) as [v2 i2].
  simpl in Hv, Hi. subst v2. by apply IH.
Qed.

Lemma foldl_indexSentence_sameUnique (corpus : list (list string)) vocab index index' :
  sameUnique index index' →
  (foldl indexSentence (vocab, index) corpus).1
  = (foldl indexSentence (vocab, index') corpus).1
  ∧ sameUnique (foldl indexSentence (vocab, index) corpus).2
               (foldl indexSentence (vocab, index') corpus).2.
Proof.
  revert vocab index index'.
  induction corpus as [|sentence corpus IH]; intros vocab index index' Hsame;
    cbn [foldl]; [done|].
  change (indexSentence (vocab, index) sentence)
    with (foldl (indexToken (joinSentence sentence)) (vocab, index) sentence).
  change (indexSentence (vocab, index') sentence)
    with (foldl (indexToken (joinSentence sentence)) (vocab, index') sentence).
  destruct (foldl_indexToken_sameUnique (joinSentence sentence) sentence
              vocab index index' Hsame) as [Hv Hi].
  destruct (foldl (indexToken (joinSentence sentence)) (vocab, index) sentence) as [v1 i1].
  destruct (foldl (indexToken (joinSentence sentence)) (vocab, index') sentence) as [v2 i2].
  simpl in Hv, Hi. subst v2. by apply IH.
Qed.

(** ** The chain *)

Lemma addTransition_keeps chain prefix suffix k :
  is_Some (chain !! k) → is_Some (addTransition chain prefix suffix !! k).
Proof.
  intros Hk. unfold addTransition. destruct (decide (prefix = k)) as [->|Hne].
  - by rewrite lookup_insert_eq.
  - by rewrite lookup_insert_ne.
Qed.

Lemma processWindow_keeps order sentence chain i chain' k :
  processWindow order sentence chain i = Returned chain' →
  is_Some (chain !! k) → is_Some (chain' !! k).
Proof.
  unfold processWindow. destruct (slice _ _ _); simpl; [|done..].
  destruct (index _ _); simpl; [|done..]. intros [= <-]. apply addTransition_keeps.
Qed.

Lemma foldM_keeps {A} (body : gmap string (gmap string Z) → A → outcome _) l chain chain' k :
  (∀ c x c', body c x = Returned c' → is_Some (c !! k) → is_Some (c' !! k)) →
  foldM body chain l = Returned chain' →
  is_Some (chain !! k) → is_Some (chain' !! k).
Proof.
  intros Hbody. revert chain. induction l as [|x l IH]; intros chain; simpl.
  - by intros [= <-].
  - destruct (body chain x) as [c| |] eqn:E; simpl; [|done..].
    intros Hrun Hk. apply (IH c Hrun). by apply (Hbody chain x).
Qed.

(** What [processSentence] does to the fields of the model. *)
Lemma processSentence_fields mc sentence mc' :
  processSentence mc sentence = Returned mc' →
  Order mc' = Order mc ∧ Sums mc' = Sums mc ∧ Index mc' = Index mc ∧
  Vocab mc' = Vocab mc ∧ Topics mc' = Topics mc ∧
  ∀ k, is_Some (Chain mc !! k) → is_Some (Chain mc' !! k).
Proof.
  unfold processSentence. destruct (len sentence <? Order mc).
  - intros [= <-]. by do 5 (split; [done|]).
  - destruct (foldM _ _ _) as [chain| |] eqn:E; simpl; [|done..]. intros [= <-]. simpl.
    do 5 (split; [done|]). intros k. eapply foldM_keeps; [|exact E].
    intros c i c'. apply processWindow_keeps.
Qed.

(** [processSentence] reads the order and the chain of the model only. *)
Lemma processSentence_congr m1 m2 sentence m1' :
  Order m1 = Order m2 → Chain m1 = Chain m2 →
  processSentence m1 sentence = Returned m1' →
  ∃ m2', processSentence m2 sentence = Returned m2' ∧ Chain m2' = Chain m1'.
Proof.
  intros Ho Hc. unfold processSentence. rewrite Ho, Hc.
  destruct (len sentence <? Order m2).
  - intros [= <-]. by eexists.
  - destruct (foldM _ _ _); simpl; [|done..]. intros [= <-]. by eexists.
Qed.

Lemma foldM_processSentence_fields corpus mc mc' :
  foldM processSentence mc corpus = Returned mc' →
  Order mc' = Order mc ∧ Sums mc' = Sums mc ∧ Index mc' = Index mc ∧
  Vocab mc' = Vocab mc ∧ Topics mc' = Topics mc ∧
  ∀ k, is_Some (Chain mc !! k) → is_Some (Chain mc' !! k).
Proof.
  revert mc. induction corpus as [|s corpus IH]; intros mc; simpl.
  - intros [= <-]. by do 5 (split; [done|]).
  - destruct (processSentence mc s) as [mc1| |] eqn:E; simpl; [|done..].
    intros Hrest.
    destruct (processSentence_fields mc s mc1 E) as (Ho & Hs & Hi & Hv & Ht & Hk).
    destruct (IH mc1 Hrest) as (Ho' & Hs' & Hi' & Hv' & Ht' & Hk').
    do 5 (split; [congruence|]). intros k Hsome. by apply Hk', Hk.
Qed.

Lemma foldM_processSentence_congr corpus m1 m2 m1' :
  Order m1 = Order m2 → Chain m1 = Chain m2 →
  foldM processSentence m1 corpus = Returned m1' →
  ∃ m2', foldM processSentence m2 corpus = Returned m2' ∧ Chain m2' = Chain m1'.
Proof.
  revert m1 m2. induction corpus as [|s corpus IH]; intros m1 m2 Ho Hc; simpl.
  - intros [= <-]. by eexists.
  - destruct (processSentence m1 s) as [m1s| |] eqn:E; simpl; [|done..].
    intros Hrest.
    destruct (processSentence_congr m1 m2 s m1s Ho Hc E) as (m2s & H2 & Hc').
    rewrite H2. simpl.
    apply (IH m1s m2s); [|done|done].
    destruct (processSentence_fields m1 s m1s E) as (Ho1 & _).
    destruct (processSentence_fields m2 s m2s H2) as (Ho2 & _). congruence.
Qed.

Lemma foldM_app {A S} (body : S → A → outcome S) (l k : list A) (s : S) :
  foldM body s (l ++ k) = foldM body s l ≫= λ s', foldM body s' k.
Proof.
  revert s. induction l as [|x l IH]; intros s; simpl; [done|].
  destruct (body s x); simpl; [apply IH|done..].
Qed.

Lemma buildIndexAndVocab_fields mc corpus :
  let mc' := buildIndexAndVocab mc corpus in
  Order mc' = Order mc ∧ Chain mc' = Chain mc ∧ Sums mc' = Sums mc ∧
  Topics mc' = Topics mc ∧
  Index mc' = uniqueSentences ∅ <$> (foldl indexSentence (Vocab mc, Index mc) corpus).2 ∧
  Vocab mc' = (foldl indexSentence (Vocab mc, Index mc) corpus).1.
Proof. unfold buildIndexAndVocab. by destruct (foldl _ _ _). Qed.

Lemma Train_returned_inv mc corpus mc' :
  Train mc corpus = Returned (mc', None) →
  corpus ≠ [] ∧
  ∃ m, foldM processSentence (buildIndexAndVocab mc corpus) corpus = Returned m
       ∧ mc' = calculateSums m.
Proof.
  unfold Train. destruct (len corpus =? 0) eqn:E; [done|].
  destruct (foldM _ _ _) as [m| |]; simpl; [|done..]. intros [= <-].
  split; [|by exists m]. intros ->. by compute in E.
Qed.

(** Sums that were computed for an earlier state of the chain are
    replaced when the sums are computed again. *)
Lemma sums_recomputed (chain1 chain2 : gmap string (gmap string Z)) (sums : gmap string Z) :
  (∀ k, is_Some (chain1 !! k) → is_Some (chain2 !! k)) →
  (sumCounts <$> chain2) ∪ ((sumCounts <$> chain1) ∪ sums) = (sumCounts <$> chain2) ∪ sums.
Proof.
  intros Hkeys. apply map_eq. intros k. rewrite !lookup_union, !lookup_fmap.
  destruct (chain2 !! k) as [m2|] eqn:E2; simpl.
  - by rewrite !union_Some_l.
  - destruct (chain1 !! k) as [m1|] eqn:E1; simpl; [|by destruct (sums !! k)].
    destruct (Hkeys k) as [? Hsome]; [by eexists|]. congruence.
Qed.

(** X8. Training on a corpus and then on another leaves the model that
    training on the two corpora at once leaves. *)
Theorem Train_incremental (mc mc1 mc2 : MarkovChain) (a b : list (list string)) :
  Train mc a = Returned (mc1, None) →
  Train mc1 b = Returned (mc2, None) →
  Train mc (a ++ b) = Returned (mc2, None).
Proof.
  intros (Ha & m1 & Hrun1 & ->)%Train_returned_inv (Hb & m2 & Hrun2 & ->)%Train_returned_inv.
  unfold Train.
  destruct (len (a ++ b) =? 0) eqn:E.
  { apply len_nil_iff, app_eq_nil in E as [? _]. done. }
  destruct (buildIndexAndVocab_fields mc a) as (Ho_a & Hc_a & Hs_a & Ht_a & Hi_a & Hv_a).
  destruct (buildIndexAndVocab_fields mc (a ++ b))
    as (Ho_ab & Hc_ab & Hs_ab & Ht_ab & Hi_ab & Hv_ab).
  destruct (buildIndexAndVocab_fields (calculateSums m1) b)
    as (Ho_b & Hc_b & Hs_b & Ht_b & Hi_b & Hv_b).
  destruct (foldM_processSentence_fields a (buildIndexAndVocab mc a) m1 Hrun1)
    as (Ho1 & Hs1 & Hi1 & Hv1 & Ht1 & _).
  destruct (foldM_processSentence_fields b (buildIndexAndVocab (calculateSums m1) b) m2 Hrun2)
    as (Ho2 & Hs2 & Hi2 & Hv2 & Ht2 & Hkeys).
  simpl in Ho_b, Hc_b, Hs_b, Ht_b, Hi_b, Hv_b.
  rewrite foldM_app.
  destruct (foldM_processSentence_congr a (buildIndexAndVocab mc a)
              (buildIndexAndVocab mc (a ++ b)) m1)
    as (mA & HrunA & HcA); [congruence|congruence|exact Hrun1|].
  rewrite HrunA. simpl.
  destruct (foldM_processSentence_fields a (buildIndexAndVocab mc (a ++ b)) mA HrunA)
    as (HoA & HsA & HiA & HvA & HtA & _).
  destruct (foldM_processSentence_congr b (buildIndexAndVocab (calculateSums m1) b) mA m2)
    as (mB & HrunB & HcB); [| |exact Hrun2|].
  { congruence. }
  { congruence. }
  rewrite HrunB. simpl.
  destruct (foldM_processSentence_fields b mA mB HrunB)
    as (HoB & HsB & HiB & HvB & HtB & _).
  do 2 f_equal. unfold calculateSums.
  rewrite HcB, HoB, HoA, Ho_ab, HsB, HsA, Hs_ab, HiB, HiA, Hi_ab, HvB, HvA, Hv_ab,
    HtB, HtA, Ht_ab.
  rewrite Ho2, Ho_b, Ho1, Ho_a, Hs2, Hs_b, Hs1, Hs_a, Hi2, Hi_b, Hv2, Hv_b, Ht2, Ht_b,
    Ht1, Ht_a.
  rewrite Hi1, Hv1, Hi_a, Hv_a.
  rewrite foldl_app.
  destruct (foldl indexSentence (Vocab mc, Index mc) a) as [Va Ia] eqn:Efirst. simpl.
  destruct (foldl_indexSentence_sameUnique b Va Ia (uniqueSentences ∅ <$> Ia))
    as [Hvocab Hindex].
  { unfold sameUnique. rewrite <- map_fmap_compose. apply map_fmap_ext.
    intros k l _. simpl. by rewrite uniqueSentences_idemp. }
  f_equal.
  - symmetry. apply sums_recomputed. intros k Hk. apply Hkeys. by rewrite Hc_b.
  - exact Hindex.
  - exact Hvocab.
Qed.

End IncrementalFacts.

Module StatsFacts.
Import Go GoFacts Spec SumFacts Trainer TrainerFacts ChainFacts.

Lemma windowCount_range order sentence :
  1 ≤ order → 0 ≤ windowCount order sentence ≤ len sentence.
Proof.
  intros Ho. unfold windowCount. pose proof (len_nonneg sentence).
  destruct (len sentence <? order) eqn:E; [lia|]. apply Z.ltb_ge in E. lia.
Qed.

Lemma processSentence_counted_windows mc sentence k :
  1 ≤ Order mc → counted (Chain mc) k → 0 ≤ k → k + len sentence ≤ MaxInt →
  ∃ mc', processSentence mc sentence = Returned mc'
    ∧ counted (Chain mc') (k + windowCount (Order mc) sentence)
    ∧ Order mc' = Order mc ∧ Sums mc' = Sums mc.
Proof.
  intros Ho Hc Hk0 Hk. unfold processSentence, windowCount.
  pose proof (len_nonneg sentence) as Hlen0.
  destruct (len sentence <? Order mc) eqn:Hlt.
  - exists mc. split; [done|]. by rewrite Z.add_0_r.
  - apply Z.ltb_ge in Hlt.
    assert (Hmin : MinInt = -9223372036854775808) by reflexivity.
    rewrite (int_sub_id (len sentence) (Order mc)) by lia.
    set (l := seqZ 0 (len sentence - Order mc + 1)).
    assert (Hll : len l = len sentence - Order mc + 1).
    { subst l. unfold len at 1. rewrite length_seqZ. lia. }
    destruct (windows_counted (Order mc) sentence l (Chain mc) k) as (c' & -> & Hc');
      [done|lia| |done|lia|].
    { subst l. apply Forall_forall. intros i Hi. apply elem_of_seqZ in Hi. lia. }
    simpl. eexists. split; [done|]. simpl. by rewrite <- Hll.
Qed.

Lemma sentences_counted_windows sentences mc k :
  1 ≤ Order mc → counted (Chain mc) k → 0 ≤ k →
  k + len (concat sentences) ≤ MaxInt →
  ∃ mc', foldM processSentence mc sentences = Returned mc'
    ∧ counted (Chain mc') (k + Zsum (windowCount (Order mc) <$> sentences))
    ∧ k + Zsum (windowCount (Order mc) <$> sentences) ≤ MaxInt
    ∧ Sums mc' = Sums mc.
Proof.
  revert mc k. induction sentences as [|s sentences IH]; intros mc k Ho Hc Hk0 Hk.
  - exists mc. simpl in *. unfold len in Hk. simpl in Hk. rewrite Z.add_0_r.
    split; [done|]. split; [done|]. split; [lia|done].
  - simpl in Hk. rewrite len_app in Hk.
    pose proof (len_nonneg (concat sentences)) as Hrest.
    pose proof (windowCount_range (Order mc) s Ho) as Hw.
    destruct (processSentence_counted_windows mc s k) as (mc1 & Hrun & Hc1 & Ho1 & Hs1);
      [done..|lia|].
    destruct (IH mc1 (k + windowCount (Order mc) s)) as (mc' & Hrun' & Hc' & Hk' & Hs');
      [lia|done|lia|lia|].
    rewrite Ho1 in Hc', Hk'.
    assert (Zsum (windowCount (Order mc) <$> s :: sentences)
            = windowCount (Order mc) s + Zsum (windowCount (Order mc) <$> sentences)) as ->
      by reflexivity.
    rewrite Z.add_assoc.
    exists mc'. cbn [foldM]. rewrite Hrun. simpl. rewrite Hrun'.
    split; [done|]. split; [done|]. split; [lia|congruence].
Qed.

Lemma weightedSum_fmap {A B} (f : B → Z) (g : A → B) (m : gmap string A) :
  weightedSum f (g <$> m) = weightedSum (f ∘ g) m.
Proof.
  unfold weightedSum. apply Zsum_perm.
  rewrite map_to_list_fmap, <- !list_fmap_compose. done.
Qed.

Lemma weightedSum_ext {A} (f g : A → Z) (m : gmap string A) :
  (∀ k v, m !! k = Some v → f v = g v) → weightedSum f m = weightedSum g m.
Proof.
  intros Hfg. unfold weightedSum. f_equal. apply list_fmap_ext.
  intros i v Hv. apply list_elem_of_lookup_2 in Hv.
  apply list_elem_of_fmap in Hv as ([k v'] & -> & Hkv). simpl.
  apply elem_of_map_to_list in Hkv. by apply (Hfg k).
Qed.

Lemma short_sentences_skipped sentences mc :
  Forall (λ s, len s < Order mc) sentences →
  foldM processSentence mc sentences = Returned mc.
Proof.
  induction 1 as [|s sentences Hs _ IH]; cbn [foldM]; [done|].
  unfold processSentence. apply Z.ltb_lt in Hs. rewrite Hs. exact IH.
Qed.

(** X9. The total [GetStats] reports for a model trained from scratch is the
    number of n-grams of the corpus, when the corpus has at most [MaxInt]
    tokens; and when every sentence is shorter than the order, so that the
    chain is empty, the average it reports is not a number. *)
Theorem GetStats_counts_windows (config : TrainConfig.t) (corpus : list (list string)) :
  corpus ≠ [] →
  1 ≤ TrainConfig.Order config →
  len (concat corpus) ≤ MaxInt →
  ∃ mc, Train (NewMarkovTrainer config) corpus = Returned (mc, None) ∧
    Stats.total_transitions (GetStats mc)
    = Zsum (windowCount (TrainConfig.Order config) <$> corpus) ∧
    (Forall (λ s, len s < TrainConfig.Order config) corpus →
     Stats.prefixes (GetStats mc) = 0 ∧
     PrimFloat.is_nan (Stats.avg_transitions_per_prefix (GetStats mc)) = true).
Proof.
  intros Hne Ho Hsize. unfold Train.
  destruct (len corpus =? 0) eqn:Hlen; [by apply len_nil_iff in Hlen|].
  set (mc0 := buildIndexAndVocab (NewMarkovTrainer config) corpus).
  destruct (buildIndexAndVocab_Chain (NewMarkovTrainer config) corpus)
    as (Hchain0 & Hsums0 & Horder0). fold mc0 in Hchain0, Hsums0, Horder0.
  simpl in Hchain0, Hsums0, Horder0.
  destruct (sentences_counted_windows corpus mc0 0)
    as (mc1 & Hrun & [Hpos Htot] & Hk & Hsums1); [lia| |lia|lia|].
  { rewrite Hchain0. apply counted_empty. }
  rewrite Hrun. simpl. eexists. split; [done|].
  rewrite Horder0 in Htot, Hk. rewrite Z.add_0_l in Htot, Hk.
  assert (Hmin : MinInt = -9223372036854775808) by reflexivity.
  assert (Hexact : ∀ p suffixes, Chain mc1 !! p = Some suffixes →
            sumCounts suffixes = exactSum suffixes).
  { intros p suffixes Hp. rewrite sumCounts_wrap. apply wrap64_id.
    pose proof (exactSum_nonneg _ _ _ Hpos Hp).
    pose proof (exactSum_le_total _ _ _ Hpos Hp). lia. }
  assert (Hnonneg : 0 ≤ chainTotal (Chain mc1)).
  { apply weightedSum_nonneg. intros p suffixes Hp.
    by apply (exactSum_nonneg (Chain mc1) p). }
  split.
  - unfold GetStats. simpl. rewrite Hsums1, Hsums0, (right_id_L ∅ (∪)).
    change (foldl (λ totalTransitions e, int_add totalTransitions e.2) 0
              (map_to_list (sumCounts <$> Chain mc1)))
      with (sumCounts (sumCounts <$> Chain mc1)).
    rewrite sumCounts_wrap. unfold exactSum at 1. rewrite weightedSum_fmap.
    rewrite (weightedSum_ext (id ∘ sumCounts) exactSum) by exact Hexact.
    fold (chainTotal (Chain mc1)). rewrite Htot. apply wrap64_id. lia.
  - intros Hshort.
    assert (mc1 = mc0) as ->.
    { rewrite short_sentences_skipped in Hrun; [by injection Hrun|].
      by rewrite Horder0. }
    unfold GetStats. simpl. rewrite Hchain0, Hsums0, (right_id_L ∅ (∪)).
    rewrite fmap_empty, map_size_empty, map_to_list_empty. split; [done|].
    vm_compute. reflexivity.
Qed.

End StatsFacts.

Module SearchLimitFacts.
Import Go GoFacts Spec Trainer SearchFacts.

Section with_lib.
Context `{!GoLib} {laws : GoLibLaws _}.

(** X10. [Search] returns nothing when the limit is not positive, and leaves
    out a sentence that has a keyword hit only when the limit is reached. *)
Theorem Search_complete (ord : order Z) (mc : MarkovChain) (keywords : list string)
    (limit : Z) :
  valid_order ord →
  len keywords ≤ MaxInt →
  (∀ k l, Index mc !! k = Some l → NoDup l) →
  let results := Search ord mc keywords limit in
  (limit ≤ 0 → results = []) ∧
  (∀ s, 1 ≤ keywordHits (Index mc) keywords s → s ∈ results ∨ limit ≤ len results).
Proof.
  intros Hord Hlen Hnd. unfold Search.
  set (sentenceScores := foldl (scoreKeyword (Index mc)) ∅ keywords).
  set (entries := range ord sentenceScores).
  set (scored := (λ e, {| sentence := e.1; score := e.2 |}) <$> entries).
  set (sorted := sort_Slice (λ a b, score a >? score b) scored).
  rewrite collectResults_take, Z.sub_0_r. simpl. split.
  - intros Hlimit. by replace (Z.to_nat limit) with 0%nat by lia.
  - intros s Hs.
    assert (s ∈ sentence <$> sorted) as Hin.
    { subst sorted. rewrite (sort_Slice_perm _ _ _). subst scored.
      rewrite <- list_fmap_compose. apply list_elem_of_fmap.
      exists (s, keywordHits (Index mc) keywords s). split; [done|].
      subst entries. unfold range. rewrite (Hord _). apply elem_of_map_to_list.
      subst sentenceScores. rewrite sentenceScores_hits by done.
      unfold held. destruct (_ =? 0) eqn:E; [lia|done]. }
    destruct (decide (length (sentence <$> sorted) ≤ Z.to_nat limit)%nat) as [Hle|Hgt].
    + left. by rewrite take_ge.
    + right. unfold len. rewrite length_take. lia.
Qed.

End with_lib.
End SearchLimitFacts.

(* ===================================================================== *)
(** * Package tokenizer *)
(* ===================================================================== *)

Module TokenizerFacts.
Import Go GoFacts Spec Tokenizer.

Lemma addSpecialTokens_bracketed (tokens : list string) :
  addSpecialTokens tokens = "<start>" :: tokens ++ ["<end>"].
Proof.
  unfold addSpecialTokens. destruct (len tokens =? 0) eqn:E; [|done].
  apply len_nil_iff in E. by subst.
Qed.

Lemma keepFrequent_lookup minFrequency (l : list (string * Z)) (m : gmap string Z) k :
  NoDup l.*1 →
  foldl (keepFrequent minFrequency) m l !! k
  = match (list_to_map l : gmap string Z) !! k with
    | Some f => if minFrequency <=? f then Some f else m !! k
    | None => m !! k
    end.
Proof.
  revert m. induction l as [|[k' f] l IH]; intros m Hnd; simpl.
  - by rewrite lookup_empty.
  - apply NoDup_cons in Hnd as [Hk' Hnd]. rewrite IH by done.
    unfold keepFrequent. simpl.
    destruct (decide (k = k')) as [->|Hne].
    + rewrite (not_elem_of_list_to_map_1 l k' Hk'), lookup_insert_eq.
      destruct (minFrequency <=? f); [by rewrite lookup_insert_eq|done].
    + rewrite (lookup_insert_ne (list_to_map l)) by done.
      destruct (list_to_map l !! k) as [f'|]; [destruct (minFrequency <=? f')|];
        try done; destruct (minFrequency <=? f); try done; by rewrite lookup_insert_ne.
Qed.

Lemma keepFrequent_visited minFrequency (vocab : gmap string Z) visited token :
  visited ≡ₚ map_to_list vocab →
  foldl (keepFrequent minFrequency) ∅ visited !! token
  = match vocab !! token with
    | Some f => if minFrequency <=? f then Some f else None
    | None => None
    end.
Proof.
  intros Hperm.
  assert (Hnd : NoDup visited.*1).
  { rewrite Hperm. apply NoDup_fst_map_to_list. }
  rewrite keepFrequent_lookup by done.
  rewrite (list_to_map_proper _ _ Hnd Hperm), list_to_map_to_list, lookup_empty. done.
Qed.

(** X11. [FilterByFrequency] keeps the tokens whose frequency is at least the
    minimum, each with its frequency, and no other; the map it builds is
    the same in every visiting order of the vocabulary; and filtering twice
    is filtering once by the greater minimum. *)
Theorem FilterByFrequency_keeps (t : Tokenizer) (vocab : gmap string Z) (minFrequency : Z) :
  (∀ token f,
     FilterByFrequency t vocab minFrequency !! token = Some f
     ↔ vocab !! token = Some f ∧ minFrequency ≤ f) ∧
  (∀ visited, visited ≡ₚ map_to_list vocab →
     foldl (keepFrequent minFrequency) ∅ visited = FilterByFrequency t vocab minFrequency) ∧
  (∀ minFrequency',
     FilterByFrequency t (FilterByFrequency t vocab minFrequency) minFrequency'
     = FilterByFrequency t vocab (Z.max minFrequency minFrequency')).
Proof.
  assert (Hlookup : ∀ vocab minFrequency token f,
            FilterByFrequency t vocab minFrequency !! token = Some f
            ↔ vocab !! token = Some f ∧ minFrequency ≤ f).
  { intros v mf token f. unfold FilterByFrequency.
    rewrite (keepFrequent_visited mf v) by done.
    destruct (v !! token) as [f'|]; [|by split; [|intros []]].
    destruct (mf <=? f') eqn:E.
    - apply Z.leb_le in E. split; [by intros [= <-]|by intros [[= <-] _]].
    - apply Z.leb_gt in E. split; [done|]. intros [[= <-] ?]. lia. }
  split; [apply Hlookup|]. split.
  - intros visited Hperm. apply map_eq. intros token. unfold FilterByFrequency.
    by rewrite !(keepFrequent_visited minFrequency vocab).
  - intros minFrequency'. apply map_eq. intros token. apply option_eq. intros f.
    rewrite !Hlookup. split.
    + intros [[? ?] ?]. split; [done|lia].
    + intros [? ?]. split; [split|]; [done|lia..].
Qed.

Section with_lib.
Context `{!GoLib}.

Lemma Tokenize_bracketed (t : Tokenizer) (text : string) :
  ∃ body, Tokenize t text = "<start>" :: body ++ ["<end>"].
Proof. unfold Tokenize. rewrite addSpecialTokens_bracketed. by eexists. Qed.

Lemma Tokenize_len (t : Tokenizer) (text : string) : 2 ≤ len (Tokenize t text).
Proof.
  destruct (Tokenize_bracketed t text) as [body ->].
  unfold len. simpl. rewrite length_app. simpl. lia.
Qed.

Lemma TokenizeSentences_from (t : Tokenizer) (sentences : list string) acc :
  foldl (λ tokenizedSentences sentence,
           if String.eqb (strings_TrimSpace sentence) "" then tokenizedSentences
           else
             let tokens := Tokenize t sentence in
             if 0 <? len tokens then tokenizedSentences ++ [tokens]
             else tokenizedSentences)
        acc sentences
  = acc ++ (Tokenize t <$> filter (λ sentence, strings_TrimSpace sentence ≠ "") sentences).
Proof.
  revert acc. induction sentences as [|sentence sentences IH]; intros acc; cbn [foldl].
  - by rewrite app_nil_r.
  - rewrite IH, filter_cons.
    destruct (String.eqb (strings_TrimSpace sentence) "") eqn:E.
    + apply String.eqb_eq in E. by rewrite decide_False by (by intros ?).
    + apply String.eqb_neq in E. rewrite decide_True by done.
      pose proof (Tokenize_len t sentence) as Hlen. simpl.
      rewrite (proj2 (Z.ltb_lt _ _)) by lia.
      by rewrite <- app_assoc.
Qed.

(** X12. [TokenizeSentences] tokenizes the sentences that are not blank, in
    order, and drops none of them: its test for an empty token list never
    succeeds, every token list being bracketed by the boundary markers. *)
Theorem TokenizeSentences_nonblank (t : Tokenizer) (sentences : list string) :
  TokenizeSentences t sentences
  = Tokenize t <$> filter (λ sentence, strings_TrimSpace sentence ≠ "") sentences
  ∧ Forall (λ tokens, ∃ body, tokens = "<start>" :: body ++ ["<end>"])
           (TokenizeSentences t sentences).
Proof.
  assert (Heq : TokenizeSentences t sentences
                = Tokenize t <$> filter (λ sentence, strings_TrimSpace sentence ≠ "")
                                        sentences).
  { unfold TokenizeSentences. by rewrite TokenizeSentences_from. }
  split; [done|]. rewrite Heq. apply Forall_fmap, Forall_forall.
  intros sentence _. apply Tokenize_bracketed.
Qed.

End with_lib.
End TokenizerFacts.

Module PipelineFacts.
Import Go GoFacts Spec Tokenizer Trainer TrainerFacts TokenizerFacts.

Section with_lib.
Context `{!GoLib}.

(** X13. Training on the sentences [TokenizeSentences] makes of a text fails
    exactly when every sentence of the text is blank, and then leaves the
    model as it was. *)
Theorem Train_TokenizeSentences (t : Tokenizer) (mc : MarkovChain) (sentences : list string) :
  1 ≤ Order mc →
  Forall (λ sentence, len (Tokenize t sentence) ≤ MaxInt) sentences →
  let tokenizedData := TokenizeSentences t sentences in
  (Forall (λ sentence, strings_TrimSpace sentence = "") sentences →
   ∃ e, Train mc tokenizedData = Returned (mc, Some e)) ∧
  (Exists (λ sentence, strings_TrimSpace sentence ≠ "") sentences →
   ∃ mc', Train mc tokenizedData = Returned (mc', None)).
Proof.
  intros Ho Hlen tokenizedData. subst tokenizedData.
  destruct (TokenizeSentences_nonblank t sentences) as [-> _].
  set (nonblank := filter (λ sentence, strings_TrimSpace sentence ≠ "") sentences).
  split.
  - intros Hblank. assert (nonblank = []) as ->; [|by eexists].
    subst nonblank. induction Hblank as [|sentence sentences Hs _ IH]; [done|].
    rewrite filter_cons, decide_False by (by intros ?).
    apply IH. by apply Forall_inv_tail in Hlen.
  - intros Hsome. apply Exists_exists in Hsome as (sentence & Hin & Hs).
    assert (sentence ∈ nonblank) as Hnb by (by apply list_elem_of_filter).
    unfold Train.
    destruct (len (Tokenize t <$> nonblank) =? 0) eqn:E.
    { apply len_nil_iff, fmap_nil_inv in E. rewrite E in Hnb. by apply elem_of_nil in Hnb. }
    destruct (foldM_processSentence_returned (Tokenize t <$> nonblank)
                (buildIndexAndVocab mc (Tokenize t <$> nonblank))) as (mc1 & ->).
    + unfold buildIndexAndVocab. by destruct (foldl _ _ _).
    + apply Forall_fmap, Forall_forall. intros x Hx%list_elem_of_filter.
      rewrite Forall_forall in Hlen. apply Hlen, Hx.
    + simpl. by eexists.
Qed.

End with_lib.
End PipelineFacts.

Module WordFacts.
Import Go GoFacts Spec Tokenizer TokenizerSpec.

Lemma span_spec {A} (p : A → bool) (l a b : list A) :
  span p l = (a, b) →
  l = a ++ b ∧ Forall (λ x, p x = true) a ∧ (∀ x, head b = Some x → p x = false).
Proof.
  revert a b. induction l as [|x l IH]; intros a b; simpl.
  - intros [= <- <-]. by split; [|split; [constructor|]].
  - destruct (p x) eqn:Hx.
    + destruct (span p l) as [a' b'] eqn:E. intros [= <- <-].
      destruct (IH a' b' eq_refl) as (-> & Ha & Hb).
      split; [done|]. split; [by constructor|done].
    + intros [= <- <-]. split; [done|]. split; [constructor|].
      intros y [= <-]. done.
Qed.

Section with_lib.
Context `{!GoLib}.

Lemma loop_fuel (t : Tokenizer) (fuel1 fuel2 : nat) (rs : list rune) (tokens : list string) :
  (length rs ≤ fuel1)%nat → (length rs ≤ fuel2)%nat →
  tokenizeWithPunctuation_loop fuel1 t rs tokens
  = tokenizeWithPunctuation_loop fuel2 t rs tokens.
Proof.
  revert fuel2 rs tokens. induction fuel1 as [|fuel1 IH]; intros fuel2 rs tokens H1 H2.
  - destruct rs; [|simpl in H1; lia]. by destruct fuel2.
  - destruct rs as [|r rest]; [by destruct fuel2|].
    destruct fuel2 as [|fuel2]; [simpl in H2; lia|].
    simpl in H1, H2. cbn [tokenizeWithPunctuation_loop].
    destruct (unicode_IsSpace r); [apply IH; lia|].
    destruct (isPunctuation t r); [apply IH; lia|].
    destruct (isWordRune r); [|apply IH; lia].
    destruct (span isWordRune rest) as [w rest'] eqn:E.
    apply span_spec in E as (-> & _ & _). rewrite length_app in H1, H2.
    apply IH; lia.
Qed.

Lemma loop_tokens (t : Tokenizer) (all : list rune) (fuel : nat) (before rs : list rune)
    (tokens : list string) :
  all = before ++ rs →
  Forall (λ token, punctuationTokenOf t all token ∨ wordTokenOf all token) tokens →
  Forall (λ token, punctuationTokenOf t all token ∨ wordTokenOf all token)
         (tokenizeWithPunctuation_loop fuel t rs tokens).
Proof.
  revert before rs tokens.
  induction fuel as [|fuel IH]; intros before rs tokens Hall Htokens; [by destruct rs|].
  destruct rs as [|r rest]; [done|]. cbn [tokenizeWithPunctuation_loop].
  assert (Hnext : all = (before ++ [r]) ++ rest) by (by rewrite <- app_assoc).
  destruct (unicode_IsSpace r); [by apply (IH (before ++ [r]))|].
  destruct (isPunctuation t r) eqn:Hpunct.
  { apply (IH (before ++ [r])); [done|]. apply Forall_app. split; [done|].
    apply Forall_singleton. left. exists r. split; [|done].
    rewrite Hall. apply elem_of_app. right. left. }
  destruct (isWordRune r) eqn:Hword; [|by apply (IH (before ++ [r]))].
  destruct (span isWordRune rest) as [w rest'] eqn:E.
  apply span_spec in E as (-> & Hw & Hafter).
  apply (IH (before ++ r :: w)).
  { rewrite Hall, <- app_assoc. done. }
  destruct (negb _ && negb _) eqn:Hkeep; [|done].
  apply andb_true_iff in Hkeep as [Hs He].
  apply negb_true_iff, String.eqb_neq in Hs, He.
  apply Forall_app. split; [done|]. apply Forall_singleton. right.
  exists before, (r :: w), rest'. split; [done|]. split; [done|].
  split; [by constructor|]. done.
Qed.

(** X14. Every token [tokenizeWithPunctuation] emits is the text of a
    punctuation rune of the text, or the text of a run of word runes of the
    text that ends where the text ends or a rune follows that is not a word
    rune; the words "start" and "end" are not emitted. The turns the loop
    is given here are enough: more turns change nothing. *)
Theorem tokenizeWithPunctuation_tokens (t : Tokenizer) (text : string) :
  Forall (λ token,
            punctuationTokenOf t (runes text) token ∨ wordTokenOf (runes text) token)
         (tokenizeWithPunctuation t text) ∧
  (∀ fuel, (length (runes text) ≤ fuel)%nat →
     tokenizeWithPunctuation_loop fuel t (runes text) [] = tokenizeWithPunctuation t text).
Proof.
  split.
  - unfold tokenizeWithPunctuation. by apply (loop_tokens t (runes text) _ []).
  - intros fuel Hfuel. unfold tokenizeWithPunctuation. by apply loop_fuel.
Qed.

End with_lib.
End WordFacts.

(* ===================================================================== *)
(** * The generator: keys, candidates and start positions *)
(* ===================================================================== *)

Module StringFacts.
Import Go Spec.


Lemma substring_0_length (s : string) : String.substring 0 (String.length s) s = s.
Proof. induction s as [|c s IH]; simpl; [done|by rewrite IH]. Qed.

Lemma substring_0_app (s t : string) :
  String.substring 0 (String.length s) (s +:+ t) = s.
Proof. induction s as [|c s IH]; simpl; [by destruct t|by rewrite IH]. Qed.

Lemma substring_length_app (s t : string) :
  String.substring (String.length s) (String.length t) (s +:+ t) = t.
Proof.
  induction s as [|c s IH]; simpl; [apply substring_0_length|done].
Qed.

Lemma length_append (s t : string) :
  String.length (s +:+ t) = (String.length s + String.length t)%nat.
Proof. induction s as [|c s IH]; simpl; [done|by rewrite IH]. Qed.

Lemma TrimPrefix_app (p s : string) : TrimPrefix (p +:+ s) p = s.
Proof.
  unfold TrimPrefix.
  rewrite (proj2 (String.prefix_correct p (p +:+ s)) (substring_0_app p s)).
  rewrite length_append.
  replace (String.length p + String.length s - String.length p)%nat
    with (String.length s) by lia.
  apply substring_length_app.
Qed.

Lemma HasSuffix_app (s p : string) : HasSuffix (s +:+ p) p = true.
Proof.
  unfold HasSuffix. rewrite length_append.
  replace (String.length s + String.length p - String.length p)%nat
    with (String.length s) by lia.
  rewrite substring_length_app, String.eqb_refl, andb_true_r.
  apply Nat.leb_le. lia.
Qed.

Lemma TrimSuffix_app (s p : string) : TrimSuffix (s +:+ p) p = s.
Proof.
  unfold TrimSuffix. rewrite HasSuffix_app, length_append.
  replace (String.length s + String.length p - String.length p)%nat
    with (String.length s) by lia.
  apply substring_0_app.
Qed.

Lemma append_cons (c : Ascii.ascii) (s t : string) : String c s +:+ t = String c (s +:+ t).
Proof. reflexivity. Qed.

Lemma append_nil_r (s : string) : s +:+ "" = s.
Proof. induction s as [|c s IH]; [done|]. by rewrite append_cons, IH. Qed.

Lemma rev_app_rev_app (a b c : string) :
  String.rev_app (String.rev_app a b) c = String.rev_app b (a +:+ c).
Proof.
  revert b. induction a as [|x a IH]; intros b; [done|].
  rewrite append_cons. simpl. by rewrite IH.
Qed.

Lemma rev_rev_app (s : string) : String.rev (String.rev_app s "") = s.
Proof. unfold String.rev. rewrite rev_app_rev_app. simpl. apply append_nil_r. Qed.

Lemma Split_go_word (token cur rest : string) :
  spaceless token →
  Split_go " " cur (token +:+ rest) = Split_go " " (String.rev_app token cur) rest.
Proof.
  unfold spaceless. revert cur. induction token as [|c token IH]; intros cur Hc; [done|].
  rewrite append_cons. simpl. simpl in Hc. apply not_elem_of_cons in Hc as [Hne Hc].
  destruct (Ascii.eqb c " ") eqn:E.
  - apply Ascii.eqb_eq in E. congruence.
  - by apply IH.
Qed.

Lemma Split_Join (tokens : list string) :
  tokens ≠ [] → Forall spaceless tokens → Split (Join tokens " ") " " = tokens.
Proof.
  intros Hne Hall. unfold Split, Join.
  induction Hall as [|token tokens Htoken Hall IH]; [done|].
  destruct tokens as [|next tokens].
  - simpl. rewrite <- (append_nil_r token) at 1.
    rewrite Split_go_word by done. simpl. by rewrite rev_rev_app.
  - change (String.concat " " (token :: next :: tokens))
      with (token +:+ " " +:+ String.concat " " (next :: tokens)).
    rewrite Split_go_word by done.
    change (" " +:+ String.concat " " (next :: tokens))
      with (String " " (String.concat " " (next :: tokens))).
    cbn [Split_go]. rewrite Ascii.eqb_refl, rev_rev_app. f_equal. by apply IH.
Qed.

Lemma Join_nonempty (tokens : list string) (sep : string) :
  tokens ≠ [] → Forall (λ token, token ≠ "") tokens → Join tokens sep ≠ "".
Proof.
  intros Hne Hall. destruct Hall as [|token tokens Htoken _]; [done|].
  unfold Join. destruct tokens; simpl; [done|].
  destruct token; [done|]. rewrite append_cons. discriminate.
Qed.

(** The byte-wise order of strings is a total order. *)
Lemma compare_not_Gt_trans (a b c : string) :
  String.compare a b ≠ Gt → String.compare b c ≠ Gt → String.compare a c ≠ Gt.
Proof.
  revert b c. induction a as [|x a IH]; intros [|y b] [|z c]; simpl; try done.
  unfold Ascii.compare.
  destruct (N.compare_spec (N_of_ascii x) (N_of_ascii y)) as [Hxy|Hxy|Hxy]; [| |done].
  - rewrite Hxy.
    destruct (N.compare_spec (N_of_ascii y) (N_of_ascii z)); [apply IH|done..].
  - destruct (N.compare_spec (N_of_ascii y) (N_of_ascii z)) as [Hyz|Hyz|Hyz]; [| |done].
    + rewrite <- Hyz. rewrite (proj2 (N.compare_lt_iff _ _) Hxy). done.
    + rewrite (proj2 (N.compare_lt_iff (N_of_ascii x) (N_of_ascii z))) by lia. done.
Qed.

#[export] Instance string_le_trans : Transitive string_le.
Proof.
  intros a b c. unfold string_le, String.leb.
  pose proof (compare_not_Gt_trans a b c) as Htrans.
  destruct (String.compare a b), (String.compare b c), (String.compare a c);
    try done; intros _ _; exfalso; by apply Htrans.
Qed.

#[export] Instance string_le_total : Total string_le.
Proof. intros a b. apply String.leb_total. Qed.

#[export] Instance string_le_antisym : AntiSymm eq string_le.
Proof. intros a b. apply String.leb_antisym. Qed.

(** [sort.Strings] gives the same slice for every arrangement of the same
    strings. *)
Lemma sort_Strings_perm (l k : list string) : l ≡ₚ k → sort_Strings l = sort_Strings k.
Proof.
  intros Hperm. unfold sort_Strings.
  apply (StronglySorted_unique string_le).
  - apply StronglySorted_merge_sort; apply _.
  - apply StronglySorted_merge_sort; apply _.
  - by rewrite !merge_sort_Permutation.
Qed.

End StringFacts.

Module ContextFacts.
Import Go GoFacts Spec GeneratorSpec Trainer Generator StringFacts.

(** X15. The context key of a prefix does not depend on the order of
    its tokens. *)
Theorem createContextKey_perm (tokens tokens' : list string) :
  tokens ≡ₚ tokens' → createContextKey tokens = createContextKey tokens'.
Proof. intros Hperm. unfold createContextKey. by rewrite (sort_Strings_perm _ _ Hperm). Qed.

Section with_lib.
Context `{!GoLib}.

(** X16. [parsePrefix] gives back the tokens a prefix key was made of
    by [joinTokens], when no token is empty or has a space in it and
    [strings.TrimSpace] leaves every token as it is. *)
Theorem parsePrefix_joinTokens (tokens : list string) :
  Forall (λ token, token ≠ "" ∧ spaceless token ∧ strings_TrimSpace token = token) tokens →
  parsePrefix (joinTokens tokens) = tokens.
Proof.
  intros Hall. unfold parsePrefix, joinTokens.
  rewrite TrimPrefix_app, TrimSuffix_app.
  destruct tokens as [|first rest]; [done|].
  set (tokens := first :: rest) in *.
  assert (Join tokens " " ≠ "") as Hne.
  { apply Join_nonempty; [done|]. eapply Forall_impl; [exact Hall|].
    intros token Htoken. apply Htoken. }
  apply String.eqb_neq in Hne. rewrite Hne.
  rewrite Split_Join; [|done|eapply Forall_impl; [exact Hall|]; intros token Htoken;
                               apply Htoken].
  clearbody tokens. clear Hne.
  induction Hall as [|token tokens Htoken Hall IH]; [done|].
  destruct Htoken as (Hne & Hspace & Htrim).
  rewrite fmap_cons, filter_cons, Htrim, decide_True by done. by rewrite IH.
Qed.

End with_lib.
End ContextFacts.

Module CandidateFacts.
Import Go GoFacts Spec GeneratorSpec Trainer Generator.

Lemma scanCumulative_elem_of r c (l : list (string * float)) token :
  scanCumulative r c l = Some token → token ∈ l.*1.
Proof.
  revert c. induction l as [|[t p] l IH]; intros c; simpl; [done|].
  destruct (r <=? c + p)%float.
  - intros [= <-]. left.
  - intros Hrest. right. by eapply IH.
Qed.

Lemma maxCandidate_elem_of (l : list (string * float)) :
  maxCandidate l = "" ∨ maxCandidate l ∈ l.*1.
Proof.
  unfold maxCandidate.
  assert (∀ (l' : list (string * float)) best,
            (best.1 = "" ∨ best.1 ∈ l.*1) → (∀ e, e ∈ l' → e ∈ l) →
            let best' := foldl (λ (best : string * float) e,
                                  if (best.2 <? e.2)%float then e else best) best l' in
            best'.1 = "" ∨ best'.1 ∈ l.*1) as Hfold.
  { induction l' as [|e l' IH]; intros best Hbest Hsub; simpl; [done|].
    apply IH; [|intros x Hx; apply Hsub; by right].
    destruct (best.2 <? e.2)%float; [|done].
    right. apply list_elem_of_fmap. exists e. split; [done|]. apply Hsub. left. }
  apply Hfold; [by left|done].
Qed.

Section with_lib.
Context `{!GoLib}.

Lemma selectNextToken_elem_of (d : Draw) (probabilities : gmap string float) :
  valid_order (scanOrder d) → valid_order (maxOrder d) →
  selectNextToken d probabilities = "" ∨ selectNextToken d probabilities ∈ dom probabilities.
Proof.
  intros Hscan Hmax. unfold selectNextToken.
  assert (∀ (ord : order float) token, valid_order ord →
            token ∈ (range ord probabilities).*1 → token ∈ dom probabilities) as Hdom.
  { intros ord token Hord Hin. unfold range in Hin. rewrite (Hord _) in Hin.
    apply list_elem_of_fmap in Hin as ([t p] & -> & Hin). simpl.
    apply elem_of_map_to_list in Hin. apply elem_of_dom. eauto. }
  destruct (scanCumulative _ _ _) as [token|] eqn:E.
  - right. apply scanCumulative_elem_of in E. by apply (Hdom (scanOrder d)).
  - destruct (maxCandidate_elem_of (range (maxOrder d) probabilities)) as [->|Hin];
      [by left|right]. by apply (Hdom (maxOrder d)).
Qed.

(** X17. The token [selectThematicToken] returns is one of the candidates it
    was given, or the empty string, and no other token; so it is the empty
    string when there is no candidate. The same holds of
    [selectNextToken]. *)
Theorem selectThematicToken_candidate (g : AnswerGenerator) (d : Draw)
    (probabilities : gmap string float) (keywords : list string) :
  valid_order (scanOrder d) → valid_order (maxOrder d) →
  (selectNextToken d probabilities = ""
   ∨ selectNextToken d probabilities ∈ dom probabilities) ∧
  (selectThematicToken g d probabilities keywords = ""
   ∨ selectThematicToken g d probabilities keywords ∈ dom probabilities).
Proof.
  intros Hscan Hmax. split; [by apply selectNextToken_elem_of|].
  unfold selectThematicToken.
  set (weighted := map_imap _ probabilities).
  assert (dom weighted = dom probabilities) as Hdom.
  { apply set_eq. intros token. rewrite !elem_of_dom. subst weighted.
    rewrite map_lookup_imap. destruct (probabilities !! token); simpl; [|done].
    split; eauto. }
  set (totalWeight := foldl _ 0%float _).
  destruct (0 <? totalWeight)%float.
  - rewrite <- Hdom, <- (dom_fmap_L (λ w, (w / totalWeight)%float) weighted).
    by apply selectNextToken_elem_of.
  - rewrite <- Hdom. by apply selectNextToken_elem_of.
Qed.

End with_lib.
End CandidateFacts.

Module EntropyDomFacts.
Import Go GoFacts Spec GeneratorSpec Trainer Generator EntropyFacts ThematicFacts.

Lemma foldl_observe_dom obs tc (token : string) :
  token ∈ dom (foldl observe tc obs) ↔ token ∈ dom tc ∨ token ∈ obs.*1.
Proof.
  revert tc. induction obs as [|o obs IH]; intros tc; cbn [foldl].
  - split; [by left|]. intros [?|Hin]; [done|]. by apply elem_of_nil in Hin.
  - rewrite IH. unfold observe. rewrite dom_insert, elem_of_union, elem_of_singleton,
      fmap_cons, elem_of_cons. tauto.
Qed.

Section with_lib.
Context `{!GoLib}.

Lemma observations_tokens (chain : gmap string (gmap string Z)) (token : string) :
  token ∈ (observations chain).*1 ↔
  ∃ prefix suffixes, chain !! prefix = Some suffixes ∧
    (token ∈ parsePrefix prefix ∨ is_Some (suffixes !! token)).
Proof.
  unfold observations. rewrite list_elem_of_fmap. split.
  - intros ([t ck] & -> & Hin). simpl.
    apply list_elem_of_bind in Hin as ([prefix suffixes] & Hin & Hentry).
    apply elem_of_map_to_list in Hentry. exists prefix, suffixes. split; [done|].
    unfold observationsOf in Hin. simpl in Hin.
    apply list_elem_of_fmap in Hin as (t' & [= <- _] & Hin).
    apply elem_of_app in Hin as [Hin|Hin]; [by left|right].
    apply list_elem_of_fmap in Hin as ([t'' v] & -> & Hin).
    apply elem_of_map_to_list in Hin. simpl. eauto.
  - intros (prefix & suffixes & Hp & Hin).
    exists (token, createContextKey (parsePrefix prefix)). split; [done|].
    apply list_elem_of_bind. exists (prefix, suffixes).
    split; [|by apply elem_of_map_to_list].
    unfold observationsOf. simpl. apply list_elem_of_fmap. exists token. split; [done|].
    apply elem_of_app. destruct Hin as [Hin|[v Hv]]; [by left|right].
    apply list_elem_of_fmap. exists (token, v). split; [done|].
    by apply elem_of_map_to_list.
Qed.

(** X18. [NewAnswerGenerator] records an entropy for the tokens that occur in
    a prefix key of the chain or as a successor, and for no other; a token
    the chain does not know is not thematic. *)
Theorem tokenEntropy_tokens (eo : EntropyOrders) (mc : MarkovChain) (config : Config)
    (token : string) :
  valid_order (tokensOrder eo) →
  let g := NewAnswerGenerator eo mc config in
  let known := ∃ prefix suffixes, Chain mc !! prefix = Some suffixes ∧
                 (token ∈ parsePrefix prefix ∨ is_Some (suffixes !! token)) in
  (is_Some (tokenEntropy g !! token) ↔ known) ∧
  (isThematicToken g token = true → known).
Proof.
  intros Hord g known.
  assert (Hiff : is_Some (tokenEntropy g !! token) ↔ known).
  { subst g known. unfold NewAnswerGenerator.
    rewrite analyzeEntropy_tokenEntropy by done. simpl.
    rewrite <- observations_tokens.
    pose proof (foldl_observe_dom (observations (Chain mc)) ∅ token) as Hdom.
    rewrite <- tokenContextsOf_foldl, elem_of_dom in Hdom.
    destruct (tokenContextsOf (Chain mc) !! token) as [contexts|].
    - split; [|by eauto]. intros _. destruct (proj1 Hdom) as [Hin|Hin]; [by eauto| |done].
      by rewrite dom_empty in Hin.
    - rewrite lookup_empty. split; [by intros []|]. intros Hin.
      destruct (proj2 Hdom) as [? [=]]. by right. }
  split; [done|]. intros Hthematic. apply Hiff.
  unfold isThematicToken in Hthematic. by destruct (tokenEntropy g !! token).
Qed.

End with_lib.
End EntropyDomFacts.

Module StartPositionFacts.
Import Go GoFacts Spec GeneratorSpec Trainer Generator.

Lemma startPositionStep_anchored g tokens keywords best i :
  1 ≤ Order (chain g) → len tokens < MaxInt →
  0 ≤ i ≤ len tokens - Order (chain g) + 1 →
  anchored g tokens best.1 →
  ∃ best', startPositionStep g tokens keywords best i = Returned best'
           ∧ anchored g tokens best'.1.
Proof.
  intros Ho Hlen Hi Hbest. destruct best as [bestPos bestScore]. simpl in Hbest.
  unfold startPositionStep.
  assert (Hmin : MinInt = -9223372036854775808) by reflexivity.
  assert (HmaxInt : MaxInt = 9223372036854775807) by reflexivity.
  rewrite (int_add_id i) by lia. rewrite int_sub_id by lia.
  rewrite Z.min_l by lia. rewrite slice_returned by lia. simpl.
  replace (i + Order (chain g) - 1 - i) with (Order (chain g) - 1) by lia.
  fold (windowPrefix (Order (chain g)) tokens i).
  destruct (Chain (chain g) !! _) eqn:Hkey; [|by eexists].
  destruct (_ <? _)%float; eexists; (split; [done|]); simpl; [|done].
  split; [lia|]. intros _. split; [lia|]. by rewrite Hkey.
Qed.

(** X19. [findThematicStartPosition] returns a position of the token
    sequence, and a position other than 0 only where a segment starts whose
    key is a prefix key of the chain. *)
Theorem findThematicStartPosition_anchored (g : AnswerGenerator)
    (tokens keywords : list string) :
  1 ≤ Order (chain g) ≤ MaxInt → len tokens < MaxInt →
  ∃ startPos, findThematicStartPosition g tokens keywords = Returned startPos ∧
    0 ≤ startPos ≤ len tokens ∧
    (startPos ≠ 0 →
     startPos ≤ len tokens - Order (chain g) + 1 ∧
     is_Some (Chain (chain g)
                !! joinTokens (windowPrefix (Order (chain g)) tokens startPos))).
Proof.
  intros Ho Hlen. unfold findThematicStartPosition.
  assert (Hmin : MinInt = -9223372036854775808) by reflexivity.
  assert (HmaxInt : MaxInt = 9223372036854775807) by reflexivity.
  pose proof (len_nonneg tokens) as Hlen0.
  rewrite (int_sub_id (len tokens)) by lia. rewrite int_add_id by lia.
  destruct (foldM_invariant (λ best : Z * float, anchored g tokens best.1)
              (startPositionStep g tokens keywords)
              (seqZ 0 (len tokens - Order (chain g) + 1 + 1)) (0, (-1.0)%float))
    as (best & -> & Hbest).
  - split; simpl; [lia|done].
  - intros best i Hbest Hi%elem_of_seqZ.
    apply startPositionStep_anchored; [lia|done|lia|done].
  - simpl. exists best.1. split; [done|]. exact Hbest.
Qed.

End StartPositionFacts.

(* ===================================================================== *)
(** * The continuation and its source *)
(* ===================================================================== *)

Module SourceFacts.
Import Go GoFacts Spec GeneratorSpec Trainer Generator ContinuationFacts CandidateFacts.

Lemma Forall_take_insert {A} (P : A → Prop) (l : list A) (k i : nat) (x : A) :
  Forall P (take k l) → P x → Forall P (take k (<[i := x]> l)).
Proof.
  intros Hl Hx. apply Forall_lookup. intros j y Hj.
  apply lookup_take_Some in Hj as [Hj Hlt].
  destruct (decide (i = j)) as [->|Hne].
  - apply list_lookup_insert_Some in Hj as [(_ & <- & _)|[? _]]; done.
  - rewrite list_lookup_insert_ne in Hj by done.
    rewrite Forall_lookup in Hl. apply (Hl j). by apply lookup_take_Some.
Qed.

Lemma Forall_take_overwrite {A} (P : A → Prop) (xs l : list A) (k pos : nat) :
  Forall P (take k l) → Forall P xs → Forall P (take k (overwrite l pos xs)).
Proof.
  revert l pos. induction xs as [|x xs IH]; intros l pos Hl Hxs; simpl; [done|].
  apply Forall_cons in Hxs as [Hx Hxs]. apply IH; [|done].
  by apply Forall_take_insert.
Qed.

Lemma at_elem_of {A} (s : Slice A) i x :
  at_ s i = Returned x → x ∈ take (Z.to_nat (n s)) (arr s).
Proof.
  unfold at_. case_bool_decide as Hi; [|done].
  destruct (arr s !! Z.to_nat i) as [y|] eqn:Hy; [|done]. intros [= <-].
  apply (list_elem_of_lookup_2 _ (Z.to_nat i)). apply lookup_take_Some. split; [done|lia].
Qed.

Lemma take_drop_elem_of {A} (l : list A) (lo hi k : nat) x :
  x ∈ take (hi - lo) (drop lo l) → (hi ≤ k)%nat → x ∈ take k l.
Proof.
  intros Hx Hk. apply list_elem_of_lookup in Hx as [j Hj].
  apply lookup_take_Some in Hj as [Hj Hlt]. rewrite lookup_drop in Hj.
  apply (list_elem_of_lookup_2 _ (lo + j)). apply lookup_take_Some. split; [done|lia].
Qed.

Section with_lib.
Context `{!GoLib}.

Lemma currentPrefixOf_tokens g st tokens' currentPrefix :
  currentPrefixOf g st = Returned (tokens', currentPrefix) →
  tokens' = tokens st ∨
  ∃ pos, tokens' = mkSlice (overwrite (arr (tokens st)) pos (result st)) (n (tokens st)).
Proof.
  unfold currentPrefixOf. destruct (_ <=? _).
  - destruct (slice _ _ _); simpl; [|done..]. intros [= <- _]. by left.
  - unfold append_to_reslice. destruct (reslice _ _ _); simpl; [|done..].
    case_bool_decide; intros [= <- _]; [right; by eexists|by left].
Qed.

Lemma stall_after tokens' st t :
  stall tokens' st = Returned t →
  tokens (after t) = tokens' ∧
  (result (after t) = result st ∨
   ∃ x, at_ tokens' (currentPos st) = Returned x ∧ result (after t) = result st ++ [x]).
Proof.
  unfold stall. destruct (currentPos st <? n tokens').
  - destruct (at_ tokens' (currentPos st)) as [x| |]; simpl; [|done..].
    intros [= <-]. simpl. split; [done|]. right. by exists x.
  - intros [= <-]. simpl. split; [done|by left].
Qed.

Lemma continuationTurn_after g keywords d st t :
  continuationTurn g keywords d st = Returned t →
  ∃ tokens' currentPrefix,
    currentPrefixOf g st = Returned (tokens', currentPrefix) ∧
    tokens (after t) = tokens' ∧
    (result (after t) = result st ∨
     (∃ x, at_ tokens' (currentPos st) = Returned x ∧ result (after t) = result st ++ [x]) ∨
     (∃ nextTokens, GetNextTokens (chain g) currentPrefix = Some nextTokens ∧
        result (after t)
        = result st ++ [selectThematicToken g d nextTokens keywords])).
Proof.
  unfold continuationTurn.
  destruct (currentPrefixOf g st) as [[tokens' currentPrefix]| |]; simpl; [|done..].
  intros Hrun. exists tokens', currentPrefix. split; [done|].
  assert (Hstall : stall tokens' st = Returned t →
            tokens (after t) = tokens' ∧
            (result (after t) = result st ∨
             (∃ x, at_ tokens' (currentPos st) = Returned x
                   ∧ result (after t) = result st ++ [x]) ∨
             (∃ nextTokens, GetNextTokens (chain g) currentPrefix = Some nextTokens ∧
                result (after t)
                = result st ++ [selectThematicToken g d nextTokens keywords]))).
  { intros [Htok [Hres|Hres]]%stall_after; (split; [done|]); [by left|right; by left]. }
  destruct (GetNextTokens (chain g) currentPrefix) as [nextTokens|]; [|by apply Hstall].
  destruct (0 <? Z.of_nat (size nextTokens)); [|by apply Hstall].
  destruct (String.eqb _ "<end>").
  - injection Hrun as <-. simpl. split; [done|by left].
  - injection Hrun as <-. simpl. split; [done|]. right. right. by exists nextTokens.
Qed.

Section loop.
Variables (g : AnswerGenerator) (keywords : list string) (draws : nat → Draw).
Variables (n0 cap0 : Z).
Hypothesis Horder : 1 ≤ Order (chain g) ≤ MaxInt.
Hypothesis Hmax : maxLength g ≤ MaxInt.
Hypothesis Hsrc : 0 ≤ n0 ∧ n0 ≤ cap0 ∧ n0 ≤ MaxInt.

(** What every turn keeps, the loop keeps. *)
Lemma continuationLoop_preserves (P : Continuation → Prop) fuel k st st' :
  (∀ k st t, steady n0 cap0 st → guard g st = true → P st →
     continuationTurn g keywords (draws k) st = Returned t → P (after t)) →
  steady n0 cap0 st → P st →
  continuationLoop fuel g keywords draws k st = Returned st' → P st'.
Proof.
  intros Hturn. revert k st. induction fuel as [|fuel IH]; intros k st Hst HP; simpl.
  - destruct (_ && _ && _); [done|]. by intros [= <-].
  - destruct (_ && _ && _) eqn:Hguard; [|by intros [= <-]].
    destruct (continuationTurn_returned g keywords n0 cap0 Horder Hmax Hsrc (draws k) st
                Hst Hguard) as (t & Ht & Hprops).
    pose proof (Hturn k st t Hst Hguard HP Ht) as HP'.
    rewrite Ht. simpl. destruct t as [st1|st1]; simpl in *.
    + apply IH; [apply Hprops|done].
    + by intros [= <-].
Qed.

End loop.

(** How [generateThematicContinuation] puts its tokens together: the
    tokens copied before the loop, the tokens the loop adds, and the
    tokens of the source appended after the loop. *)
Lemma continuationTokens_parts (g : AnswerGenerator) (source : Slice string)
    (startPos : Z) (keywords : list string) (draws : nat → Draw) :
  1 ≤ Order (chain g) ≤ MaxInt → maxLength g ≤ MaxInt →
  0 ≤ n source ≤ cap source → n source ≤ MaxInt →
  0 ≤ startPos ≤ n source →
  let copied := take (Z.to_nat startPos) (arr source) in
  ∃ st rest,
    continuationLoop (Z.to_nat (maxLength g - len copied)) g keywords draws 0
      {| tokens := source; result := copied; currentPos := startPos; attempts := 0 |}
    = Returned st
    ∧ steady (n source) (cap source) st
    ∧ continuationTokens g source startPos keywords draws = Returned (result st ++ rest)
    ∧ Forall (λ x, x ∈ take (Z.to_nat (n source)) (arr (tokens st))) rest.
Proof.
  intros Horder Hmax Hn Hcap Hstart copied. unfold continuationTokens.
  assert (Hmin : MinInt = -9223372036854775808) by reflexivity.
  assert (HmaxInt : MaxInt = 9223372036854775807) by reflexivity.
  assert ((if 0 <? startPos then reslice source 0 startPos else mret [])
          = Returned copied ∧ len copied = startPos) as [-> Hcopied].
  { subst copied. destruct (0 <? startPos) eqn:E.
    - rewrite reslice_returned by lia. rewrite Z.sub_0_r. simpl. split; [done|].
      unfold len, cap, len in *. rewrite length_take. lia.
    - apply Z.ltb_ge in E. replace startPos with 0 by lia. done. }
  simpl.
  destruct (continuationLoop_returned g keywords draws (n source) (cap source)
              Horder Hmax ltac:(lia) (Z.to_nat (maxLength g - len copied)) 0%nat
              {| tokens := source; result := copied; currentPos := startPos; attempts := 0 |})
    as (st & Hrun & Hst & Hge & Hle).
  { unfold steady. simpl. assert (maxAttempts = 10) by reflexivity.
    repeat split; try done; lia. }
  { simpl. lia. }
  rewrite Hrun. simpl in *. exists st.
  pose proof Hst as (Hn' & Hcap' & Hpos & Hatt & Hres).
  destruct (_ && _) eqn:Htail.
  - apply andb_true_iff in Htail as [Hhalf Hleft].
    apply Z.ltb_lt in Hhalf, Hleft. unfold int_quot in Hhalf.
    pose proof (len_nonneg (result st)) as Hres0.
    destruct (quot_2_positive (maxLength g)) as [Hpos' Hq]; [lia|].
    rewrite (int_sub_id (maxLength g)) by lia.
    rewrite (int_sub_id (n (tokens st))) by lia.
    rewrite int_add_id by lia.
    rewrite reslice_returned by lia. simpl. eexists.
    split; [done|]. split; [done|]. split; [done|].
    apply Forall_forall. intros x Hx.
    set (hi := currentPos st
               + Z.min (maxLength g - len (result st)) (n (tokens st) - currentPos st)) in *.
    replace (Z.to_nat (hi - currentPos st))
      with (Z.to_nat hi - Z.to_nat (currentPos st))%nat in Hx by lia.
    eapply take_drop_elem_of; [exact Hx|]. lia.
  - exists []. rewrite app_nil_r. done.
Qed.

(** X20. The continuation begins with the tokens of the source that
    come before the start position. *)
Theorem continuation_keeps_lead (g : AnswerGenerator) (source : Slice string)
    (startPos : Z) (keywords : list string) (draws : nat → Draw) :
  1 ≤ Order (chain g) ≤ MaxInt → maxLength g ≤ MaxInt →
  0 ≤ n source ≤ cap source → n source ≤ MaxInt →
  0 ≤ startPos ≤ n source →
  ∃ added,
    continuationTokens g source startPos keywords draws
    = Returned (take (Z.to_nat startPos) (arr source) ++ added).
Proof.
  intros Horder Hmax Hn Hcap Hstart.
  destruct (continuationTokens_parts g source startPos keywords draws)
    as (st & rest & Hrun & Hst & -> & _); [done..|].
  set (copied := take (Z.to_nat startPos) (arr source)) in *.
  assert (Hinit : steady (n source) (cap source)
            {| tokens := source; result := copied; currentPos := startPos; attempts := 0 |}).
  { unfold steady. simpl. assert (maxAttempts = 10) by reflexivity.
    assert (MaxInt = 9223372036854775807) by reflexivity.
    unfold len, cap, len in *. subst copied. rewrite length_take.
    repeat split; try done; lia. }
  assert (copied `prefix_of` result st) as [added ->].
  { refine (continuationLoop_preserves g keywords draws (n source) (cap source)
              Horder Hmax ltac:(lia) (λ st, copied `prefix_of` result st) _ _ _ _
              _ Hinit _ Hrun); [|done].
    intros k st1 t _ _ Hpre Ht.
    destruct (continuationTurn_after g keywords (draws k) st1 t Ht)
      as (? & ? & _ & _ & [->|[(x & _ & ->)|(? & _ & ->)]]);
      [done|by apply prefix_app_r..]. }
  exists (added ++ rest). by rewrite app_assoc.
Qed.

(** The first [n] elements of the source of a turn hold known tokens
    when they did before the turn and the result did. *)
Lemma continuationTurn_known g source keywords d st t :
  valid_order (scanOrder d) → valid_order (maxOrder d) →
  n (tokens st) = n source →
  Forall (known g source) (take (Z.to_nat (n source)) (arr (tokens st))) →
  Forall (known g source) (result st) →
  continuationTurn g keywords d st = Returned t →
  Forall (known g source) (take (Z.to_nat (n source)) (arr (tokens (after t))))
  ∧ Forall (known g source) (result (after t)).
Proof.
  intros Hscan Hmaxo Hn Harr Hres Ht.
  destruct (continuationTurn_after g keywords d st t Ht)
    as (tokens' & currentPrefix & Hcp & -> & Hcases).
  assert (Harr' : Forall (known g source) (take (Z.to_nat (n source)) (arr tokens'))).
  { destruct (currentPrefixOf_tokens g st tokens' currentPrefix Hcp) as [->|[pos ->]];
      [done|]. simpl. by apply Forall_take_overwrite. }
  assert (Hn' : n tokens' = n source).
  { destruct (currentPrefixOf_tokens g st tokens' currentPrefix Hcp) as [->|[pos ->]];
      done. }
  split; [done|].
  destruct Hcases as [->|[(x & Hx & ->)|(nextTokens & Hnext & ->)]]; [done| |].
  - apply Forall_app. split; [done|]. apply Forall_singleton.
    apply at_elem_of in Hx. rewrite Hn' in Hx.
    rewrite Forall_forall in Harr'. by apply Harr'.
  - apply Forall_app. split; [done|]. apply Forall_singleton.
    destruct (selectThematicToken_candidate g d nextTokens keywords Hscan Hmaxo)
      as [_ [->|Hin]]; [right; by left|].
    right. right. unfold GetNextTokens, GetNextTokens_in in Hnext.
    destruct (Chain (chain g) !! joinTokens currentPrefix) as [suffixes|] eqn:Hkey; [|done].
    injection Hnext as <-. rewrite dom_fmap in Hin. apply elem_of_dom in Hin.
    exists (joinTokens currentPrefix), suffixes. done.
Qed.

(** X21. Every token of a continuation is a token of the source sentence,
    a successor recorded in the chain, or the empty string, which the
    sampler returns when it finds no candidate. *)
Theorem continuation_closed_vocabulary (g : AnswerGenerator) (source : Slice string)
    (startPos : Z) (keywords : list string) (draws : nat → Draw) :
  1 ≤ Order (chain g) ≤ MaxInt → maxLength g ≤ MaxInt →
  0 ≤ n source ≤ cap source → n source ≤ MaxInt →
  0 ≤ startPos ≤ n source →
  (∀ k, valid_order (scanOrder (draws k)) ∧ valid_order (maxOrder (draws k))) →
  ∃ produced,
    continuationTokens g source startPos keywords draws = Returned produced ∧
    Forall (λ token,
              token ∈ take (Z.to_nat (n source)) (arr source) ∨ token = ""
              ∨ ∃ p, recorded (Chain (chain g)) p token) produced.
Proof.
  intros Horder Hmax Hn Hcap Hstart Hdraws.
  destruct (continuationTokens_parts g source startPos keywords draws)
    as (st & rest & Hrun & Hst & -> & Hrest); [done..|].
  set (copied := take (Z.to_nat startPos) (arr source)) in *.
  assert (Hinit : steady (n source) (cap source)
            {| tokens := source; result := copied; currentPos := startPos; attempts := 0 |}).
  { unfold steady. simpl. assert (maxAttempts = 10) by reflexivity.
    assert (MaxInt = 9223372036854775807) by reflexivity.
    unfold len, cap, len in *. subst copied. rewrite length_take.
    repeat split; try done; lia. }
  assert (Hsource : Forall (known g source) (take (Z.to_nat (n source)) (arr source))).
  { apply Forall_forall. intros x Hx. by left. }
  set (P := λ st : Continuation,
         n (tokens st) = n source
         ∧ Forall (known g source) (take (Z.to_nat (n source)) (arr (tokens st)))
         ∧ Forall (known g source) (result st)).
  assert (HP : P st).
  { refine (continuationLoop_preserves g keywords draws (n source) (cap source)
              Horder Hmax ltac:(lia) P _ _ _ _ _ Hinit _ Hrun).
    - intros k st1 t _ _ (Hn1 & Harr & Hres) Ht.
      destruct (Hdraws k) as [Hscan Hmaxo].
      destruct (continuationTurn_known g source keywords (draws k) st1 t
                  Hscan Hmaxo Hn1 Harr Hres Ht) as [Harr' Hres'].
      split; [|done].
      destruct (continuationTurn_after g keywords (draws k) st1 t Ht)
        as (tokens' & currentPrefix & Hcp & -> & _).
      destruct (currentPrefixOf_tokens g st1 tokens' currentPrefix Hcp) as [->|[pos ->]];
        done.
    - split; [done|]. simpl. split; [done|].
      apply Forall_forall. intros x Hx. left. subst copied.
      apply list_elem_of_lookup in Hx as [j Hj]. apply lookup_take_Some in Hj as [Hj Hlt].
      apply (list_elem_of_lookup_2 _ j), lookup_take_Some. split; [done|lia]. }
  destruct HP as (_ & Harr & Hres).
  eexists. split; [done|]. fold (known g source). apply Forall_app. split; [done|].
  apply Forall_forall. intros x Hx. rewrite Forall_forall in Hrest, Harr.
  apply Harr, Hrest, Hx.
Qed.

Lemma currentPrefixOf_long g st tokens' currentPrefix :
  1 ≤ Order (chain g) ≤ MaxInt →
  Order (chain g) - 1 ≤ len (result st) →
  currentPrefixOf g st = Returned (tokens', currentPrefix) → tokens' = tokens st.
Proof.
  intros Horder Hlong. unfold currentPrefixOf.
  assert (Hmin : MinInt = -9223372036854775808) by reflexivity.
  rewrite (int_sub_id (Order (chain g)) 1) by lia.
  rewrite (proj2 (Z.leb_le _ _) Hlong).
  destruct (slice _ _ _); simpl; [|done..]. by intros [= <- _].
Qed.

(** X22. When the start position is at least the order less one, the loop
    of [generateThematicContinuation] does not write into the source: it
    ends with the slice it was given. *)
Theorem continuation_leaves_source (g : AnswerGenerator) (source : Slice string)
    (startPos : Z) (keywords : list string) (draws : nat → Draw) :
  1 ≤ Order (chain g) ≤ MaxInt → maxLength g ≤ MaxInt →
  0 ≤ n source ≤ cap source → n source ≤ MaxInt →
  0 ≤ startPos ≤ n source →
  Order (chain g) - 1 ≤ startPos →
  let copied := take (Z.to_nat startPos) (arr source) in
  ∃ st,
    continuationLoop (Z.to_nat (maxLength g - len copied)) g keywords draws 0
      {| tokens := source; result := copied; currentPos := startPos; attempts := 0 |}
    = Returned st
    ∧ tokens st = source.
Proof.
  intros Horder Hmax Hn Hcap Hstart Hlong copied.
  destruct (continuationTokens_parts g source startPos keywords draws)
    as (st & rest & Hrun & Hst & _ & _); [done..|].
  fold copied in Hrun. exists st. split; [done|].
  assert (Hcopied : len copied = startPos).
  { subst copied. unfold len, cap, len in *. rewrite length_take. lia. }
  assert (Hinit : steady (n source) (cap source)
            {| tokens := source; result := copied; currentPos := startPos; attempts := 0 |}).
  { unfold steady. simpl. assert (maxAttempts = 10) by reflexivity.
    assert (MaxInt = 9223372036854775807) by reflexivity.
    repeat split; try done; lia. }
  set (P := λ st : Continuation,
         tokens st = source ∧ Order (chain g) - 1 ≤ len (result st)).
  assert (HP : P st); [|by destruct HP].
  refine (continuationLoop_preserves g keywords draws (n source) (cap source)
            Horder Hmax ltac:(lia) P _ _ _ _ _ Hinit _ Hrun).
  - intros k st1 t _ _ [Htok Hlen] Ht.
    destruct (continuationTurn_after g keywords (draws k) st1 t Ht)
      as (tokens' & currentPrefix & Hcp & Htok' & Hres).
    apply currentPrefixOf_long in Hcp; [|done..].
    split; [congruence|].
    destruct Hres as [->|[(x & _ & ->)|(? & _ & ->)]]; [done|..];
      rewrite len_app; unfold len at 2; simpl; lia.
  - split; [done|]. simpl. lia.
Qed.

(** A stall, when the source is not used up: one token is copied and the
    two counters go up by one. *)
Lemma stall_copies n0 cap0 tokens' st :
  n0 ≤ cap0 → n0 ≤ MaxInt →
  steady n0 cap0 st → n tokens' = n0 → cap tokens' = cap0 → currentPos st < n0 →
  attempts st < maxAttempts →
  ∃ x, stall tokens' st
       = Returned (Continue {| tokens := tokens'; result := result st ++ [x];
                               currentPos := currentPos st + 1;
                               attempts := attempts st + 1 |}).
Proof.
  intros Hcap0 Hn0 (Hn & Hcap & Hpos & Hatt & Hres) Hn' Hcap' Hlt Hatt'. unfold stall.
  assert (Hmin : MinInt = -9223372036854775808) by reflexivity.
  assert (HmaxInt : MaxInt = 9223372036854775807) by reflexivity.
  assert (Hten : maxAttempts = 10) by reflexivity.
  rewrite Hn'. rewrite (proj2 (Z.ltb_lt _ _) Hlt).
  destruct (at_returned tokens' (currentPos st)) as [token ->]; [lia..|]. simpl.
  rewrite !int_add_id by lia. by exists token.
Qed.

Section stalls.
Variables (g : AnswerGenerator) (keywords : list string) (draws : nat → Draw).
Variables (n0 cap0 : Z).
Hypothesis Horder : 1 ≤ Order (chain g) ≤ MaxInt.
Hypothesis Hmax : maxLength g ≤ MaxInt.
Hypothesis Hsrc : 0 ≤ n0 ∧ n0 ≤ cap0 ∧ n0 ≤ MaxInt.
Hypothesis Hempty : Chain (chain g) = ∅.

Lemma continuationTurn_stalls d st :
  steady n0 cap0 st → guard g st = true →
  ∃ st', continuationTurn g keywords d st = Returned (Continue st')
    ∧ steady n0 cap0 st'
    ∧ len (result st') = len (result st) + 1
    ∧ currentPos st' = currentPos st + 1
    ∧ attempts st' = attempts st + 1.
Proof.
  intros Hst Hguard.
  destruct (continuationTurn_returned g keywords n0 cap0 Horder Hmax Hsrc d st Hst Hguard)
    as (t & Ht & Hprops).
  unfold guard in Hguard.
  apply andb_true_iff in Hguard as [[Hlen Hpos]%andb_true_iff Hatt].
  apply Z.ltb_lt in Hlen, Hpos, Hatt.
  pose proof Hst as (Hn & Hcap & Hpos' & Hatt' & Hres).
  revert Ht. unfold continuationTurn.
  destruct (currentPrefixOf_returned g n0 cap0 Horder Hsrc st Hst)
    as (tokens' & currentPrefix & -> & Hn' & Hcap').
  simpl. unfold GetNextTokens, GetNextTokens_in. rewrite Hempty, lookup_empty.
  destruct (stall_copies n0 cap0 tokens' st) as [x ->]; [lia|lia|done|done|done|lia|lia|].
  intros [= <-]. eexists. split; [done|]. simpl. destruct Hprops as [Hst' Hlen'].
  done.
Qed.

Lemma continuationLoop_stalls fuel k st :
  steady n0 cap0 st → maxLength g - len (result st) ≤ Z.of_nat fuel →
  let turns := Z.max 0 (Z.min (maxAttempts - attempts st)
                          (Z.min (n0 - currentPos st) (maxLength g - len (result st)))) in
  ∃ st', continuationLoop fuel g keywords draws k st = Returned st'
    ∧ len (result st') = len (result st) + turns
    ∧ currentPos st' = currentPos st + turns
    ∧ attempts st' = attempts st + turns.
Proof.
  revert k st. induction fuel as [|fuel IH]; intros k st Hst Hfuel turns; simpl.
  - destruct (_ && _ && _) eqn:Hguard.
    + apply andb_true_iff in Hguard as [[Hlen _]%andb_true_iff _].
      apply Z.ltb_lt in Hlen. lia.
    + exists st. split; [done|].
      destruct Hst as (Hn & _). rewrite Hn in Hguard.
      assert (turns = 0) as ->; [|lia]. subst turns.
      apply andb_false_iff in Hguard as [[E|E]%andb_false_iff|E];
        apply Z.ltb_ge in E; lia.
  - destruct (_ && _ && _) eqn:Hguard.
    + destruct (continuationTurn_stalls (draws k) st Hst Hguard)
        as (st1 & -> & Hst1 & Hlen1 & Hpos1 & Hatt1). simpl.
      destruct (IH (S k) st1 Hst1) as (st' & -> & Hlen' & Hpos' & Hatt'); [lia|].
      exists st'. split; [done|].
      apply andb_true_iff in Hguard as [[Hlen Hpos]%andb_true_iff Hatt].
      apply Z.ltb_lt in Hlen, Hpos, Hatt.
      destruct Hst as (Hn & _). rewrite Hn in Hpos.
      subst turns. lia.
    + exists st. split; [done|].
      destruct Hst as (Hn & _). rewrite Hn in Hguard.
      assert (turns = 0) as ->; [|lia]. subst turns.
      apply andb_false_iff in Hguard as [[E|E]%andb_false_iff|E];
        apply Z.ltb_ge in E; lia.
Qed.

End stalls.

(** X23. Over a chain that has no prefix key, as after training on
    sentences shorter than the order, every turn of the continuation loop
    stalls and copies one token of the source; the loop stops after ten
    stalls, or earlier when the source is used up or the maximum length is
    reached. *)
Theorem continuationLoop_stalls_out (g : AnswerGenerator) (source : Slice string)
    (startPos : Z) (keywords : list string) (draws : nat → Draw) :
  Chain (chain g) = ∅ →
  1 ≤ Order (chain g) ≤ MaxInt → maxLength g ≤ MaxInt →
  0 ≤ n source ≤ cap source → n source ≤ MaxInt →
  0 ≤ startPos ≤ n source →
  let copied := take (Z.to_nat startPos) (arr source) in
  let turns := Z.max 0 (Z.min 10 (Z.min (n source - startPos) (maxLength g - startPos))) in
  ∃ st,
    continuationLoop (Z.to_nat (maxLength g - len copied)) g keywords draws 0
      {| tokens := source; result := copied; currentPos := startPos; attempts := 0 |}
    = Returned st
    ∧ len (result st) = startPos + turns
    ∧ currentPos st = startPos + turns
    ∧ attempts st = turns.
Proof.
  intros Hempty Horder Hmax Hn Hcap Hstart copied turns.
  assert (Hcopied : len copied = startPos).
  { subst copied. unfold len, cap, len in *. rewrite length_take. lia. }
  assert (Hinit : steady (n source) (cap source)
            {| tokens := source; result := copied; currentPos := startPos; attempts := 0 |}).
  { unfold steady. simpl. assert (maxAttempts = 10) by reflexivity.
    assert (MaxInt = 9223372036854775807) by reflexivity.
    repeat split; try done; lia. }
  destruct (continuationLoop_stalls g keywords draws (n source) (cap source)
              Horder Hmax ltac:(lia) Hempty (Z.to_nat (maxLength g - len copied)) 0%nat
              _ Hinit) as (st & Hrun & Hlen & Hpos & Hatt).
  { simpl. lia. }
  cbn [result currentPos attempts] in Hlen, Hpos, Hatt.
  exists st. split; [done|].
  assert (maxAttempts = 10) as Hten by reflexivity.
  rewrite Hten, Hcopied in Hlen, Hpos, Hatt. subst turns. lia.
Qed.

(** A turn that finds the result shorter than a prefix, builds the prefix
    in place over the source, and stalls. *)
Lemma continuationTurn_short_stall (g : AnswerGenerator) (keywords : list string) (d : Draw)
    (arr0 : list string) (n0 : Z) (res : list string) (pos att : Z) (x : string) :
  let o := Order (chain g) in
  let startIdx := Z.max 0 (pos - (o - 1 - len res)) in
  let head := take (Z.to_nat (pos - startIdx)) (drop (Z.to_nat startIdx) arr0) in
  1 ≤ o ≤ MaxInt → len res < o - 1 →
  0 ≤ pos < n0 → n0 ≤ len arr0 → len arr0 ≤ MaxInt → 0 ≤ att < MaxInt →
  pos + len res ≤ len arr0 →
  Chain (chain g) !! joinTokens (head ++ res) = None →
  overwrite arr0 (Z.to_nat pos) res !! Z.to_nat pos = Some x →
  continuationTurn g keywords d
    {| tokens := mkSlice arr0 n0; result := res; currentPos := pos; attempts := att |}
  = Returned (Continue
      {| tokens := mkSlice (overwrite arr0 (Z.to_nat pos) res) n0;
         result := res ++ [x]; currentPos := pos + 1; attempts := att + 1 |}).
Proof.
  intros o startIdx head Horder Hshort Hpos Hn Hlen Hatt Hroom Hkey Hx.
  assert (Hmin : MinInt = -9223372036854775808) by reflexivity.
  assert (HmaxInt : MaxInt = 9223372036854775807) by reflexivity.
  pose proof (len_nonneg res) as Hres0.
  unfold continuationTurn, currentPrefixOf.
  cbn [tokens result currentPos attempts]. fold o.
  rewrite (int_sub_id o 1) by lia.
  rewrite (proj2 (Z.leb_gt (o - 1) (len res))) by lia.
  rewrite (int_sub_id (o - 1) (len res)) by lia.
  rewrite (int_sub_id pos (o - 1 - len res)) by lia.
  fold startIdx.
  unfold append_to_reslice, reslice, cap. cbn [arr n].
  rewrite bool_decide_eq_true_2 by lia. cbn [mbind outcome_bind obind].
  rewrite bool_decide_eq_true_2 by lia. fold head.
  cbn [mbind outcome_bind obind].
  unfold GetNextTokens, GetNextTokens_in. rewrite Hkey.
  unfold stall. cbn [tokens result currentPos attempts n].
  rewrite (proj2 (Z.ltb_lt pos n0)) by lia.
  unfold at_. cbn [arr n]. rewrite bool_decide_eq_true_2 by lia. rewrite Hx.
  cbn [mbind outcome_bind obind mret outcome_ret].
  rewrite !int_add_id by lia. reflexivity.
Qed.

Lemma continuationLoop_step (g : AnswerGenerator) (keywords : list string)
    (draws : nat → Draw) (fuel k : nat) (st st1 : Continuation) :
  guard g st = true →
  continuationTurn g keywords (draws k) st = Returned (Continue st1) →
  continuationLoop (S fuel) g keywords draws k st
  = continuationLoop fuel g keywords draws (S k) st1.
Proof.
  intros Hguard Hturn. cbn [continuationLoop]. unfold guard in Hguard.
  by rewrite Hguard, Hturn.
Qed.

(** The first two turns of the loop from the start of the source, over a
    chain of order 3 or more that knows neither the empty prefix nor the
    first token twice: both stall, and the second writes the first token
    over the second one before it copies it. *)
Lemma continuationLoop_first_turns (g : AnswerGenerator) (source : Slice string)
    (keywords : list string) (draws : nat → Draw) (first : string) (fuel : nat) :
  3 ≤ Order (chain g) ≤ MaxInt → 2 ≤ maxLength g →
  2 ≤ n source ≤ cap source → cap source ≤ MaxInt →
  arr source !! 0%nat = Some first →
  Chain (chain g) !! joinTokens [] = None →
  Chain (chain g) !! joinTokens [first; first] = None →
  continuationLoop (S (S fuel)) g keywords draws 0
    {| tokens := source; result := []; currentPos := 0; attempts := 0 |}
  = continuationLoop fuel g keywords draws 2
      {| tokens := mkSlice (<[1%nat := first]> (arr source)) (n source);
         result := [first; first]; currentPos := 2; attempts := 2 |}.
Proof.
  intros Horder Hmax Hn Hcap Hfirst Hnil Htwice.
  destruct source as [arr0 n0]. unfold cap in Hn, Hcap. simpl in Hn, Hcap, Hfirst.
  assert (HmaxInt : MaxInt = 9223372036854775807) by reflexivity.
  assert (Hten : maxAttempts = 10) by reflexivity.
  assert (Hone : len [first] = 1) by reflexivity.
  assert (Hnone : len (@nil string) = 0) by reflexivity.
  cbn [arr n].
  rewrite (continuationLoop_step g keywords draws (S fuel) 0 _
             {| tokens := mkSlice arr0 n0; result := [first];
                currentPos := 1; attempts := 1 |}).
  - apply continuationLoop_step.
    + unfold guard. cbn [tokens result currentPos attempts n]. rewrite Hone.
      apply andb_true_intro. split; [apply andb_true_intro; split|]; apply Z.ltb_lt; lia.
    + apply (continuationTurn_short_stall g keywords (draws 1%nat) arr0 n0 [first] 1 1 first);
        try lia.
      * rewrite Hone. rewrite Z.max_l by lia. rewrite Z.sub_0_r.
        change (Z.to_nat 1) with 1%nat. change (Z.to_nat 0) with 0%nat. rewrite drop_0.
        assert (take 1 arr0 = [first]) as ->; [|done].
        destruct arr0 as [|x arr0]; [done|]. simpl in Hfirst. by injection Hfirst as ->.
      * change (Z.to_nat 1) with 1%nat. cbn [overwrite].
        apply list_lookup_insert_eq. unfold len in Hn. lia.
  - unfold guard. cbn [tokens result currentPos attempts n]. rewrite Hnone.
    apply andb_true_intro. split; [apply andb_true_intro; split|]; apply Z.ltb_lt; lia.
  - apply (continuationTurn_short_stall g keywords (draws 0%nat) arr0 n0 [] 0 0 first);
      try lia.
    + rewrite Hnone. rewrite Z.max_l by lia. by rewrite app_nil_r.
    + done.
Qed.

(** X24. With a chain of order 3 or more, a continuation from the start of
    a source of two tokens or more repeats the first token: the append that
    builds the first prefix of two tokens writes the first token over the
    second token of the source, which is then copied in its place. The
    chain knows neither the empty prefix nor the first token twice. *)
Theorem continuation_repeats_first_token (g : AnswerGenerator) (source : Slice string)
    (keywords : list string) (draws : nat → Draw) (first : string) :
  3 ≤ Order (chain g) ≤ MaxInt → 2 ≤ maxLength g ≤ MaxInt →
  2 ≤ n source ≤ cap source → cap source ≤ MaxInt →
  arr source !! 0%nat = Some first →
  Chain (chain g) !! joinTokens [] = None →
  Chain (chain g) !! joinTokens [first; first] = None →
  ∃ added,
    continuationTokens g source 0 keywords draws = Returned (first :: first :: added).
Proof.
  intros Horder Hmax Hn Hcap Hfirst Hnil Htwice.
  destruct (continuationTokens_parts g source 0 keywords draws)
    as (st & rest & Hrun & Hst & -> & _); [lia|lia|lia|lia|lia|].
  change (take (Z.to_nat 0) (arr source)) with (@nil string) in Hrun.
  change (len (@nil string)) with 0 in Hrun. rewrite Z.sub_0_r in Hrun.
  destruct (Z.to_nat (maxLength g)) as [|[|fuel]] eqn:Hfuel; [lia|lia|].
  rewrite (continuationLoop_first_turns g source keywords draws first fuel) in Hrun;
    [|lia|lia|done|lia|done..].
  assert (Hinit : steady (n source) (cap source)
            {| tokens := mkSlice (<[1%nat := first]> (arr source)) (n source);
               result := [first; first]; currentPos := 2; attempts := 2 |}).
  { unfold steady, cap. simpl. assert (maxAttempts = 10) by reflexivity.
    assert (MaxInt = 9223372036854775807) by reflexivity.
    unfold len. rewrite length_insert. unfold cap, len in Hn. simpl.
    repeat split; try done; lia. }
  assert ([first; first] `prefix_of` result st) as [added ->].
  { refine (continuationLoop_preserves g keywords draws (n source) (cap source)
              ltac:(lia) ltac:(lia) ltac:(lia) (λ st, [first; first] `prefix_of` result st)
              _ _ _ _ _ Hinit _ Hrun); [|done].
    intros k st1 t _ _ Hpre Ht.
    destruct (continuationTurn_after g keywords (draws k) st1 t Ht)
      as (? & ? & _ & _ & [->|[(x & _ & ->)|(? & _ & ->)]]);
      [done|by apply prefix_app_r..]. }
  exists (added ++ rest). by rewrite <- app_assoc.
Qed.

End with_lib.
End SourceFacts.

Module FormatFacts.
Import Go GoFacts Spec GeneratorSpec Trainer Generator StringFacts TotalityFacts.

Section with_lib.
Context `{!GoLib} {laws : GoLibLaws _}.

(** What [formatAnswer] returns is empty or ends in one of the three
    marks. *)
Lemma formatAnswer_terminated (answer : string) : terminated (formatAnswer answer).
Proof.
  unfold formatAnswer.
  set (a := if 0 <? Z.of_nat (String.length _) then _ else _).
  destruct (0 <? Z.of_nat (String.length a)) eqn:Hlen; simpl.
  - destruct (HasSuffix a ".") eqn:H1; simpl; [right; by left|].
    destruct (HasSuffix a "!") eqn:H2; simpl; [right; right; by left|].
    destruct (HasSuffix a "?") eqn:H3; simpl; [right; right; by right|].
    right. left. apply HasSuffix_app.
  - left. apply Z.ltb_ge in Hlen. destruct a; [done|]. simpl in Hlen. lia.
Qed.

(** X25. Every answer of [GenerateAnswer], the two fixed messages
    included, is empty or ends in a full stop, an exclamation mark or a
    question mark. The order of the chain is positive and the sentences of
    the index have fewer than [MaxInt] tokens, so that an answer is
    returned. *)
Theorem GenerateAnswer_terminated (g : AnswerGenerator) (w : World) (question : string) :
  valid_order (searchOrder w) →
  1 ≤ Order (chain g) ≤ MaxInt → maxLength g ≤ MaxInt →
  (∀ k l s, Index (chain g) !! k = Some l → s ∈ l →
     len (Tokenizer.Tokenize (tokenizer g) s) < MaxInt) →
  ∃ answer, GenerateAnswer g w question = Returned answer ∧ terminated answer.
Proof.
  intros Hord Ho Hmax Hidx.
  destruct (GenerateAnswer_returned g w question Hord Ho Hmax Hidx) as (answer & Hrun).
  exists answer. split; [done|]. revert Hrun. unfold GenerateAnswer.
  destruct (len (extractKeywords g question) =? 0).
  { intros [= <-]. right. left. vm_compute. reflexivity. }
  destruct (len (Search _ _ _ _) =? 0).
  { intros [= <-]. right. left. vm_compute. reflexivity. }
  destruct (generateFromSentence _ _ _ _); simpl; [|done..].
  intros [= <-]. apply formatAnswer_terminated.
Qed.

End with_lib.
End FormatFacts.

(* ===================================================================== *)
(** * The library on UTF-8 text keeps the promises of the documentation *)
(* ===================================================================== *)

Module Utf8LibFacts.
Import Go GoFacts Utf8Lib.

Lemma insert_left_perm {A} (less : A → A → bool) x before :
  insert_left less x before ≡ₚ x :: before.
Proof.
  induction before as [|y before IH]; simpl; [done|].
  destruct (less x y); [|done]. rewrite IH. apply Permutation_swap.
Qed.

Lemma insertionSort_perm {A} (less : A → A → bool) l : insertionSort less l ≡ₚ l.
Proof.
  unfold insertionSort. rewrite reverse_Permutation.
  assert (∀ before, foldl (λ before x, insert_left less x before) before l ≡ₚ before ++ l)
    as Hfold; [|by rewrite Hfold].
  induction l as [|x l IH]; intros before; simpl.
  - by rewrite app_nil_r.
  - rewrite IH, insert_left_perm. simpl. apply Permutation_middle.
Qed.

Lemma insert_left_sorted {A} (less : A → A → bool) x before :
  strict_weak_order less →
  StronglySorted (λ a b, less a b = false) before →
  StronglySorted (λ a b, less a b = false) (insert_left less x before).
Proof.
  intros (Hirr & Htrans & Hneg) Hsorted.
  induction Hsorted as [|y before Hsorted IH Hy]; simpl.
  - repeat constructor.
  - destruct (less x y) eqn:Hxy.
    + constructor; [done|]. rewrite insert_left_perm. constructor; [|done].
      destruct (less y x) eqn:Hyx; [|done].
      pose proof (Htrans x y x Hxy Hyx) as Hxx. by rewrite Hirr in Hxx.
    + constructor; [by constructor|]. constructor; [done|].
      eapply Forall_impl; [exact Hy|]. intros z Hyz. simpl in Hyz. eauto.
Qed.

Lemma StronglySorted_reverse {A} (R : relation A) l :
  StronglySorted R l → StronglySorted (flip R) (reverse l).
Proof.
  induction 1 as [|x l Hl IH Hx]; [constructor|].
  rewrite reverse_cons. apply StronglySorted_app.
  split; [|split; [exact IH|repeat constructor]].
  intros a b Ha Hb%list_elem_of_singleton. subst b.
  rewrite elem_of_reverse in Ha. rewrite Forall_forall in Hx. unfold flip. by apply Hx.
Qed.

Lemma insertionSort_sorted {A} (less : A → A → bool) l :
  strict_weak_order less →
  StronglySorted (λ a b, less b a = false) (insertionSort less l).
Proof.
  intros Hswo. unfold insertionSort.
  apply (StronglySorted_reverse (λ a b, less a b = false)).
  assert (∀ before, StronglySorted (λ a b, less a b = false) before →
            StronglySorted (λ a b, less a b = false)
              (foldl (λ before x, insert_left less x before) before l)) as Hfold.
  { induction l as [|x l IH]; intros before Hbefore; simpl; [done|].
    apply IH. by apply insert_left_sorted. }
  apply Hfold. constructor.
Qed.

#[export] Instance laws : GoLibLaws lib.
Proof.
  split.
  - intros A less l. apply insertionSort_perm.
  - intros A less l. apply insertionSort_sorted.
Defined.

End Utf8LibFacts.

(* ===================================================================== *)
(** * The properties on the examples *)
(* ===================================================================== *)

Module ExampleFacts.
Import Go GoFacts Spec GeneratorSpec Trainer Generator Utf8Lib Utf8LibFacts Examples.

Lemma valid_order_id {A} : valid_order (id : order A).
Proof. intros l. done. Qed.

Lemma valid_order_reverse {A} : valid_order (reverse : order A).
Proof. intros l. apply reverse_Permutation. Qed.

(** Training on the cat corpus leaves [Sums] in step with [Chain]. *)
Lemma Train_sums_invariant_witness :
  ∃ mc, Train (NewMarkovTrainer order3) catCorpus = Returned (mc, None)
    ∧ dom (Sums mc) = dom (Chain mc)
    ∧ ∀ p suffixes, Chain mc !! p = Some suffixes →
        Sums mc !! p = Some (exactSum suffixes).
Proof.
  apply (ChainFacts.Train_sums_invariant order3 catCorpus).
  - done.
  - simpl. lia.
  - apply Z.leb_le. vm_compute. reflexivity.
Defined.

(** Training on the cat corpus returns no error; training on no sentence
    returns an error and leaves the fresh model as it was. *)
Lemma Train_error_iff_empty_witness :
  (∃ mc, Train (NewMarkovTrainer order3) catCorpus = Returned (mc, None)) ∧
  (∃ e, Train (NewMarkovTrainer order3) [] = Returned (NewMarkovTrainer order3, Some e)).
Proof.
  split.
  - refine (proj2 (proj2 (TrainerFacts.Train_error_iff_empty
                            (NewMarkovTrainer order3) catCorpus _ _)) _).
    + simpl. lia.
    + repeat constructor; apply Z.leb_le; vm_compute; reflexivity.
    + done.
  - destruct (TrainerFacts.Train_error_iff_empty (NewMarkovTrainer order3) [])
      as (Hiff & Hsame & _).
    + simpl. lia.
    + constructor.
    + destruct (proj1 Hiff eq_refl) as (mc' & e & Hrun).
      destruct (Hsame mc' e Hrun) as (-> & _). by exists e.
Defined.

(** The successors of "the cat" are given weights that add up to 1. *)
Lemma GetNextTokens_distribution_witness :
  ∃ weights, GetNextTokens_exact catModel ["the"; "cat"] = Some weights
    ∧ Qcsum weights = 1%Qc.
Proof.
  destruct (DistributionFacts.GetNextTokens_distribution catModel ["the"; "cat"])
    as (_ & _ & Hexact).
  destruct (Hexact {[ "sat" := 1; "ran" := 1 ]}) as (weights & Hw & _ & _ & Hsum).
  - vm_compute. reflexivity.
  - apply (bool_decide_unpack _). vm_compute. reflexivity.
  - apply map_Forall_lookup. apply (bool_decide_unpack _). vm_compute. reflexivity.
  - vm_compute. reflexivity.
  - exists weights. by split.
Defined.

(** [Search] ranks the sentences about cats and running. *)
Lemma Search_ranked_witness :
  let results := Search id catModel ["cat"; "ran"] 5 in
  len results ≤ 5 ∧
  NoDup results ∧
  (∀ s, s ∈ results → 1 ≤ keywordHits (Index catModel) ["cat"; "ran"] s) ∧
  (∀ i j si sj, results !! i = Some si → results !! j = Some sj → (i < j)%nat →
     keywordHits (Index catModel) ["cat"; "ran"] sj
     ≤ keywordHits (Index catModel) ["cat"; "ran"] si).
Proof.
  apply (SearchFacts.Search_ranked id catModel ["cat"; "ran"] 5).
  - apply valid_order_id.
  - apply (bool_decide_unpack _). vm_compute. reflexivity.
  - apply Z.leb_le. vm_compute. reflexivity.
  - apply map_Forall_lookup. apply (bool_decide_unpack _). vm_compute. reflexivity.
  - lia.
Defined.

(** C4, the counterexample. The index lists the sentence that ends in
    "sat" before the one that ends in "ran"; both have one hit for the
    keyword "cat"; and when the range over the scores yields them the other
    way round, [Search] returns "ran" first. *)
Lemma Search_ties_follow_range_order :
  Index catModel !! "cat" = Some [satSentence; ranSentence] ∧
  keywordHits (Index catModel) ["cat"] satSentence = 1 ∧
  keywordHits (Index catModel) ["cat"] ranSentence = 1 ∧
  valid_order (reverse : order Z) ∧
  Search id catModel ["cat"] 5 = [satSentence; ranSentence] ∧
  Search reverse catModel ["cat"] 5 = [ranSentence; satSentence].
Proof.
  split; [vm_compute; reflexivity|].
  split; [vm_compute; reflexivity|].
  split; [vm_compute; reflexivity|].
  split; [apply valid_order_reverse|].
  split; vm_compute; reflexivity.
Qed.

(** The histogram and the entropy of [x] in the skewed model. *)
Lemma entropy_from_flat_counts_witness :
  (∀ contextKey,
     histogram (tokenContextsOf (Chain skewedModel)) "x" contextKey
     = flatCount (observations (Chain skewedModel)) ("x", contextKey)) ∧
  tokenEntropy strictGenerator !! "x"
  = calculateEntropy id <$> (tokenContextsOf (Chain skewedModel) !! "x").
Proof.
  apply (ThematicFacts.entropy_from_flat_counts canonical skewedModel _ "x").
  - apply valid_order_id.
  - apply Z.leb_le. vm_compute. reflexivity.
Defined.

(** C2, the counterexample. In the skewed model the transition from [a]
    to [x] was counted three times, and the histogram of [x] holds 1 at the
    context key of [a], where the specification asks for 3. *)
Lemma tokenContexts_not_weighted :
  Chain skewedModel !! "[a]" = Some {[ "x" := 3 ]} ∧
  histogram (tokenContextsOf (Chain skewedModel)) "x" "a" = 1 ∧
  weightedContexts_spec (Chain skewedModel) "x" "a" = 3.
Proof. repeat split; vm_compute; reflexivity. Qed.

(** With even odds and the candidates visited in the order of the map,
    the first candidate is returned. *)
Lemma selectNextToken_first_reaching_witness :
  selectNextToken (drawIn id) evenOdds = "a".
Proof.
  destruct (SamplerFacts.selectNextToken_first_reaching (drawIn id) evenOdds)
    as (_ & Hfirst & _).
  - apply valid_order_id.
  - apply (Hfirst 0%nat "a" 0.5%float).
    + vm_compute. reflexivity.
    + vm_compute. reflexivity.
    + intros j Hj. lia.
Defined.

(** C3, the counterexample. Two calls with the same distribution and the
    same clock, hence the same number drawn, return different tokens when
    their ranges visit the map in different orders. *)
Lemma selectNextToken_depends_on_range_order :
  valid_order (scanOrder (drawIn id)) ∧
  valid_order (scanOrder (drawIn reverse)) ∧
  now (drawIn id) = now (drawIn reverse) ∧
  selectNextToken (drawIn id) evenOdds = "a" ∧
  selectNextToken (drawIn reverse) evenOdds = "b".
Proof.
  split; [apply valid_order_id|].
  split; [apply valid_order_reverse|].
  repeat split; vm_compute; reflexivity.
Qed.

(** [findBestSentence] picks a sentence of the candidates. *)
Lemma findBestSentence_first_maximum_witness :
  let hits := λ s, matchingTokens (Tokenizer.Tokenize (tokenizer catGenerator) s) ["cat"; "dog"] in
  let best := findBestSentence catGenerator [repetitive; varied] ["cat"; "dog"] in
  ∃ i, [repetitive; varied] !! i = Some best ∧
       ∀ j s, [repetitive; varied] !! j = Some s →
         hits s ≤ hits best ∧ ((j < i)%nat → hits s < hits best).
Proof.
  apply (SelectionFacts.findBestSentence_first_maximum catGenerator
           [repetitive; varied] ["cat"; "dog"]).
  - done.
  - repeat constructor; apply Z.leb_le; vm_compute; reflexivity.
Defined.

(** C5, the counterexample. Of a sentence that holds one keyword three
    times and a sentence that holds two keywords once each, the first is
    returned, although the second holds more distinct keywords. *)
Lemma findBestSentence_counts_repetitions :
  findBestSentence catGenerator [repetitive; varied] ["cat"; "dog"] = repetitive ∧
  distinctKeywordCount (Tokenizer.Tokenize (tokenizer catGenerator) repetitive)
    ["cat"; "dog"] = 1 ∧
  distinctKeywordCount (Tokenizer.Tokenize (tokenizer catGenerator) varied)
    ["cat"; "dog"] = 2.
Proof. repeat split; vm_compute; reflexivity. Qed.

(** C6, on the failing input. The model was trained on one sentence of
    five words and the generator allows two tokens. For the question "dd"
    the start position is 3, the three tokens before it are copied, and the
    answer has three tokens. *)
Theorem continuation_exceeds_maxLength :
  maxLength shortGenerator = 2 ∧
  extractKeywords shortGenerator "dd" = ["dd"] ∧
  findThematicStartPosition shortGenerator ["aa"; "bb"; "cc"; "dd"; "ee"] ["dd"]
  = Returned 3 ∧
  continuationTokens shortGenerator (grown ["aa"; "bb"; "cc"; "dd"; "ee"]) 3 ["dd"]
    (draws calm) = Returned ["aa"; "bb"; "cc"] ∧
  GenerateAnswer shortGenerator calm "dd" = Returned "Aa bb cc.".
Proof. repeat split; vm_compute; reflexivity. Qed.

(** C7, on the failing input. The generator was configured with a
    threshold of half a bit; the token [x] has an entropy of one bit, which
    is not below the threshold, and is classified as thematic. *)
Theorem isThematicToken_ignores_config :
  strictGenerator
  = NewAnswerGenerator canonical skewedModel
      {| MaxLength := 50; UsePunctuation := true; MaxThematicEntropy := 0.5%float |} ∧
  tokenEntropy strictGenerator !! "x" = Some 1.0%float ∧
  (1.0 <? 0.5)%float = false ∧
  isThematicToken strictGenerator "x" = true.
Proof. repeat split; vm_compute; reflexivity. Qed.



(** The continuation of the sentence about the cat from position 2, in
    which the loop takes its turns, returns. *)
Lemma continuation_terminates_within_bound_witness :
  ∃ produced,
    continuationTokens catGenerator (grown satTokens) 2 ["cat"] (draws calm)
    = Returned produced
    ∧ generateThematicContinuation catGenerator (grown satTokens) 2 ["cat"] (draws calm)
      = Returned (Tokenizer.JoinTokens (tokenizer catGenerator) produced)
    ∧ len produced ≤ Z.max (maxLength catGenerator) 2.
Proof.
  apply (ContinuationFacts.continuation_terminates_within_bound catGenerator
           (grown satTokens) 2 ["cat"] (draws calm)).
  - split; apply Z.leb_le; vm_compute; reflexivity.
  - apply Z.leb_le. vm_compute. reflexivity.
  - split; apply Z.leb_le; vm_compute; reflexivity.
  - apply Z.leb_le. vm_compute. reflexivity.
  - split; apply Z.leb_le; vm_compute; reflexivity.
Defined.

(** Over a chain that knows no prefix, every turn of the loop stalls:
    of a sentence of twelve tokens the loop copies ten, one for each stall,
    and stops with [attempts] at 10. *)
Theorem continuationLoop_stops_after_ten_stalls :
  ∃ st,
    continuationLoop 50 blankGenerator [] (draws calm) 0
      {| tokens := grown twelve; result := []; currentPos := 0; attempts := 0 |}
    = Returned st
    ∧ result st = take 10 twelve ∧ currentPos st = 10 ∧ attempts st = maxAttempts.
Proof. eexists. split; [vm_compute; reflexivity|]. repeat split. Qed.

(** The entry of "cat" in the index of the cat model holds no sentence
    twice. *)
Lemma Train_Index_NoDup_witness : NoDup [satSentence; ranSentence].
Proof.
  apply (IndexFacts.Train_Index_NoDup (NewMarkovTrainer order3) catCorpus catModel)
    with (k := "cat"); vm_compute; reflexivity.
Defined.

(** The successors of "the cat" add up to the same sum backwards. *)
Lemma sumCounts_any_order_witness :
  foldl (λ sum e, int_add sum e.2) 0
        (reverse (map_to_list ({[ "sat" := 1; "ran" := 1 ]} : gmap string Z)))
  = sumCounts {[ "sat" := 1; "ran" := 1 ]}.
Proof.
  apply (RangeFacts.sumCounts_any_order {[ "sat" := 1; "ran" := 1 ]}).
  apply reverse_Permutation.
Defined.

(** The observations of the skewed model, made backwards, give the same
    histogram. *)
Lemma tokenContextsOf_any_order_witness :
  foldl observe ∅ (reverse (observations (Chain skewedModel)))
  = tokenContextsOf (Chain skewedModel).
Proof.
  apply (RangeFacts.tokenContextsOf_any_order (Chain skewedModel)).
  apply reverse_Permutation.
Defined.

(** Two arrangements of the same tokens have the same context key. *)
Lemma createContextKey_perm_witness :
  createContextKey ["cat"; "the"] = createContextKey ["the"; "cat"].
Proof. apply ContextFacts.createContextKey_perm. apply Permutation_swap. Defined.

(** The key of "the cat" is parsed back into its two tokens. *)
Lemma parsePrefix_joinTokens_witness :
  parsePrefix (joinTokens ["the"; "cat"]) = ["the"; "cat"].
Proof.
  apply (ContextFacts.parsePrefix_joinTokens ["the"; "cat"]).
  repeat constructor; try done;
    try (apply (bool_decide_unpack _); vm_compute; reflexivity).
Defined.

(** The n-grams of the cat corpus are recorded. *)
Lemma Train_records_windows_witness :
  ∃ mc', Train (NewMarkovTrainer order3) catCorpus = Returned (mc', None) ∧
    (∀ p s, recorded (Chain mc') p s ↔
       recorded (Chain (NewMarkovTrainer order3)) p s
       ∨ isWindow (Order (NewMarkovTrainer order3)) catCorpus p s) ∧
    (∀ sentence i s, sentence ∈ catCorpus →
       0 ≤ i ≤ len sentence - Order (NewMarkovTrainer order3) →
       windowSuffix (Order (NewMarkovTrainer order3)) sentence i = Some s →
       ∃ probabilities,
         GetNextTokens mc' (windowPrefix (Order (NewMarkovTrainer order3)) sentence i)
         = Some probabilities
         ∧ s ∈ dom probabilities).
Proof.
  apply (WindowFacts.Train_records_windows (NewMarkovTrainer order3) catCorpus).
  - simpl. lia.
  - repeat constructor; apply Z.leb_le; vm_compute; reflexivity.
  - done.
Defined.

(** The index of the cat model lists the sentences of the cat corpus. *)
Lemma Train_index_exact_witness :
  (∀ token s,
     s ∈ default [] (Index catModel !! token)
     ↔ s ∈ default [] (Index (NewMarkovTrainer order3) !! token)
       ∨ (¬ marker token ∧
          ∃ sentence, sentence ∈ catCorpus ∧ token ∈ sentence
                      ∧ s = joinSentence sentence)) ∧
  (dom (Index (NewMarkovTrainer order3)) = dom (Vocab (NewMarkovTrainer order3)) →
   dom (Index catModel) = dom (Vocab catModel)).
Proof.
  apply (VocabFacts.Train_index_exact (NewMarkovTrainer order3) catCorpus catModel).
  vm_compute. reflexivity.
Defined.

(** The vocabulary of the cat model. *)
Lemma Train_Vocab_Vocabulary_witness :
  Vocab catModel
  = delete "<start>" (delete "<end>" (Tokenizer.Vocabulary trainingTokenizer catCorpus)).
Proof.
  apply (VocabFacts.Train_Vocab_Vocabulary trainingTokenizer order3 catCorpus catModel).
  vm_compute. reflexivity.
Defined.

(** Training on the sentences about the cat and then on the sentence
    about the dog gives the cat model. *)
Lemma Train_incremental_witness :
  Train (NewMarkovTrainer order3) (catsOnly ++ dogOnly) = Returned (catModel, None).
Proof.
  apply (IncrementalFacts.Train_incremental (NewMarkovTrainer order3) catsModel catModel).
  - vm_compute. reflexivity.
  - vm_compute. reflexivity.
Defined.

(** The statistics of the cat model. *)
Lemma GetStats_counts_windows_witness :
  ∃ mc, Train (NewMarkovTrainer order3) catCorpus = Returned (mc, None) ∧
    Stats.total_transitions (GetStats mc)
    = Zsum (windowCount (TrainConfig.Order order3) <$> catCorpus) ∧
    (Forall (λ s, len s < TrainConfig.Order order3) catCorpus →
     Stats.prefixes (GetStats mc) = 0 ∧
     PrimFloat.is_nan (Stats.avg_transitions_per_prefix (GetStats mc)) = true).
Proof.
  apply (StatsFacts.GetStats_counts_windows order3 catCorpus).
  - done.
  - simpl. lia.
  - apply Z.leb_le. vm_compute. reflexivity.
Defined.

(** A search of the cat model with a limit of one sentence. *)
Lemma Search_complete_witness :
  let results := Search id catModel ["cat"; "ran"] 1 in
  (1 ≤ 0 → results = []) ∧
  (∀ s, 1 ≤ keywordHits (Index catModel) ["cat"; "ran"] s →
        s ∈ results ∨ 1 ≤ len results).
Proof.
  apply (SearchLimitFacts.Search_complete id catModel ["cat"; "ran"] 1).
  - apply valid_order_id.
  - apply Z.leb_le. vm_compute. reflexivity.
  - apply map_Forall_lookup. apply (bool_decide_unpack _). vm_compute. reflexivity.
Defined.

(** Training on a text of which one sentence is blank succeeds. *)
Lemma Train_TokenizeSentences_witness :
  ∃ mc', Train (NewMarkovTrainer order3)
           (Tokenizer.TokenizeSentences trainingTokenizer catText)
         = Returned (mc', None).
Proof.
  apply (PipelineFacts.Train_TokenizeSentences trainingTokenizer
           (NewMarkovTrainer order3) catText).
  - simpl. lia.
  - repeat constructor; apply Z.leb_le; vm_compute; reflexivity.
  - apply Exists_cons_hd. vm_compute. discriminate.
Defined.

(** With even odds the sampler returns one of the two candidates. *)
Lemma selectThematicToken_candidate_witness :
  (selectNextToken (drawIn id) evenOdds = ""
   ∨ selectNextToken (drawIn id) evenOdds ∈ dom evenOdds) ∧
  (selectThematicToken catGenerator (drawIn id) evenOdds ["a"] = ""
   ∨ selectThematicToken catGenerator (drawIn id) evenOdds ["a"] ∈ dom evenOdds).
Proof.
  apply (CandidateFacts.selectThematicToken_candidate catGenerator (drawIn id) evenOdds ["a"]);
    apply valid_order_id.
Defined.

(** The token [x] of the skewed model has an entropy. *)
Lemma tokenEntropy_tokens_witness :
  let g := NewAnswerGenerator canonical skewedModel
             {| MaxLength := 50; UsePunctuation := true;
                MaxThematicEntropy := 0.5%float |} in
  let known := ∃ prefix suffixes, Chain skewedModel !! prefix = Some suffixes ∧
                 ("x" ∈ parsePrefix prefix ∨ is_Some (suffixes !! "x")) in
  (is_Some (tokenEntropy g !! "x") ↔ known) ∧
  (isThematicToken g "x" = true → known).
Proof.
  apply (EntropyDomFacts.tokenEntropy_tokens canonical skewedModel _ "x").
  apply valid_order_id.
Defined.

(** The start position in the alphabet sentence for the keyword "dd". *)
Lemma findThematicStartPosition_anchored_witness :
  ∃ startPos,
    findThematicStartPosition shortGenerator alphabetTokens ["dd"] = Returned startPos ∧
    0 ≤ startPos ≤ len alphabetTokens ∧
    (startPos ≠ 0 →
     startPos ≤ len alphabetTokens - Order (chain shortGenerator) + 1 ∧
     is_Some (Chain (chain shortGenerator)
                !! joinTokens (windowPrefix (Order (chain shortGenerator))
                                 alphabetTokens startPos))).
Proof.
  apply (StartPositionFacts.findThematicStartPosition_anchored shortGenerator
           alphabetTokens ["dd"]).
  - split; apply Z.leb_le; vm_compute; reflexivity.
  - apply Z.ltb_lt. vm_compute. reflexivity.
Defined.

(** The continuation of the sentence about the cat from position 2
    begins with the two tokens before it. *)
Lemma continuation_keeps_lead_witness :
  ∃ added,
    continuationTokens catGenerator (grown satTokens) 2 ["sat"] (draws calm)
    = Returned (take (Z.to_nat 2) (arr (grown satTokens)) ++ added).
Proof.
  apply (SourceFacts.continuation_keeps_lead catGenerator (grown satTokens) 2
           ["sat"] (draws calm)).
  - split; apply Z.leb_le; vm_compute; reflexivity.
  - apply Z.leb_le. vm_compute. reflexivity.
  - split; apply Z.leb_le; vm_compute; reflexivity.
  - apply Z.leb_le. vm_compute. reflexivity.
  - split; apply Z.leb_le; vm_compute; reflexivity.
Defined.

(** The tokens of the continuation of the sentence about the cat. *)
Lemma continuation_closed_vocabulary_witness :
  ∃ produced,
    continuationTokens catGenerator (grown satTokens) 1 ["cat"] (draws calm)
    = Returned produced ∧
    Forall (λ token,
              token ∈ take (Z.to_nat (n (grown satTokens))) (arr (grown satTokens))
              ∨ token = ""
              ∨ ∃ p, recorded (Chain (chain catGenerator)) p token) produced.
Proof.
  apply (SourceFacts.continuation_closed_vocabulary catGenerator (grown satTokens) 1
           ["cat"] (draws calm)).
  - split; apply Z.leb_le; vm_compute; reflexivity.
  - apply Z.leb_le. vm_compute. reflexivity.
  - split; apply Z.leb_le; vm_compute; reflexivity.
  - apply Z.leb_le. vm_compute. reflexivity.
  - split; apply Z.leb_le; vm_compute; reflexivity.
  - intros k. split; apply valid_order_id.
Defined.

(** From position 2 of the sentence about the cat, with a chain of order
    3, the loop takes its turns and the source is left as it was. *)
Lemma continuation_leaves_source_witness :
  let copied := take (Z.to_nat 2) (arr (grown satTokens)) in
  ∃ st,
    continuationLoop (Z.to_nat (maxLength catGenerator - len copied)) catGenerator
      ["cat"] (draws calm) 0
      {| tokens := grown satTokens; result := copied; currentPos := 2;
         attempts := 0 |}
    = Returned st
    ∧ tokens st = grown satTokens.
Proof.
  apply (SourceFacts.continuation_leaves_source catGenerator (grown satTokens) 2
           ["cat"] (draws calm)).
  - split; apply Z.leb_le; vm_compute; reflexivity.
  - apply Z.leb_le. vm_compute. reflexivity.
  - split; apply Z.leb_le; vm_compute; reflexivity.
  - apply Z.leb_le. vm_compute. reflexivity.
  - split; apply Z.leb_le; vm_compute; reflexivity.
  - apply Z.leb_le. vm_compute. reflexivity.
Defined.

(** Over the untrained chain, ten of the twelve tokens are copied. *)
Lemma continuationLoop_stalls_out_witness :
  let copied := take (Z.to_nat 0) (arr (grown twelve)) in
  let turns := Z.max 0 (Z.min 10 (Z.min (n (grown twelve) - 0)
                                        (maxLength blankGenerator - 0))) in
  ∃ st,
    continuationLoop (Z.to_nat (maxLength blankGenerator - len copied)) blankGenerator
      [] (draws calm) 0
      {| tokens := grown twelve; result := copied; currentPos := 0; attempts := 0 |}
    = Returned st
    ∧ len (result st) = 0 + turns
    ∧ currentPos st = 0 + turns
    ∧ attempts st = turns.
Proof.
  apply (SourceFacts.continuationLoop_stalls_out blankGenerator (grown twelve) 0
           [] (draws calm)).
  - vm_compute. reflexivity.
  - split; apply Z.leb_le; vm_compute; reflexivity.
  - apply Z.leb_le. vm_compute. reflexivity.
  - split; apply Z.leb_le; vm_compute; reflexivity.
  - apply Z.leb_le. vm_compute. reflexivity.
  - split; apply Z.leb_le; vm_compute; reflexivity.
Defined.

(** The continuation of the sentence about the cat from its start says
    "the" twice. *)
Lemma continuation_repeats_first_token_witness :
  ∃ added,
    continuationTokens catGenerator (grown satTokens) 0 ["cat"] (draws calm)
    = Returned ("the" :: "the" :: added).
Proof.
  apply (SourceFacts.continuation_repeats_first_token catGenerator (grown satTokens)
           ["cat"] (draws calm) "the").
  - split; apply Z.leb_le; vm_compute; reflexivity.
  - split; apply Z.leb_le; vm_compute; reflexivity.
  - split; apply Z.leb_le; vm_compute; reflexivity.
  - apply Z.leb_le. vm_compute. reflexivity.
  - vm_compute. reflexivity.
  - vm_compute. reflexivity.
  - vm_compute. reflexivity.
Defined.

(** The answer to a question about the cat ends in a full stop. *)
Lemma GenerateAnswer_terminated_witness :
  ∃ answer, GenerateAnswer catGenerator calm "the cat" = Returned answer
            ∧ terminated answer.
Proof.
  apply (FormatFacts.GenerateAnswer_terminated catGenerator calm "the cat").
  - apply valid_order_id.
  - split; apply Z.leb_le; vm_compute; reflexivity.
  - apply Z.leb_le. vm_compute. reflexivity.
  - intros k l s Hk Hs.
    assert (map_Forall (λ _ l, Forall (λ s,
              len (Tokenizer.Tokenize (tokenizer catGenerator) s) < MaxInt) l)
              (Index (chain catGenerator))) as Hall.
    { apply (bool_decide_unpack _). vm_compute. reflexivity. }
    specialize (Hall k l Hk). rewrite Forall_forall in Hall. by apply Hall.
Defined.

End ExampleFacts.
